(** * dandelion/tools/_network.py : network generation, verified over a shallow embedding

    The development follows the order of the Python module:
    - [Numeric]   : the array values (the value of a float64 cell as an exact
                    rational) and the few numpy operations the module uses on
                    them;
    - [Distance]  : combination of the per-layer distance matrices (lines 110-125),
                    and [Float64], the same lines in binary64 arithmetic;
    - [SpanningTree] : [mst] (lines 233-248) on top of a model of
                    [scipy.sparse.csgraph.minimum_spanning_tree];
    - [Nx]        : the part of [networkx.Graph] the module relies on;
    - [Network]   : the edge-list assembly of [generate_network] (lines 133-203),
                    [clone_degree] and [generate_layout];
    - [Layout]    : the Fruchterman-Reingold routines (lines 304-604). *)

From Stdlib Require Import String.
From Stdlib Require Import ZArith QArith Qround Lqa List Bool Arith Lia.
From Stdlib Require Import Permutation Sorted Floats.
Import ListNotations.

Close Scope Q_scope.
Open Scope nat_scope.
Set Warnings "-inexact-float".

(** ** Array values *)

Module Numeric.

(** A two-dimensional array, row major. *)
Definition matrix (A : Type) := list (list A).

Definition cell {A} (d : A) (m : matrix A) (i j : nat) : A :=
  nth j (nth i m []) d.

Definition qcell : matrix Q -> nat -> nat -> Q := cell 0%Q.
Definition zcell : matrix Z -> nat -> nat -> Z := cell 0%Z.

(** [m.shape == (n, n)] *)
Definition square {A} (n : nat) (m : matrix A) : Prop :=
  length m = n /\ Forall (fun row => length row = n) m.

Definition squareb {A} (n : nat) (m : matrix A) : bool :=
  (length m =? n) && forallb (fun row => length row =? n) m.

(** Build the [n] x [n] array whose cell [(i, j)] is [f i j]. *)
Definition tabulate {A} (n : nat) (f : nat -> nat -> A) : matrix A :=
  map (fun i => map (fun j => f i j) (seq 0 n)) (seq 0 n).

(** [x != 0] on an array value. *)
Definition qnonzero (x : Q) : bool := negb (Qnum x =? 0)%Z.

(** [ndarray.astype(int)] on a float: the value is truncated toward zero. *)
Definition astype_int (x : Q) : Z := Z.quot (Qnum x) (Zpos (Qden x)).

(** [np.triu(m)]: the cells strictly below the diagonal become zero. *)
Definition triu (m : matrix Q) : matrix Q :=
  map (fun i =>
         map (fun j => if (j <? i)%nat then 0%Q else qcell m i j)
             (seq 0 (length (nth i m []))))
      (seq 0 (length m)).

(** The cells of an array that satisfy [p], row major, each with its
    position: what [np.nonzero] and the dense-to-sparse conversions
    enumerate. *)
Definition cells_where {A} (d : A) (p : A -> bool) (m : matrix A)
  : list (nat * nat * A) :=
  flat_map (fun i =>
     flat_map (fun j => if p (cell d m i j) then [(i, j, cell d m i j)] else [])
              (seq 0 (length (nth i m []))))
    (seq 0 (length m)).

(** A stable sort by insertion: [sort_by leb l] lists [l] in ascending
    order for [leb], equal items in their order in [l]. *)
Fixpoint insert_by {A} (leb : A -> A -> bool) (x : A) (l : list A) : list A :=
  match l with
  | [] => [x]
  | y :: l' => if leb x y then x :: l else y :: insert_by leb x l'
  end.

Fixpoint sort_by {A} (leb : A -> A -> bool) (l : list A) : list A :=
  match l with
  | [] => []
  | x :: l' => insert_by leb x (sort_by leb l')
  end.

(** [l1] is [l2] with some items left out. *)
Inductive subseq {A : Type} : list A -> list A -> Prop :=
| subseq_nil : subseq [] []
| subseq_skip x l1 l2 : subseq l1 l2 -> subseq l1 (x :: l2)
| subseq_take x l1 l2 : subseq l1 l2 -> subseq (x :: l1) (x :: l2).

Definition qsum (l : list Q) : Q := fold_right Qplus 0%Q l.
Definition zsum (l : list Z) : Z := fold_right Z.add 0%Z l.

End Numeric.

(** ** Minimum spanning trees *)

Module SpanningTree.
Import Numeric.

(** *** scipy.sparse.csgraph.minimum_spanning_tree

    The routine is not part of this repository; it is modelled after
    scipy's [_min_spanning_tree.pyx] (Kruskal's algorithm on the CSR form of
    the graph).  A CSR entry is a triple (row, column, data). *)
Definition entry : Type := nat * nat * Q.
Definition row (e : entry) : nat := fst (fst e).
Definition col (e : entry) : nat := snd (fst e).
Definition data (e : entry) : Q := snd e.
Definition ends (e : entry) : nat * nat := fst e.

(** [validate_graph] turns the dense input into CSR form: the non-zero
    cells in row-major order (a zero cell means "no edge"). *)
Definition csr_entries (m : matrix Q) : list entry :=
  cells_where 0%Q qnonzero m.

(** [np.argsort(data)]: the entries by ascending data.  numpy leaves the
    order of equal data to its sorting routine; they are kept in CSR order
    here. *)
Definition argsort (l : list entry) : list entry :=
  sort_by (fun a b => Qle_bool (data a) (data b)) l.

(** The disjoint-set forest ([predecessors], [rank]) is represented by the
    label of the class of every vertex: [find lab v] is the head node of
    [v], [union] links the head of [v] below the head of [u]. *)
Definition labels := list nat.
Definition init_labels (n : nat) : labels := seq 0 n.
Definition find (lab : labels) (v : nat) : nat := nth v lab v.
Definition union (lab : labels) (u v : nat) : labels :=
  map (fun x => if x =? find lab v then find lab u else x) lab.

(** The main loop of [_min_spanning_tree]: step through the sorted entries;
    an entry whose end points are in different subtrees is kept, any other
    one has its data zeroed; the loop stops after [n_verts - 1] kept
    entries and everything left is zeroed.  The result pairs every entry
    with the flag "kept". *)
Fixpoint kruskal (n_verts : nat) (lab : labels) (n_edges_in_mst : nat)
         (sorted : list entry) : list (entry * bool) :=
  match sorted with
  | [] => []
  | e :: rest =>
      if n_edges_in_mst <? n_verts - 1 then
        if find lab (row e) =? find lab (col e)
        then (e, false) :: kruskal n_verts lab n_edges_in_mst rest
        else (e, true) :: kruskal n_verts (union lab (row e) (col e))
                                  (S n_edges_in_mst) rest
      else map (fun e' => (e', false)) sorted
  end.

Definition kept (r : list (entry * bool)) : list entry :=
  map fst (filter snd r).

(** [minimum_spanning_tree(csgraph)] as the kept CSR entries
    ([eliminate_zeros] drops the zeroed ones). *)
Definition minimum_spanning_tree (m : matrix Q) : list entry :=
  kept (kruskal (length m) (init_labels (length m)) 0 (argsort (csr_entries m))).

(** [sp_tree.toarray()] *)
Definition lookup_entry (es : list entry) (i j : nat) : Q :=
  match List.find (fun e => (row e =? i) && (col e =? j)) es with
  | Some e => data e
  | None => 0%Q
  end.

Definition toarray (n : nat) (es : list entry) : matrix Q :=
  tabulate n (lookup_entry es).

(** *** mst (lines 233-248)

    The body of the loop, for one cluster [c]:
    [minimum_spanning_tree(np.triu(mat[c])).toarray().astype(int)] *)
Definition mst_adjacency (m : matrix Q) : matrix Z :=
  map (map astype_int) (toarray (length m) (minimum_spanning_tree (triu m))).

(** A square pandas [DataFrame]: the labels shared by its index and its
    columns, and its values. *)
Record frame (A : Type) : Type :=
  { frame_index : list string; frame_values : matrix A }.
Arguments frame_index {A} f.
Arguments frame_values {A} f.

(** [mat] and the returned [Tree] are dictionaries keyed by cluster, in
    insertion order; every adjacency keeps the labels of its cluster. *)
Definition mst {key : Type} (mat : list (key * frame Q))
  : list (key * frame Z) :=
  map (fun cm => (fst cm,
                  {| frame_index := frame_index (snd cm);
                     frame_values := mst_adjacency (frame_values (snd cm)) |}))
      mat.

(** The edges [nx.from_pandas_adjacency] reads off an integer adjacency:
    its non-zero cells, row major, with the cell as weight. *)
Definition adjacency_edges (a : matrix Z) : list (nat * nat * Z) :=
  cells_where 0%Z (fun x => negb (x =? 0)%Z) a.

(** *** Spanning trees of the graph a distance sub-matrix describes *)

(** The edges of the graph: the positions of the non-zero cells of the
    upper triangle. *)
Definition graph_edges (m : matrix Q) : list (nat * nat) :=
  map ends (csr_entries (triu m)).

(** [joined E u v]: [u] and [v] are linked by a chain of edges of [E],
    taken in either direction. *)
Inductive joined (E : list (nat * nat)) : nat -> nat -> Prop :=
| joined_refl u : joined E u u
| joined_edge u v : In (u, v) E -> joined E u v
| joined_sym u v : joined E u v -> joined E v u
| joined_trans u v w : joined E u v -> joined E v w -> joined E u w.

Definition connected (n : nat) (E : list (nat * nat)) : Prop :=
  forall u v, u < n -> v < n -> joined E u v.

(** A spanning tree of the graph on [n] vertices: [n - 1] distinct edges of
    the graph that link all the vertices. *)
Definition spanning_tree (n : nat) (m : matrix Q) (T : list (nat * nat)) : Prop :=
  NoDup T /\ incl T (graph_edges m) /\ length T = n - 1 /\ connected n T.

(** [T] with every copy of the edge [p] left out. *)
Definition without (p : nat * nat) (T : list (nat * nat)) : list (nat * nat) :=
  filter (fun q => negb ((fst q =? fst p) && (snd q =? snd p))) T.

(** No edge closes a cycle: the ends of an edge of [T] are not linked by
    the other edges of [T]. *)
Definition bridges (T : list (nat * nat)) : Prop :=
  forall p, In p T -> ~ joined (without p T) (fst p) (snd p).

(** A forest: no edge listed twice, none closing a cycle. *)
Definition acyclic (T : list (nat * nat)) : Prop := NoDup T /\ bridges T.

Definition tree_weight (m : matrix Q) (T : list (nat * nat)) : Q :=
  qsum (map (fun p => qcell m (fst p) (snd p)) T).

(** Connectivity decided by merging the classes along the edges. *)
Fixpoint run (lab : labels) (ps : list (nat * nat)) : labels :=
  match ps with
  | [] => lab
  | p :: r =>
      run (if find lab (fst p) =? find lab (snd p) then lab
           else union lab (fst p) (snd p)) r
  end.

Definition classes (lab : labels) : nat := length (nodup Nat.eq_dec lab).

Definition connectedb (n : nat) (E : list (nat * nat)) : bool :=
  forallb (fun p => (fst p <? n) && (snd p <? n)) E &&
  (classes (run (init_labels n) E) <=? 1).

(** *** Notions used to reason about the loop *)

Definition valid (n : nat) (p : nat * nat) : Prop := fst p < n /\ snd p < n.

(** One step of the merging loop. *)
Definition step (lab : labels) (p : nat * nat) : labels :=
  if find lab (fst p) =? find lab (snd p) then lab
  else union lab (fst p) (snd p).

(** The flag "kept" of every edge, in the order the edges are processed. *)
Fixpoint flags (lab : labels) (ps : list (nat * nat)) : list bool :=
  match ps with
  | [] => []
  | p :: r => negb (find lab (fst p) =? find lab (snd p)) :: flags (step lab p) r
  end.

Definition count_true (bs : list bool) : nat := length (filter (fun b => b) bs).

(** [lab] identifies no more than the labelling [pi] does. *)
Definition refines (n : nat) (lab : labels) (pi : nat -> nat) : Prop :=
  forall u v, u < n -> v < n -> find lab u = find lab v -> pi u = pi v.

Definition sorted_by_data : list entry -> Prop :=
  StronglySorted (fun a b => (data a <= data b)%Q).

(** [p] is one of the positions in [T]. *)
Definition mem_pair (T : list (nat * nat)) (p : nat * nat) : bool :=
  existsb (fun q => (fst q =? fst p) && (snd q =? snd p)) T.

Definition qn (d : nat) : Q := inject_Z (Z.of_nat d).

Definition count_t (t : entry -> bool) (l : list entry) : nat :=
  length (filter t l).

(** Vertices with one label are linked by a chain of edges of [E]. *)
Definition linked (n : nat) (lab : labels) (E : list (nat * nat)) : Prop :=
  forall u v, u < n -> v < n -> find lab u = find lab v -> joined E u v.

(** Vertices have one label exactly when a chain of edges of [E] links
    them. *)
Definition labels_joined (n : nat) (lab : labels) (E : list (nat * nat)) : Prop :=
  forall u v, u < n -> v < n -> (find lab u = find lab v <-> joined E u v).

(** The positions kept by the merging process. *)
Definition kept_pos (lab : labels) (ps : list (nat * nat)) : list (nat * nat) :=
  map fst (filter snd (combine ps (flags lab ps))).

(** Two clusters used as running examples: three entities at integer
    distances, and two entities at distance 1/2 (weighted mode, two layers,
    distances 1 and 0). *)
Definition m3 : matrix Q := [[0; 2; 3]; [2; 0; 1]; [3; 1; 0]]%Q.
Definition mhalf : matrix Q := [[0; 1#2]; [1#2; 0]]%Q.
(** Four entities in two pairs; the pairs are at distance 0 from each
    other, which the sparse graph reads as "no edge". *)
Definition m_pairs : matrix Q :=
  [[0; 1; 0; 0]; [1; 0; 0; 0]; [0; 0; 0; 2]; [0; 0; 2; 0]]%Q.
(** [m3] with its lower triangle replaced by other values. *)
Definition m3_lower : matrix Q := [[0; 2; 3]; [7; 0; 1]; [8; 9; 0]]%Q.
Definition labels3 : list string := ["a"; "b"; "c"]%string.
Definition labels2 : list string := ["a"; "b"]%string.

End SpanningTree.


(** ** Errors *)

Module Errors.

(** The exceptions the module can raise. *)
Inductive exception : Type :=
| ValueError | IndexError | TypeError | KeyError | UnboundLocalError.

Inductive result (A : Type) : Type :=
| Ok (a : A)
| Raise (e : exception).
Arguments Ok {A} a.
Arguments Raise {A} e.

Definition bind {A B} (r : result A) (k : A -> result B) : result B :=
  match r with
  | Ok a => k a
  | Raise e => Raise e
  end.

Definition raised {A} (r : result A) : bool :=
  match r with Ok _ => false | Raise _ => true end.

(** The value of a call that returned, [default] for one that raised. *)
Definition returned {A} (default : A) (r : result A) : A :=
  match r with Ok a => a | Raise _ => default end.

End Errors.

(** ** Combination of the per-layer distance matrices (lines 110-125)

    Here the cells are the values of the arrays as exact rationals, the
    form in which they are handed on to [mst] and to the edge list.  The
    binary64 operations of these lines, with the rounding of [1/n_], of
    every product and of every sum, are in [Float64] below; what is proved
    over [Distance] (which call raises, the shape, the symmetry and the zero
    diagonal of the result, integer cells in simple mode) does not depend
    on that rounding. *)

Module Distance.
Import Numeric Errors.

(** Elementwise operations on arrays of one shape. *)
Definition madd (a b : matrix Q) : matrix Q :=
  map (fun rs => map (fun xy => (fst xy + snd xy)%Q) (combine (fst rs) (snd rs)))
      (combine a b).

Definition mscale (w : Q) (a : matrix Q) : matrix Q :=
  map (map (fun x => (w * x)%Q)) a.

(** [np.sum(dist_mat_list, axis=0)]: the layers added up, first to last. *)
Definition np_sum_axis0 (l : list (matrix Q)) : matrix Q :=
  match l with
  | [] => []
  | m :: r => fold_left madd r m
  end.

(** The builtin [sum(weighted_matrix)]: starts from the integer 0, which
    numpy adds to every cell of the first array. *)
Definition py_sum (l : list (matrix Q)) : matrix Q :=
  match l with
  | [] => []
  | m :: r => fold_left madd r (map (map (fun x => (0 + x)%Q)) m)
  end.

(** Lines 110-125.  [weights] is [None] or a tuple; a mode that is neither
    'simple' nor 'weighted' leaves [total_dist] unbound. *)
Definition total_dist (distance_mode : string) (weights : option (list Q))
           (dist_mat_list : list (matrix Q)) : result (matrix Q) :=
  let n_ := length dist_mat_list in
  if String.eqb distance_mode "simple" then
    Ok (np_sum_axis0 dist_mat_list)
  else if String.eqb distance_mode "weighted" then
    match weights with
    | None =>
        Ok (py_sum (map (fun m => mscale (1 / inject_Z (Z.of_nat n_))%Q m)
                        dist_mat_list))
    | Some ws =>
        if length ws =? n_
        then Ok (py_sum (map (fun wm => mscale (fst wm) (snd wm))
                             (combine ws dist_mat_list)))
        else Raise IndexError
    end
  else Raise UnboundLocalError.

(** Two layers over two entities (heavy chain at distance 5, light chains at
    distance 2), used as a running example. *)
Definition layers2 : list (matrix Q) :=
  [ [[0; 5]; [5; 0]]; [[0; 2]; [2; 0]] ]%Q.

End Distance.

(** ** Python dictionaries and networkx graphs *)

Module Dict.

(** A [dict] keyed by strings: the association list of its items in
    insertion order, every key once. *)
Definition dict (V : Type) : Type := list (string * V).

Fixpoint get {V} (k : string) (d : dict V) : option V :=
  match d with
  | [] => None
  | (k', v) :: r => if String.eqb k' k then Some v else get k r
  end.

Definition mem {V} (k : string) (d : dict V) : bool :=
  match get k d with Some _ => true | None => false end.

(** [d[k] = v]: the value is replaced in place, a new key goes last. *)
Fixpoint set {V} (k : string) (v : V) (d : dict V) : dict V :=
  match d with
  | [] => [(k, v)]
  | (k', v') :: r => if String.eqb k' k then (k, v) :: r else (k', v') :: set k v r
  end.

(** [del d[k]] *)
Definition del {V} (k : string) (d : dict V) : dict V :=
  filter (fun kv => negb (String.eqb (fst kv) k)) d.

(** [f] applied in place to the value of an existing key. *)
Definition alter {V} (f : V -> V) (k : string) (d : dict V) : dict V :=
  map (fun kv => if String.eqb (fst kv) k then (fst kv, f (snd kv)) else kv) d.

Definition keys {V} (d : dict V) : list string := map fst d.

Definition get_default {V} (k : string) (d : dict V) (v : V) : V :=
  match get k d with Some x => x | None => v end.

End Dict.

Module Nx.
Import Dict.

(** [nx.Graph] with a weight on every edge: the adjacency [_adj], a dict
    from node to the dict of its neighbours; [_node] has the same keys in
    the same order. *)
Definition Graph : Type := dict (dict Q).

Definition empty_graph : Graph := [].

Definition nodes (G : Graph) : list string := keys G.
Definition neighbors (G : Graph) (n : string) : dict Q := get_default n G [].

Definition add_node (n : string) (G : Graph) : Graph :=
  if mem n G then G else G ++ [(n, [])].

Definition add_nodes_from (ns : list string) (G : Graph) : Graph :=
  fold_left (fun g n => add_node n g) ns G.

(** [G.add_edge(u, v, weight=w)] *)
Definition add_edge (u v : string) (w : Q) (G : Graph) : Graph :=
  let G1 := add_node v (add_node u G) in
  let G2 := set u (set v w (neighbors G1 u)) G1 in
  set v (set u w (neighbors G2 v)) G2.

Definition add_weighted_edges_from (es : list (string * string * Q)) (G : Graph)
  : Graph :=
  fold_left (fun g e => add_edge (fst (fst e)) (snd (fst e)) (snd e) g) es G.

(** [G.degree(n)]: the number of neighbours, a self-loop counting twice. *)
Definition degree (G : Graph) (n : string) : nat :=
  let nbrs := neighbors G n in
  length nbrs + (if mem n nbrs then 1 else 0).

(** [G.degree(n, weight='weight')] *)
Definition weighted_degree (G : Graph) (n : string) : Q :=
  let nbrs := neighbors G n in
  (Numeric.qsum (map snd nbrs) + get_default n nbrs 0)%Q.

(** [nx.isolates(G)] *)
Definition isolates (G : Graph) : list string :=
  filter (fun n => degree G n =? 0) (nodes G).

(** [G.remove_node(n)]: [n] is deleted from the dict of each of its
    neighbours, then [adj[n]] itself goes; a node that is not in the graph
    is skipped, as [remove_nodes_from] does. *)
Definition remove_node (n : string) (G : Graph) : Graph :=
  match get n G with
  | None => G
  | Some nbrs => del n (fold_left (fun g u => alter (del n) u g) (keys nbrs) G)
  end.

Definition remove_nodes_from (ns : list string) (G : Graph) : Graph :=
  fold_left (fun g n => remove_node n g) ns G.

(** [G.edges(data='weight')]: every edge once, from its end point that
    comes first in node order. *)
Fixpoint edges_from (seen : list string) (G : Graph)
  : list (string * string * Q) :=
  match G with
  | [] => []
  | (n, nbrs) :: r =>
      map (fun vw => (n, fst vw, snd vw))
          (filter (fun vw => negb (existsb (String.eqb (fst vw)) seen)) nbrs)
      ++ edges_from (n :: seen) r
  end.

Definition edges (G : Graph) : list (string * string * Q) := edges_from [] G.

(** [nx.get_edge_attributes(G, 'weight').items()] *)
Definition get_edge_attributes (G : Graph) : list ((string * string) * Q) :=
  edges G.

(** A graph without any edge. *)
Definition no_edges (G : Graph) : Prop := Forall (fun kv => snd kv = []) G.

End Nx.

(** ** The Fruchterman-Reingold routines (lines 285-604)

    Positions and adjacency arrays are float64 arrays: their cells are
    Rocq's primitive binary64 floats.  A sum over an axis is taken first to
    last. *)

Module Layout.
Import Numeric Errors Dict Nx.

Local Open Scope float_scope.

Definition farray := matrix float.

Definition of_nat (n : nat) : float := PrimFloat.of_uint63 (Uint63.of_Z (Z.of_nat n)).

Definition fcell (m : farray) (i j : nat) : float := cell 0 m i j.

(** [m.shape] of a two-dimensional array. *)
Definition shape (m : farray) : nat * nat := (length m, length (hd [] m)).

Definition fsum (l : list float) : float := fold_left PrimFloat.add l 0.

(** [np.linalg.norm(v)] and [np.sqrt((v ** 2).sum())] *)
Definition norm (v : list float) : float := PrimFloat.sqrt (fsum (map (fun x => x * x) v)).

Definition column (m : farray) (c : nat) : list float := map (fun r => nth c r 0) m.

(** [m.T] *)
Definition transpose (m : farray) : farray :=
  map (column m) (seq 0 (snd (shape m))).

(** The builtins [max] and [min] on a non-empty sequence. *)
Definition py_max (l : list float) : result float :=
  match l with
  | [] => Raise ValueError
  | x :: r => Ok (fold_left (fun acc y => if acc <? y then y else acc) r x)
  end.

Definition py_min (l : list float) : result float :=
  match l with
  | [] => Raise ValueError
  | x :: r => Ok (fold_left (fun acc y => if y <? acc then y else acc) r x)
  end.

(** numpy broadcasting of a binary operation on two-dimensional arrays:
    along each axis the sizes agree or one of them is 1; any other pair of
    shapes raises [ValueError]. *)
Definition compatible (a b : nat) : bool := (a =? b)%nat || (a =? 1)%nat || (b =? 1)%nat.

Definition broadcast_shape (x y : farray) : option (nat * nat) :=
  let (r1, c1) := shape x in
  let (r2, c2) := shape y in
  if compatible r1 r2 && compatible c1 c2
  then Some (Nat.max r1 r2, Nat.max c1 c2) else None.

Definition stretch (size i : nat) : nat := if (size =? 1)%nat then 0%nat else i.

Definition broadcast (f : float -> float -> float) (x y : farray) : result farray :=
  match broadcast_shape x y with
  | None => Raise ValueError
  | Some (r, c) =>
      Ok (map (fun i => map (fun j =>
             f (fcell x (stretch (fst (shape x)) i) (stretch (snd (shape x)) j))
               (fcell y (stretch (fst (shape y)) i) (stretch (snd (shape y)) j)))
           (seq 0 c)) (seq 0 r))
  end.

(** [x += y]: the broadcast result must have the shape of [x]. *)
Definition iadd (x y : farray) : result farray :=
  match broadcast_shape x y with
  | None => Raise ValueError
  | Some s =>
      if ((fst s =? fst (shape x)) && (snd s =? snd (shape x)))%nat
      then broadcast PrimFloat.add x y else Raise ValueError
  end.

(** *** The random source

    [numpy.random.RandomState] is not modelled bit for bit: the generator is
    a parameter, a state type with the draw [rand(n, dim)] and the
    construction from an integer seed. *)
Section Generator.

Variable RandomState : Type.
Variable rand : RandomState -> nat -> nat -> farray * RandomState.
Variable seeded : Z -> RandomState.

(** Computations that read and advance numpy's global generator
    ([np.random.mtrand._rand]) and may raise. *)
Definition M (A : Type) : Type := RandomState -> result A * RandomState.

Definition ret {A} (a : A) : M A := fun g => (Ok a, g).
Definition raise {A} (e : exception) : M A := fun g => (Raise e, g).
Definition lift {A} (r : result A) : M A := fun g => (r, g).
Definition mbind {A B} (m : M A) (k : A -> M B) : M B :=
  fun g => match m g with
           | (Ok a, g') => k a g'
           | (Raise e, g') => (Raise e, g')
           end.

(** The [seed] argument of the routines: [None] or an integer (passing a
    [RandomState] instance is not modelled). *)
Inductive seed_arg : Type :=
| SeedNone
| SeedInt (s : Z).

(** The generator a call draws from. *)
Inductive generator : Type :=
| GlobalState
| Private (r : RandomState).

(** The decorator [@random_state(7)] replaces the argument at index 7
    ([seed]) by [create_random_state(seed)]: [None] becomes the global
    generator, an integer a fresh generator seeded with it. *)
Definition create_random_state (seed : seed_arg) : generator :=
  match seed with
  | SeedNone => GlobalState
  | SeedInt s => Private (seeded s)
  end.

(** [seed.rand(nnodes, dim)] *)
Definition draw (gen : generator) (nnodes dim : nat) : M farray :=
  fun g => match gen with
           | GlobalState => let (x, g') := rand g nnodes dim in (Ok x, g')
           | Private r => (Ok (fst (rand r nnodes dim)), g)
           end.

(** Lines 450-467, shared by both routines: initial positions, optimal
    distance, initial temperature. *)
Definition initial_pos (nnodes dim : nat) (pos : option farray) (gen : generator)
  : M farray :=
  match pos with
  | None => draw gen nnodes dim
  | Some p => ret p
  end.

Definition optimal_distance (k : option float) (nnodes : nat) : float :=
  match k with
  | Some k => k
  | None => PrimFloat.sqrt (1 / of_nat nnodes)
  end.

Definition extent (pos : farray) (c : nat) : result float :=
  if (c <? snd (shape pos))%nat then
    bind (py_max (column pos c)) (fun hi =>
    bind (py_min (column pos c)) (fun lo => Ok (hi - lo)))
  else Raise IndexError.

Definition temperature (pos : farray) : result float :=
  bind (extent pos 0) (fun e0 =>
  bind (extent pos 1) (fun e1 =>
  Ok ((if e0 <? e1 then e1 else e0) * 0.1))).

(** *** _fruchterman_reingold (lines 436-495), one iteration *)

(** [k * k / distance ** 2 - A * distance / k] for one pair of nodes. *)
Definition force (k a distance : float) : float :=
  k * k / (distance * distance) - a * distance / k.

Definition vsub (u v : list float) : list float :=
  map (fun xy => fst xy - snd xy) (combine u v).

Definition dense_displacement (A : farray) (k : float) (nnodes : nat) (pos : farray)
  : farray :=
  map (fun i =>
    let pi := nth i pos [] in
    map (fun c =>
      fsum (map (fun j =>
              let delta := vsub pi (nth j pos []) in
              let distance := norm delta in
              let distance := if distance <? 0.001 then 0.001 else distance in
              nth c delta 0 * force k (fcell A i j) distance)
            (seq 0 (length pos)))
      - nth c pi 0 / (k * PrimFloat.sqrt (of_nat nnodes)))
      (seq 0 (length pi)))
    (seq 0 (length pos)).

Definition dense_delta_pos (A : farray) (k : float) (nnodes : nat)
           (fixed : option (list nat)) (pos : farray) (t : float) : farray :=
  let displacement := dense_displacement A k nnodes pos in
  map (fun ir =>
         let length := norm (snd ir) in
         let length := if length <? 0.01 then 0.1 else length in
         let is_fixed := match fixed with
                         | Some f => existsb (Nat.eqb (fst ir)) f
                         | None => false
                         end in
         map (fun x => if is_fixed then 0 else x * (t / length)) (snd ir))
      (combine (seq 0 (List.length displacement)) displacement).

Definition add_pos (pos delta_pos : farray) : farray :=
  map (fun rs => map (fun xy => fst xy + snd xy) (combine (fst rs) (snd rs)))
      (combine pos delta_pos).

(** The loop of lines 472-494.  The product [A * distance] needs the
    positions to be as many as the rows of [A]: numpy raises [ValueError]
    on other shapes (a single row is not stretched here). *)
Fixpoint dense_loop (iterations : nat) (A : farray) (k : float) (nnodes : nat)
         (fixed : option (list nat)) (threshold dt : float)
         (pos : farray) (t : float) : result farray :=
  match iterations with
  | O => Ok pos
  | S rest =>
      if negb (length pos =? nnodes)%nat then Raise ValueError else
      let delta_pos := dense_delta_pos A k nnodes fixed pos t in
      let pos := add_pos pos delta_pos in
      let t := t - dt in
      let err := norm (concat delta_pos) / of_nat nnodes in
      if err <? threshold then Ok pos
      else dense_loop rest A k nnodes fixed threshold dt pos t
  end.

Definition _fruchterman_reingold (A : farray) (k : option float)
           (pos : option farray) (fixed : option (list nat))
           (iterations : nat) (threshold : float) (dim : nat) (seed : seed_arg)
  : M farray :=
  let nnodes := fst (shape A) in
  mbind (initial_pos nnodes dim pos (create_random_state seed)) (fun pos =>
  let k := optimal_distance k nnodes in
  mbind (lift (temperature pos)) (fun t =>
  let dt := t / of_nat (iterations + 1) in
  lift (dense_loop iterations A k nnodes fixed threshold dt pos t))).

(** *** _sparse_fruchterman_reingold (lines 497-573), one iteration *)

(** The column [i] of [displacement], an array of shape (dim, nnodes):
    [(delta * (k * k / distance ** 2 - Ai * distance / k)).sum(axis=1)]
    with [delta = (pos[i] - pos).T]. *)
Definition sparse_column (A : farray) (k : float) (dim : nat) (pos : farray) (i : nat)
  : list float :=
  let pi := nth i pos [] in
  map (fun c =>
    fsum (map (fun j =>
            let delta := vsub pi (nth j pos []) in
            let distance := norm delta in
            let distance := if distance <? 0.01 then 0.01 else distance in
            nth c delta 0 * force k (fcell A i j) distance)
          (seq 0 (length pos))))
    (seq 0 dim).

Definition sparse_displacement (A : farray) (k : float) (dim nnodes : nat)
           (fixed : list nat) (pos : farray) : farray :=
  map (fun c =>
    map (fun i => if existsb (Nat.eqb i) fixed then 0
                  else nth c (sparse_column A k dim pos i) 0)
        (seq 0 nnodes))
    (seq 0 dim).

Definition sparse_delta_pos (A : farray) (k : float) (dim nnodes : nat)
           (fixed : list nat) (pos : farray) (t : float) : result farray :=
  let displacement := sparse_displacement A k dim nnodes fixed pos in
  let centering :=
    map (map (fun x => x / (k * PrimFloat.sqrt (of_nat nnodes)))) pos in
  (* displacement = displacement - pos / (k * np.sqrt(nnodes)) *)
  bind (broadcast PrimFloat.sub displacement centering) (fun displacement =>
  let lengths :=
    map (fun c => let length := norm (column displacement c) in
                  if length <? 0.01 then 0.1 else length)
        (seq 0 (snd (shape displacement))) in
  Ok (transpose
        (map (fun r => map (fun xl => fst xl * t / snd xl) (combine r lengths))
             displacement))).

(** The loop of lines 544-572; [Ai * distance] needs the positions to be
    as many as the columns of [A], as in the dense routine. *)
Fixpoint sparse_loop (iterations : nat) (A : farray) (k : float) (dim nnodes : nat)
         (fixed : list nat) (threshold dt : float)
         (pos : farray) (t : float) : result farray :=
  match iterations with
  | O => Ok pos
  | S rest =>
      if negb (length pos =? nnodes)%nat then Raise ValueError else
      bind (sparse_delta_pos A k dim nnodes fixed pos t) (fun delta_pos =>
      bind (iadd pos delta_pos) (fun pos =>
      let t := t - dt in
      let err := norm (concat delta_pos) / of_nat nnodes in
      if err <? threshold then Ok pos
      else sparse_loop rest A k dim nnodes fixed threshold dt pos t))
  end.

Definition _sparse_fruchterman_reingold (A : farray) (k : option float)
           (pos : option farray) (fixed : option (list nat))
           (iterations : nat) (threshold : float) (dim : nat) (seed : seed_arg)
  : M farray :=
  let nnodes := fst (shape A) in
  mbind (initial_pos nnodes dim pos (create_random_state seed)) (fun pos =>
  let fixed := match fixed with Some f => f | None => [] end in
  let k := optimal_distance k nnodes in
  mbind (lift (temperature pos)) (fun t =>
  let dt := t / of_nat (iterations + 1) in
  lift (sparse_loop iterations A k dim nnodes fixed threshold dt pos t))).

(** *** _rescale_layout (lines 575-604) *)

Definition fabs_max (l : list float) : float :=
  fold_left (fun acc y => if acc <? abs y then abs y else acc) (tl l) (abs (hd 0 l)).

Definition center_column (c : list float) : list float :=
  let mean := fsum c / of_nat (length c) in
  map (fun x => x - mean) c.

Definition _rescale_layout (pos : farray) (scale : float) : farray :=
  let cols := map center_column (transpose pos) in
  let lim := fold_left (fun lim c => let m := fabs_max c in
                                     if m <? lim then lim else m) cols 0 in
  let cols := if 0 <? lim then map (map (fun x => x * (scale / lim))) cols
              else cols in
  map (fun i => map (fun c => nth i c 0) cols) (seq 0 (length pos)).

(** *** _fruchterman_reingold_layout (lines 304-434)

    As [generate_layout] calls it: [k], [pos], [fixed] and [center] keep
    their default [None] and [dim] is 2. *)

(** [nx.to_numpy_array(G, weight=None)]: 1 for every edge. *)
Definition to_numpy_array (G : Graph) : farray :=
  map (fun u => map (fun v => if mem v (neighbors G u) then 1 else 0) (nodes G))
      (nodes G).

Definition _fruchterman_reingold_layout (G : Graph) (iterations : nat)
           (threshold : float) (scale : option float) (seed : seed_arg)
  : M (dict (list float)) :=
  let dim := 2%nat in
  let center := [0; 0] in
  match nodes G with
  | [] => ret []
  | [n] => ret [(n, center)]
  | _ =>
      let A := to_numpy_array G in
      let sparse : M farray :=
        if (length G <? 500)%nat then raise ValueError
        else _sparse_fruchterman_reingold A None None None iterations
                                          threshold dim seed in
      let dense : M farray :=
        _fruchterman_reingold A None None None iterations threshold dim seed in
      mbind (fun g => match sparse g with
                      | (Raise ValueError, g') => dense g'
                      | r => r
                      end)
            (fun pos =>
               let pos := match scale with
                          | Some s => map (map (fun x => x + 0)) (_rescale_layout pos s)
                          | None => pos
                          end in
               ret (combine (nodes G) pos))
  end.

End Generator.

Arguments ret {RandomState A} a.
Arguments raise {RandomState A} e.
Arguments lift {RandomState A} r.
Arguments mbind {RandomState A B} m k.
Arguments draw {RandomState} rand gen nnodes dim.
Arguments create_random_state {RandomState} seeded seed.
Arguments initial_pos {RandomState} rand nnodes dim pos gen.
Arguments _fruchterman_reingold {RandomState} rand seeded A k pos fixed
  iterations threshold dim seed.
Arguments _sparse_fruchterman_reingold {RandomState} rand seeded A k pos fixed
  iterations threshold dim seed.
Arguments _fruchterman_reingold_layout {RandomState} rand seeded G iterations
  threshold scale seed.

(** A small linear congruential generator, used to run the routines on
    examples: the state is the last 31-bit value, a draw fills the array
    row by row with [state / 2^31]. *)
Definition lcg_next (s : Z) : Z := ((1103515245 * s + 12345) mod 2147483648)%Z.

Fixpoint lcg_row (s : Z) (dim : nat) : list float * Z :=
  match dim with
  | O => ([], s)
  | S d => let s1 := lcg_next s in
           let (r, s2) := lcg_row s1 d in
           (PrimFloat.of_uint63 (Uint63.of_Z s1) / 2147483648 :: r, s2)
  end.

Fixpoint lcg_rand (s : Z) (n dim : nat) : farray * Z :=
  match n with
  | O => ([], s)
  | S k => let (r, s1) := lcg_row s dim in
           let (m, s2) := lcg_rand s1 k dim in
           (r :: m, s2)
  end.

(** Running examples: three nodes with one edge, and two linked nodes at
    distance 1, with their initial positions. *)
Definition example_adjacency3 : farray := [[0; 1; 0]; [1; 0; 0]; [0; 0; 0]].
Definition example_positions3 : farray := [[0; 0]; [1; 0]; [0; 1]].
Definition example_adjacency2 : farray := [[0; 1]; [1; 0]].
Definition example_positions2 : farray := [[0; 0]; [1; 0]].

End Layout.

(** ** generate_network, clone_degree, generate_layout *)

Module Network.
Import Numeric Errors Dict Nx SpanningTree Distance Layout.

(** *** Edge tables *)

(** A pandas [DataFrame] holding an edge list: its column labels and one
    (source, target, weight) triple per row. *)
Record DataFrame : Type :=
  { columns : list string; rows : list (string * string * Q) }.

Definition source (r : string * string * Q) : string := fst (fst r).
Definition target (r : string * string * Q) : string := snd (fst r).
Definition weight (r : string * string * Q) : Q := snd r.

(** [nx.to_pandas_edgelist(G)]: the weight column exists as soon as one
    edge carries the attribute. *)
Definition to_pandas_edgelist (es : list (string * string * Q)) : DataFrame :=
  {| columns := match es with
                | [] => ["source"; "target"]
                | _ => ["source"; "target"; "weight"]
                end%string;
     rows := es |}.

(** *** Clusters (lines 133-149, 160-166) *)

(** Position of a label in [out.metadata.index]. *)
Fixpoint index_of (x : string) (index : list string) : nat :=
  match index with
  | [] => 0
  | y :: r => if String.eqb y x then 0 else S (index_of x r)
  end.

(** [tmp_totaldist.loc[s, t]] *)
Definition loc (total_dist : matrix Q) (index : list string) (s t : string) : Q :=
  qcell total_dist (index_of s index) (index_of t index).

(** [tmp_totaldist.loc[ms, ms]] *)
Definition loc_sub (total_dist : matrix Q) (index : list string)
           (ms : list string) : matrix Q :=
  map (fun s => map (fun t => loc total_dist index s t) ms) ms.

(** [tree[cx][i].value = 1] on the auto-vivifying [Tree]: the cluster and
    the member are created on first access. *)
Definition add_member (cx i : string) (d : dict (list string)) : dict (list string) :=
  let ms := get_default cx d [] in
  set cx (if existsb (String.eqb i) ms then ms else ms ++ [i]) d.

(** The dictionary cluster -> list of its members ([tmp_clusterdist2],
    [tmp_clone_tree2]). *)
Definition group_members (key : string -> string) (index : list string)
  : dict (list string) :=
  fold_left (fun d i => add_member (key i) i d) index [].

(** Lines 144-149: the sub-matrix of every cluster of more than one
    member, labelled by the members. *)
Definition cluster_dist (total_dist : matrix Q) (index : list string)
           (groups : dict (list string)) : dict (frame Q) :=
  flat_map (fun xm =>
              let dist_mat_ := loc_sub total_dist index (snd xm) in
              let (s1, s2) := (length dist_mat_, length (snd xm)) in
              if (1 <? s1) && (1 <? s2)
              then [(fst xm, {| frame_index := snd xm; frame_values := dist_mat_ |})]
              else [])
           groups.

(** *** Edge lists (lines 154-180) *)

(** [nx.to_pandas_edgelist(nx.from_pandas_adjacency(df))]: one row per
    non-zero cell, named by the labels of the frame. *)
Definition labelled_edges (df : frame Z) : list (string * string * Q) :=
  map (fun e => (nth (fst (fst e)) (frame_index df) ""%string,
                 nth (snd (fst e)) (frame_index df) ""%string,
                 inject_Z (snd e)))
      (adjacency_edges (frame_values df)).

Definition edge_lists (adjacencies : dict (frame Z)) : dict DataFrame :=
  map (fun ca => (fst ca, to_pandas_edgelist (labelled_edges (snd ca))))
      adjacencies.

(** Lines 170-172, on a frame of [n] labels holding only NaN ([None]):
    [np.tril(tmp_) + 1], then [fillna(0)]. *)
Definition nan_frame (n : nat) : matrix (option Z) := tabulate n (fun _ _ => None).

Definition np_tril (m : matrix (option Z)) : matrix (option Z) :=
  map (fun i =>
         map (fun j => if j <=? i then cell None m i j else Some 0%Z)
             (seq 0 (length (nth i m []))))
      (seq 0 (length m)).

Definition plus_one (m : matrix (option Z)) : matrix (option Z) :=
  map (map (option_map (fun z => (z + 1)%Z))) m.

Definition fillna_0 (m : matrix (option Z)) : matrix Z :=
  map (map (fun x => match x with Some z => z | None => 0%Z end)) m.

Definition tmp_clone_tree3 (clones : dict (list string)) : dict (frame Z) :=
  map (fun xm =>
         (fst xm,
          {| frame_index := snd xm;
             frame_values :=
               fillna_0 (plus_one (np_tril (nan_frame (length (snd xm))))) |}))
      clones.

(** *** Merge (lines 182-197) *)

(** [pd.concat(frames)]: no frame at all raises [ValueError]. *)
Definition union_columns (a b : list string) : list string :=
  a ++ filter (fun c => negb (existsb (String.eqb c) a)) b.

Definition pd_concat (frames : list DataFrame) : result DataFrame :=
  match frames with
  | [] => Raise ValueError
  | _ => Ok {| columns := fold_left union_columns (map columns frames) [];
               rows := concat (map rows frames) |}
  end.

Definition key_eqb (p q : string * string) : bool :=
  String.eqb (fst p) (fst q) && String.eqb (snd p) (snd q).

Definition key_leb (p q : string * string) : bool :=
  match String.compare (fst p) (fst q) with
  | Lt => true
  | Gt => false
  | Eq => String.leb (snd p) (snd q)
  end.

Definition has_key (k : string * string) (l : list (string * string)) : bool :=
  existsb (key_eqb k) l.

Fixpoint unique_keys (l : list (string * string)) : list (string * string) :=
  match l with
  | [] => []
  | k :: r => if has_key k r then unique_keys r else k :: unique_keys r
  end.

Fixpoint keys_eqb (a b : list (string * string)) : bool :=
  match a, b with
  | [], [] => true
  | p :: a', q :: b' => key_eqb p q && keys_eqb a' b'
  | _, _ => false
  end.

(** [a.index.union(b.index)]: the distinct keys of both, sorted unless one
    side is empty or both sides are equal. *)
Definition index_union (a b : list (string * string)) : list (string * string) :=
  match a, b with
  | [], _ => unique_keys b
  | _, [] => unique_keys a
  | _, _ => if keys_eqb a b then unique_keys a
            else sort_by key_leb (unique_keys (a ++ b))
  end.

Definition row_at (k : string * string) (rs : list (string * string * Q))
  : option (string * string * Q) :=
  List.find (fun r => key_eqb (fst r) k) rs.

(** [a.combine_first(b)]: one row per key of the union, taken from [a]
    when [a] has the key. *)
Definition combine_first (a b : DataFrame) : DataFrame :=
  {| columns := union_columns (columns a) (columns b);
     rows := flat_map (fun k => match row_at k (rows a) with
                                | Some r => [r]
                                | None => match row_at k (rows b) with
                                          | Some r => [r]
                                          | None => []
                                          end
                                end)
                      (index_union (map fst (rows a)) (map fst (rows b))) |}.

(** Lines 192-193: every weight is read from the total distance matrix;
    the assignment creates the column when no row carried it. *)
Definition set_weights (total_dist : matrix Q) (index : list string)
           (df : DataFrame) : DataFrame :=
  {| columns := match rows df with
                | [] => columns df
                | _ => union_columns (columns df) ["weight"%string]
                end;
     rows := map (fun r => (source r, target r,
                            loc total_dist index (source r) (target r)))
                 (rows df) |}.

Definition empty_edge_list : DataFrame :=
  {| columns := ["source"; "target"; "weight"]%string; rows := [] |}.

(** The [try] block and its [except] clause, which catches everything. *)
Definition edge_list_final (total_dist : matrix Q) (index : list string)
           (edge_list tmp_edge_list : dict DataFrame) : DataFrame :=
  match
    bind (pd_concat (map snd edge_list)) (fun edge_listx =>
    bind (pd_concat (map snd tmp_edge_list)) (fun tmp_edge_listx =>
    Ok (set_weights total_dist index (combine_first edge_listx tmp_edge_listx))))
  with
  | Ok df => df
  | Raise _ => empty_edge_list
  end.

(** Lines 133-197 put together.  [cluster_key] is the column the clusters
    are read from ([clone_key], or [clone_key + '_group'] when
    [constructbygroup] is set), [clone_key] the clone column. *)
Definition network_edges (total_dist : matrix Q) (index : list string)
           (cluster_key clone_key : string -> string) : DataFrame :=
  let tmp_clusterdist2 := group_members cluster_key index in
  let mst_tree := mst (cluster_dist total_dist index tmp_clusterdist2) in
  let edge_list := edge_lists mst_tree in
  let tmp_clone_tree2 := group_members clone_key index in
  let tmp_edge_list := edge_lists (tmp_clone_tree3 tmp_clone_tree2) in
  edge_list_final total_dist index edge_list tmp_edge_list.

(** *** clone_degree (lines 250-263) *)

(** [csr_matrix(dist).data]: the non-zero cells, row major. *)
Definition csr_data (dist : matrix Q) : list Q := map data (csr_entries dist).

Fixpoint zip3 {A B C} (a : list A) (b : list B) (c : list C) : list (A * B * C) :=
  match a, b, c with
  | x :: a', y :: b', z :: c' => (x, y, z) :: zip3 a' b' c'
  | _, _, _ => []
  end.

(** The value stored in [metadata['clone_degree']] for every entity
    ([None] is NaN); [distance] holds the per-layer matrices. *)
Definition clone_degree (index : list string) (distance : list (matrix Q))
  : result (list (string * option Q)) :=
  let dist := np_sum_axis0 distance in
  let G := add_weighted_edges_from (zip3 index index (csr_data dist)) empty_graph in
  match nodes G with
  | [] => Raise KeyError
  | _ => Ok (map (fun i => (i, if mem i G then Some (weighted_degree G i) else None))
                 index)
  end.

(** The weighted degree of entity number [i] in the graph whose weighted
    adjacency is [dist]: the sum of the weights of its incident edges. *)
Definition adjacency_degree (dist : matrix Q) (i : nat) : Q :=
  qsum (map (fun j => if j =? i then 0%Q else qcell dist i j)
            (seq 0 (length (nth i dist [])))).

(** *** generate_layout (lines 265-280) *)

(** Lines 270-275: the trimmed copy. *)
Definition trim (G : Graph) (min_size : Z) : Graph :=
  if (min_size =? 2)%Z then remove_nodes_from (isolates G) G
  else if (2 <? min_size)%Z then
    remove_nodes_from
      (filter (fun node => (min_size <? Z.of_nat (degree G node))%Z) (nodes G)) G
  else G.

(** Unpacking the star-zip of [items] into two names, [a, b = zip( *items)],
    fails when [items] is empty. *)
Definition unzip_pair {A B} (items : list (A * B)) : result (list A * list B) :=
  match items with
  | [] => Raise ValueError
  | _ => Ok (map fst items, map snd items)
  end.

(** [zip(edges['source'], edges['target'], edges['weight'])] *)
Definition edge_triples (edges : DataFrame) : result (list (string * string * Q)) :=
  if forallb (fun c => existsb (String.eqb c) (columns edges))
             ["source"; "target"; "weight"]%string
  then Ok (rows edges) else Raise KeyError.

(** The graph [generate_layout] builds from its arguments. *)
Definition full_graph (vertices : list string) (edges : DataFrame) : Graph :=
  add_weighted_edges_from (rows edges) (add_nodes_from vertices empty_graph).

Section Generator.

Variable RandomState : Type.
Variable rand : RandomState -> nat -> nat -> farray * RandomState.
Variable seeded : Z -> RandomState.

Let M := M RandomState.

Record layout_result : Type :=
  { graph : Graph; trimmed : Graph;
    pos : dict (list float); pos_ : dict (list float) }.

Definition generate_layout (vertices : list string) (edges : DataFrame)
           (min_size : Z) : M layout_result :=
  mbind (lift (edge_triples edges)) (fun triples =>
  let G := add_weighted_edges_from triples (add_nodes_from vertices empty_graph) in
  let G_ := trim G min_size in
  mbind (lift (unzip_pair (get_edge_attributes G_))) (fun _ =>
  mbind (_fruchterman_reingold_layout rand seeded G 50 0.0001%float
                                      (Some 1%float) SeedNone) (fun pos =>
  mbind (_fruchterman_reingold_layout rand seeded G_ 50 0.0001%float
                                      (Some 1%float) SeedNone) (fun pos_ =>
  ret {| graph := G; trimmed := G_; pos := pos; pos_ := pos_ |})))).

(** *** generate_network (lines 110-231), from the per-layer distance
    matrices on *)
Record network : Type :=
  { edges : DataFrame; layout : layout_result }.

Definition generate_network (dist_mat_list : list (matrix Q))
           (index : list string) (clone_id clone_id_group : string -> string)
           (distance_mode : string) (min_size : Z) (constructbygroup : bool)
           (weights : option (list Q)) : M network :=
  mbind (lift (total_dist distance_mode weights dist_mat_list)) (fun total_dist =>
  let cluster_key := if constructbygroup then clone_id_group else clone_id in
  let edge_list_final := network_edges total_dist index cluster_key clone_id in
  let vertice_list := index in
  mbind (generate_layout vertice_list edge_list_final min_size) (fun lyt =>
  ret {| edges := edge_list_final; layout := lyt |})).

End Generator.

Arguments generate_layout {RandomState} rand seeded vertices edges min_size.
Arguments generate_network {RandomState} rand seeded dist_mat_list index
  clone_id clone_id_group distance_mode min_size constructbygroup weights.

(** *** Properties of edge lists *)

(** The row points forward in the index. *)
Definition oriented (index : list string) (r : string * string * Q) : Prop :=
  index_of (source r) index < index_of (target r) index.

(** Two rows hold the same unordered (source, target) pair. *)
Definition same_pair (r r' : string * string * Q) : Prop :=
  (source r = source r' /\ target r = target r') \/
  (source r = target r' /\ target r = source r').

(** *** Running examples

    Four entities; "a", "b", "c" form clone "A", "d" is alone in clone "B". *)
Definition example_index : list string := ["a"; "b"; "c"; "d"]%string.

Definition example_clone (s : string) : string :=
  if String.eqb s "d" then "B"%string else "A"%string.

Definition example_total : matrix Q :=
  [[0; 1; 2; 9]; [1; 0; 3; 9]; [2; 3; 0; 9]; [9; 9; 9; 0]]%Q.

(** The clone groups: one group for all the entities. *)
Definition example_group (s : string) : string := "G"%string.

(** Every entity in a clone of its own. *)
Definition singleton_clone (s : string) : string := s.

(** One edge between "a" and "b"; "c" is isolated. *)
Definition example_edges : DataFrame :=
  {| columns := ["source"; "target"; "weight"]%string;
     rows := [("a", "b", 1%Q)]%string |}.

(** A run of [generate_layout] on these edges and three vertices, the
    generator being [lcg_rand] in state 1. *)
Definition example_layout_run : result layout_result * Z :=
  generate_layout lcg_rand (fun s => s) ["a"; "b"; "c"]%string example_edges 2 1%Z.

Definition no_layout : layout_result :=
  {| graph := []; trimmed := []; pos := []; pos_ := [] |}.

(** A run of [generate_network] on the four entities, simple mode, the
    generator being [lcg_rand] in state 1. *)
Definition example_network_run : result network * Z :=
  generate_network lcg_rand (fun s => s) [example_total] example_index
                   example_clone example_group "simple" 2 false None 1%Z.

(** A graph of 500 nodes without edges; node number [i] is named by [i]
    letters. *)
Definition large_graph : Graph :=
  map (fun i => (fold_right String.append EmptyString (repeat "x"%string i), []))
      (seq 0 500).

(** Three entities at pairwise distances 1, 2 and 3 (one layer). *)
Definition example_distance : list (matrix Q) :=
  [ [[0; 1; 2]; [1; 0; 3]; [2; 3; 0]]%Q ].

End Network.

(** ** Further functions of the module and notions used to state their
    properties *)

Module Shapes.
Import Numeric Layout.

(** [rand(n, dim)] returns an array of shape (n, dim), as
    [numpy.random.RandomState.rand] does. *)
Definition rand_shape {RandomState : Type}
           (rand : RandomState -> nat -> nat -> farray * RandomState) : Prop :=
  forall g n dim,
    length (fst (rand g n dim)) = n /\
    Forall (fun r => length r = dim) (fst (rand g n dim)).

(** An array of [n] rows of [dim] cells. *)
Definition has_shape (n dim : nat) (m : farray) : Prop :=
  length m = n /\ Forall (fun r => length r = dim) m.

End Shapes.

(** ** Combination of the layers in binary64 (lines 110-125)

    The lines modelled in [Distance], with every cell, every weight and
    every operation in binary64, as numpy carries them out: [1/n_] is the
    rounded quotient, every product and every sum is rounded, the builtin
    [sum] starts from the integer 0 and adds the arrays first to last, and
    [np.sum(..., axis=0)] adds the layers first to last.  [of_nat] is
    exact on the number of layers (any count below 2^53). *)

Module Float64.
Import Numeric Errors Layout.

Definition madd (a b : farray) : farray :=
  map (fun rs => map (fun xy => (fst xy + snd xy)%float)
                     (combine (fst rs) (snd rs)))
      (combine a b).

Definition mscale (w : float) (a : farray) : farray :=
  map (map (fun x => (w * x)%float)) a.

(** [np.sum(dist_mat_list, axis=0)] *)
Definition np_sum_axis0 (l : list farray) : farray :=
  match l with
  | [] => []
  | m :: r => fold_left madd r m
  end.

(** The builtin [sum(weighted_matrix)] *)
Definition py_sum (l : list farray) : farray :=
  match l with
  | [] => []
  | m :: r => fold_left madd r (map (map (fun x => (0 + x)%float)) m)
  end.

(** Lines 110-125. *)
Definition total_dist (distance_mode : string) (weights : option (list float))
           (dist_mat_list : list farray) : result farray :=
  let n_ := length dist_mat_list in
  if String.eqb distance_mode "simple" then
    Ok (np_sum_axis0 dist_mat_list)
  else if String.eqb distance_mode "weighted" then
    match weights with
    | None =>
        Ok (py_sum (map (fun m => mscale (1 / of_nat n_)%float m) dist_mat_list))
    | Some ws =>
        if length ws =? n_
        then Ok (py_sum (map (fun wm => mscale (fst wm) (snd wm))
                             (combine ws dist_mat_list)))
        else Raise IndexError
    end
  else Raise UnboundLocalError.


(** Two entities: heavy chains at distance 5, light chains at distance 2. *)
Definition layers2 : list farray :=
  [ [[0; 5]; [5; 0]]; [[0; 2]; [2; 0]] ]%float.


(** Two entities: heavy chains at distance 1, light chains alike. *)
Definition layers_half : list farray :=
  [ [[0; 1]; [1; 0]]; [[0; 0]; [0; 0]] ]%float.

End Float64.

(** ** extract_edge_weights (lines 606-611) *)

Module EdgeWeights.
Import Numeric Errors Dict Nx Network.

(** [self.graph] is [None] until a network was generated, then the pair
    (full graph, trimmed graph).  The function keeps the second component
    of the unzipped items, the weights. *)
Definition extract_edge_weights (graph : option (Graph * Graph)) (full_graph : bool)
  : result (list Q) :=
  match graph with
  | None => Raise TypeError
  | Some gs =>
      bind (unzip_pair (get_edge_attributes (if full_graph then fst gs else snd gs)))
           (fun ew => Ok (snd ew))
  end.

End EdgeWeights.

(** ** Invariants of the graphs built by [add_edge] *)

Module GraphNotions.
Import Dict Nx.

(** No node is listed twice, neither in the graph nor among the neighbours
    of a node. *)
Definition simple_keys (G : Graph) : Prop :=
  NoDup (keys G) /\ Forall (fun kv => NoDup (keys (snd kv))) G.

(** An edge is recorded at both of its ends, with one weight. *)
Definition symmetric (G : Graph) : Prop :=
  forall u v w, get v (neighbors G u) = Some w -> get u (neighbors G v) = Some w.

(** The nodes that have no neighbour. *)
Definition isolated (G : Graph) (n : string) : bool :=
  match neighbors G n with [] => true | _ => false end.

End GraphNotions.

(** ** The per-layer distance matrices (lines 100-108) *)

Module Layers.
Import Numeric.

Section Metric.

(** [polyleven.levenshtein]: the edit distance of two strings, a
    non-negative integer; the function itself is a parameter here. *)
Variable levenshtein : string -> string -> nat.

(** [squareform(pdist(tdarray, lambda x, y: levenshtein(x[0], y[0])))] on
    the column [seq_list] (already the array of strings [np.array] makes of
    it): [pdist] evaluates the metric once on every pair of rows (i, j) with
    i < j, [squareform] writes the value at (i, j) and at (j, i) and zeros
    on the diagonal. *)
Definition squareform_pdist (seq_list : list string) : matrix Q :=
  tabulate (length seq_list)
    (fun i j =>
       if i =? j then 0%Q
       else inject_Z (Z.of_nat
              (levenshtein (nth (Nat.min i j) seq_list EmptyString)
                           (nth (Nat.max i j) seq_list EmptyString)))).

(** Lines 101-108: one matrix per column of [dat_seq], in column order. *)
Definition dist_mat_list (dat_seq : list (string * list string)) : list (matrix Q) :=
  map (fun column => squareform_pdist (snd column)) dat_seq.

End Metric.

(** Properties of distance matrices. *)
Definition symmetric_matrix (n : nat) (m : matrix Q) : Prop :=
  forall i j, i < n -> j < n -> qcell m i j = qcell m j i.

Definition zero_diagonal (n : nat) (m : matrix Q) : Prop :=
  forall i, i < n -> (qcell m i i == 0)%Q.

(** Every cell is a non-negative integer. *)
Definition natural_cells (n : nat) (m : matrix Q) : Prop :=
  forall i j, i < n -> j < n -> exists d : nat, (qcell m i j == inject_Z (Z.of_nat d))%Q.

(** A toy metric for examples: the difference of the lengths. *)
Definition length_difference (x y : string) : nat :=
  (String.length x - String.length y) + (String.length y - String.length x).

(** Two columns over three cells. *)
Definition example_dat_seq : list (string * list string) :=
  [("heavy", ["AAAA"; "AAA"; "A"]); ("light_0", ["CC"; "CC"; "C"])]%string.

End Layers.

(** ** _process_params and the first part of _fruchterman_reingold_layout
    (lines 285-302 and 380-408), with all their arguments *)

Module LayoutEntry.
Import Numeric Errors Dict Nx Layout Network.

(** Besides the exceptions of [Errors], a call on [None] or on an integer
    of a method they do not have raises [AttributeError]. *)
Inductive error : Type :=
| Builtin (e : exception)
| AttributeError.

Inductive outcome (A : Type) : Type :=
| Returned (a : A)
| Raised (e : error).
Arguments Returned {A} a.
Arguments Raised {A} e.

Definition of_result {A} (r : result A) : outcome A :=
  match r with
  | Ok a => Returned a
  | Raise e => Raised (Builtin e)
  end.

Definition obind {A B} (o : outcome A) (k : A -> outcome B) : outcome B :=
  match o with
  | Returned a => k a
  | Raised e => Raised e
  end.

(** [_process_params(G, center, dim)] for [G] a graph: [center] defaults to
    the origin and must have [dim] coordinates. *)
Definition _process_params (center : option (list float)) (dim : nat)
  : result (list float) :=
  let center := match center with
                | None => repeat 0%float dim
                | Some c => c
                end in
  if negb (length center =? dim) then Raise ValueError else Ok center.

Section Generator.

Variable RandomState : Type.
Variable rand : RandomState -> nat -> nat -> farray * RandomState.

(** The [seed] argument as the caller passes it: the layout function is not
    decorated with [random_state], so it sees the value itself. *)
Inductive seed_value : Type :=
| NoSeed
| IntSeed (s : Z)
| StateSeed (r : RandomState).

(** Lines 382-389: the fixed nodes must have a position; they become their
    indices in [G]. *)
Definition fixed_indices (G : Graph) (pos : option (dict (list float)))
           (fixed : option (list string)) : result (option (list nat)) :=
  match fixed with
  | None => Ok None
  | Some f =>
      match pos with
      | None => Raise ValueError
      | Some p =>
          if negb (forallb (fun node => mem node p) f) then Raise ValueError
          else if negb (forallb (fun node => mem node G) f) then Raise KeyError
          else Ok (Some (map (fun node => index_of node (nodes G)) f))
      end
  end.

(** [pos_arr[i] = np.asarray(pos[n])] for every node that has a position:
    the coordinates must be [dim] many, or a single one that is repeated. *)
Fixpoint fill_rows (dim : nat) (p : dict (list float)) (ns : list string)
         (rows : farray) : result farray :=
  match ns, rows with
  | n :: ns', row :: rows' =>
      bind (match get n p with
            | None => Ok row
            | Some c =>
                if length c =? dim then Ok c
                else if length c =? 1 then Ok (repeat (hd 0%float c) dim)
                else Raise ValueError
            end) (fun row' =>
      bind (fill_rows dim p ns' rows') (fun rest => Ok (row' :: rest)))
  | _, _ => Ok rows
  end.

(** [seed.rand(len(G), dim) * dom_size + center] *)
Definition scaled_draw (x : farray) (dom_size : float) (center : list float)
  : farray :=
  map (fun row => map (fun vc => (fst vc * dom_size + snd vc)%float)
                      (combine row center)) x.

(** Lines 391-403: the initial positions and the size of their domain. *)
Definition initial_positions (G : Graph) (pos : option (dict (list float)))
           (center : list float) (dim : nat) (seed : seed_value)
  : outcome (option farray * float) * seed_value :=
  match pos with
  | None => (Returned (None, 1%float), seed)
  | Some p =>
      match py_max (concat (map snd p)) with
      | Raise e => (Raised (Builtin e), seed)
      | Ok dom_size =>
          let dom_size := if PrimFloat.eqb dom_size 0 then 1%float else dom_size in
          match seed with
          | NoSeed | IntSeed _ => (Raised AttributeError, seed)
          | StateSeed r =>
              let (x, r') := rand r (length G) dim in
              (obind (of_result (fill_rows dim p (nodes G)
                                           (scaled_draw x dom_size center)))
                     (fun pos_arr => Returned (Some pos_arr, dom_size)),
               StateSeed r')
          end
      end
  end.

(** Where the first part of the function leaves the call: it has returned
    (lines 405-408), or the solvers are to be run. *)
Inductive stage : Type :=
| Done (layout : dict (list float))
| Solve (center : list float) (pos_arr : option farray) (dom_size : float)
        (fixed : option (list nat)).

(** Lines 380-408. *)
Definition layout_entry (G : Graph) (pos : option (dict (list float)))
           (fixed : option (list string)) (center : option (list float))
           (dim : nat) (seed : seed_value) : outcome stage * seed_value :=
  match _process_params center dim with
  | Raise e => (Raised (Builtin e), seed)
  | Ok center =>
      match fixed_indices G pos fixed with
      | Raise e => (Raised (Builtin e), seed)
      | Ok fixed =>
          match initial_positions G pos center dim seed with
          | (Raised e, seed') => (Raised e, seed')
          | (Returned (pos_arr, dom_size), seed') =>
              (Returned match nodes G with
                        | [] => Done []
                        | [n] => Done [(n, center)]
                        | _ => Solve center pos_arr dom_size fixed
                        end,
               seed')
          end
      end
  end.

End Generator.

Arguments NoSeed {RandomState}.
Arguments IntSeed {RandomState} s.
Arguments StateSeed {RandomState} r.
Arguments initial_positions {RandomState} rand G pos center dim seed.
Arguments layout_entry {RandomState} rand G pos fixed center dim seed.

(** Positions for the two linked nodes of [example_edges]. *)
Definition example_pos : dict (list float) :=
  [("a", [0; 0]); ("b", [1; 0])]%string%float.

End LayoutEntry.

(** * Facts *)

(** ** Lists *)

Module ListFacts.
Import Numeric.

Lemma NoDup_flat_map {A B} (f : A -> list B) (l : list A) :
  NoDup l ->
  (forall x, In x l -> NoDup (f x)) ->
  (forall x y b, In x l -> In y l -> In b (f x) -> In b (f y) -> x = y) ->
  NoDup (flat_map f l).
Proof.
  induction l as [|a l IH]; simpl; intros Hnd Hf Hdisj.
  - constructor.
  - inversion Hnd as [|? ? Hna Hnd']; subst.
    apply NoDup_app.
    + apply Hf; auto.
    + apply IH; auto. intros x y b Hx Hy. apply Hdisj; auto.
    + intros b Hb Hb'. apply in_flat_map in Hb'. destruct Hb' as [y [Hy Hby]].
      assert (a = y) by (apply (Hdisj a y b); auto).
      subst. contradiction.
Qed.

Lemma remove_NoDup_length (b : nat) (l : list nat) :
  NoDup l -> In b l -> S (length (remove Nat.eq_dec b l)) = length l.
Proof.
  induction l as [|a l IH]; simpl; intros Hnd Hin; [contradiction|].
  inversion Hnd; subst.
  destruct (Nat.eq_dec b a) as [->|Hne].
  - rewrite notin_remove; auto.
  - simpl. f_equal. apply IH; auto. destruct Hin; congruence.
Qed.

Lemma remove_keeps_NoDup (b : nat) (l : list nat) :
  NoDup l -> NoDup (remove Nat.eq_dec b l).
Proof.
  induction l as [|a l IH]; simpl; intros Hnd; auto.
  inversion Hnd; subst.
  destruct (Nat.eq_dec b a); auto.
  constructor; auto. intros Hin. apply in_remove in Hin. tauto.
Qed.

(** A labelling that identifies more has fewer distinct labels. *)
Lemma distinct_labels_le {A} (f g : A -> nat) (vs : list A) :
  (forall u v, In u vs -> In v vs -> f u = f v -> g u = g v) ->
  length (nodup Nat.eq_dec (map g vs)) <= length (nodup Nat.eq_dec (map f vs)).
Proof.
  induction vs as [|a vs IH]; simpl; intros H; auto.
  assert (IH' : length (nodup Nat.eq_dec (map g vs))
                <= length (nodup Nat.eq_dec (map f vs))).
  { apply IH. intros; apply H; auto. }
  destruct (in_dec Nat.eq_dec (g a) (map g vs)) as [Hg|Hg];
    destruct (in_dec Nat.eq_dec (f a) (map f vs)) as [Hf|Hf]; simpl; try lia.
  exfalso. apply Hg. apply in_map_iff in Hf. destruct Hf as [v [Hv Hin]].
  apply in_map_iff. exists v. split; [|assumption]. symmetry. apply H; auto.
Qed.

Lemma nodup_constant_length (x : nat) (l : list nat) :
  (forall y, In y l -> y = x) -> length (nodup Nat.eq_dec l) <= 1.
Proof.
  intros H.
  change 1 with (length [x]).
  apply NoDup_incl_length. { apply NoDup_nodup. }
  intros y Hy. apply nodup_In in Hy. left. symmetry. auto.
Qed.

Lemma filter_length_le {A} (p : A -> bool) (l : list A) :
  length (filter p l) <= length l.
Proof. induction l; simpl; auto. destruct (p a); simpl; lia. Qed.

Lemma insert_by_perm {A} (leb : A -> A -> bool) x l :
  Permutation (x :: l) (insert_by leb x l).
Proof.
  induction l as [|y l IH]; simpl; auto.
  destruct (leb x y); auto.
  rewrite perm_swap. constructor. exact IH.
Qed.

Lemma sort_by_perm {A} (leb : A -> A -> bool) l : Permutation l (sort_by leb l).
Proof.
  induction l as [|x l IH]; simpl; auto.
  rewrite <- insert_by_perm. constructor. exact IH.
Qed.

End ListFacts.

(** ** Arrays *)

Module MatrixFacts.
Import Numeric.

Lemma nth_map_in {A B} (f : A -> B) (l : list A) (i : nat) (d : A) (d' : B) :
  i < length l -> nth i (map f l) d' = f (nth i l d).
Proof.
  intros H. rewrite (nth_indep (map f l) d' (f d)) by (rewrite length_map; auto).
  apply map_nth.
Qed.

Lemma nth_map_seq {B} (f : nat -> B) (n i : nat) (d' : B) :
  i < n -> nth i (map f (seq 0 n)) d' = f i.
Proof.
  intros H. rewrite (nth_map_in f (seq 0 n) i 0 d') by (rewrite length_seq; auto).
  rewrite seq_nth by auto. reflexivity.
Qed.

Lemma cell_tabulate {A} (d : A) n f i j :
  i < n -> j < n -> cell d (tabulate n f) i j = f i j.
Proof.
  intros Hi Hj. unfold cell, tabulate.
  rewrite nth_map_seq by auto. apply nth_map_seq. auto.
Qed.

Lemma tabulate_length {A} n (f : nat -> nat -> A) : length (tabulate n f) = n.
Proof. unfold tabulate. rewrite length_map, length_seq. reflexivity. Qed.

Lemma tabulate_row_length {A} n (f : nat -> nat -> A) i :
  i < n -> length (nth i (tabulate n f) []) = n.
Proof.
  intros Hi. unfold tabulate. rewrite nth_map_seq by auto.
  rewrite length_map, length_seq. reflexivity.
Qed.

Lemma cell_map_map {A B} (g : A -> B) (d : A) (d' : B) (m : matrix A) i j :
  i < length m -> j < length (nth i m []) ->
  cell d' (map (map g) m) i j = g (cell d m i j).
Proof.
  intros Hi Hj. unfold cell.
  rewrite (nth_map_in (map g) m i [] []) by auto.
  apply nth_map_in. auto.
Qed.

Lemma cell_map_map_default {A B} (g : A -> B) (d : A) (m : matrix A) i j :
  cell (g d) (map (map g) m) i j = g (cell d m i j).
Proof.
  unfold cell. change (@nil B) with (map g []).
  rewrite map_nth. apply map_nth.
Qed.

Lemma map_map_row_length {A B} (g : A -> B) (m : matrix A) i :
  length (nth i (map (map g) m) []) = length (nth i m []).
Proof.
  destruct (Nat.lt_ge_cases i (length m)) as [H|H].
  - rewrite (nth_map_in (map g) m i [] []) by auto. apply length_map.
  - rewrite !nth_overflow; auto. rewrite length_map. auto.
Qed.

Lemma square_row_length {A} n (m : matrix A) i :
  square n m -> i < n -> length (nth i m []) = n.
Proof.
  intros [Hl Hrows] Hi. rewrite Forall_forall in Hrows.
  apply Hrows. apply nth_In. lia.
Qed.

(** *** The cells selected by a predicate *)

Lemma cells_where_In {A} (d : A) p m i j x :
  In (i, j, x) (cells_where d p m) <->
  i < length m /\ j < length (nth i m []) /\ x = cell d m i j /\ p x = true.
Proof.
  unfold cells_where. rewrite in_flat_map. split.
  - intros [i' [Hi' H]]. apply in_flat_map in H. destruct H as [j' [Hj' H]].
    apply in_seq in Hi', Hj'.
    destruct (p (cell d m i' j')) eqn:E; simpl in H; [|contradiction].
    destruct H as [H|[]]. inversion H; subst. repeat split; auto; lia.
  - intros (Hi & Hj & -> & Hp). exists i. split; [apply in_seq; lia|].
    apply in_flat_map. exists j. split; [apply in_seq; lia|].
    rewrite Hp. simpl. auto.
Qed.

Lemma cells_where_NoDup {A} (d : A) p m :
  NoDup (map fst (cells_where d p m)).
Proof.
  unfold cells_where. rewrite flat_map_concat_map, concat_map, map_map.
  rewrite <- flat_map_concat_map.
  apply ListFacts.NoDup_flat_map.
  - apply seq_NoDup.
  - intros i _. rewrite flat_map_concat_map, concat_map, map_map.
    rewrite <- flat_map_concat_map.
    apply ListFacts.NoDup_flat_map.
    + apply seq_NoDup.
    + intros j _. destruct (p (cell d m i j)); simpl; repeat constructor; auto.
    + intros j j' b _ _ H H'.
      destruct (p (cell d m i j)); destruct (p (cell d m i j'));
        simpl in *; try tauto.
      destruct H as [H|[]]; destruct H' as [H'|[]]. congruence.
  - intros i i' b _ _ H H'.
    apply in_map_iff in H, H'.
    destruct H as [[[a1 a2] a3] [E H]]. destruct H' as [[[b1 b2] b3] [E' H']].
    apply in_flat_map in H, H'.
    destruct H as [j [_ H]]. destruct H' as [j' [_ H']].
    destruct (p (cell d m i j)); destruct (p (cell d m i' j'));
      simpl in *; try tauto.
    destruct H as [H|[]]; destruct H' as [H'|[]]. congruence.
Qed.

(** *** np.triu *)

Lemma triu_length m : length (triu m) = length m.
Proof. unfold triu. rewrite length_map, length_seq. reflexivity. Qed.

Lemma triu_row_length m i :
  i < length m -> length (nth i (triu m) []) = length (nth i m []).
Proof.
  intros Hi. unfold triu. rewrite nth_map_seq by auto.
  rewrite length_map, length_seq. reflexivity.
Qed.

Lemma triu_cell m i j :
  i < length m -> j < length (nth i m []) ->
  qcell (triu m) i j = if j <? i then 0%Q else qcell m i j.
Proof.
  intros Hi Hj. unfold qcell at 1. unfold cell, triu.
  rewrite nth_map_seq by auto. rewrite nth_map_seq by auto. reflexivity.
Qed.

End MatrixFacts.

(** ** The disjoint-set labels *)

Module UnionFindFacts.
Import Numeric SpanningTree ListFacts.

Lemma run_cons lab p r : run lab (p :: r) = run (step lab p) r.
Proof. reflexivity. Qed.

Lemma find_In lab v : v < length lab -> In (find lab v) lab.
Proof. intros H. unfold find. apply nth_In; auto. Qed.

Lemma find_map f lab v :
  v < length lab -> find (map f lab) v = f (find lab v).
Proof.
  intros H. unfold find.
  rewrite (nth_indep (map f lab) v (f v)) by (rewrite length_map; auto).
  rewrite map_nth. reflexivity.
Qed.

Lemma find_init n v : find (init_labels n) v = v.
Proof.
  unfold find, init_labels.
  destruct (Nat.lt_ge_cases v n) as [H|H].
  - rewrite seq_nth; auto.
  - rewrite nth_overflow; auto. rewrite length_seq; auto.
Qed.

Lemma union_length lab u v : length (union lab u v) = length lab.
Proof. unfold union. apply length_map. Qed.

Lemma step_length lab p : length (step lab p) = length lab.
Proof. unfold step. destruct (_ =? _); auto using union_length. Qed.

Lemma run_length ps : forall lab, length (run lab ps) = length lab.
Proof.
  induction ps as [|p r IH]; intros lab; simpl; auto.
  fold (step lab p). rewrite IH. apply step_length.
Qed.

Lemma find_union lab u v x :
  x < length lab ->
  find (union lab u v) x =
  if find lab x =? find lab v then find lab u else find lab x.
Proof. intros H. unfold union. rewrite find_map; auto. Qed.

Lemma labels_as_map lab : lab = map (find lab) (seq 0 (length lab)).
Proof.
  apply nth_ext with (d := 0) (d' := find lab 0).
  - rewrite length_map, length_seq. reflexivity.
  - intros i Hi.
    rewrite (nth_indep _ _ (find lab 0)) by auto.
    change (find lab 0) with ((fun v => find lab v) 0) at 2.
    rewrite map_nth.
    rewrite seq_nth by auto. simpl. unfold find.
    apply nth_indep; auto.
Qed.

Lemma classes_union lab u v :
  u < length lab -> v < length lab -> find lab u <> find lab v ->
  S (classes (union lab u v)) = classes lab.
Proof.
  intros Hu Hv Hne. unfold classes.
  set (a := find lab u). set (b := find lab v).
  assert (Ha : In a lab) by (apply find_In; auto).
  assert (Hb : In b lab) by (apply find_In; auto).
  assert (HP : Permutation (nodup Nat.eq_dec (union lab u v))
                 (remove Nat.eq_dec b (nodup Nat.eq_dec lab))).
  { apply NoDup_Permutation.
    - apply NoDup_nodup.
    - apply remove_keeps_NoDup. apply NoDup_nodup.
    - intros x. rewrite nodup_In. unfold union. fold a b.
      rewrite in_map_iff. split.
      + intros [y [Hy Hin]]. apply in_in_remove.
        * destruct (Nat.eqb_spec y b); subst; auto.
        * apply nodup_In. destruct (Nat.eqb_spec y b); subst; auto.
      + intros Hx. apply in_remove in Hx. destruct Hx as [Hx Hxb].
        apply nodup_In in Hx. exists x. split; auto.
        destruct (Nat.eqb_spec x b); congruence. }
  rewrite (Permutation_length HP).
  apply remove_NoDup_length.
  - apply NoDup_nodup.
  - apply nodup_In; auto.
Qed.

Lemma classes_step n lab p :
  length lab = n -> valid n p ->
  classes (step lab p)
  + (if find lab (fst p) =? find lab (snd p) then 0 else 1) = classes lab.
Proof.
  intros Hl [Hu Hv]. unfold step.
  destruct (Nat.eqb_spec (find lab (fst p)) (find lab (snd p))) as [He|Hne].
  - lia.
  - rewrite <- (@classes_union lab (fst p) (snd p)); lia.
Qed.

Lemma step_mono lab p u v :
  u < length lab -> v < length lab ->
  find lab u = find lab v -> find (step lab p) u = find (step lab p) v.
Proof.
  intros Hu Hv H. unfold step. destruct (_ =? _); auto.
  rewrite !find_union; auto. rewrite H. reflexivity.
Qed.

Lemma step_joins lab p :
  valid (length lab) p -> find (step lab p) (fst p) = find (step lab p) (snd p).
Proof.
  intros [Hu Hv]. unfold step.
  destruct (Nat.eqb_spec (find lab (fst p)) (find lab (snd p))) as [He|Hne]; auto.
  rewrite !find_union; auto.
  rewrite Nat.eqb_refl.
  destruct (Nat.eqb_spec (find lab (fst p)) (find lab (snd p))); congruence.
Qed.

Lemma run_mono ps : forall lab u v,
  u < length lab -> v < length lab ->
  find lab u = find lab v -> find (run lab ps) u = find (run lab ps) v.
Proof.
  induction ps as [|p r IH]; intros lab u v Hu Hv H; simpl; auto.
  fold (step lab p). apply IH; rewrite ?step_length; auto.
  apply step_mono; auto.
Qed.

Lemma run_respects ps : forall lab p,
  Forall (valid (length lab)) ps -> In p ps ->
  find (run lab ps) (fst p) = find (run lab ps) (snd p).
Proof.
  induction ps as [|q r IH]; intros lab p Hval Hin; [contradiction|].
  inversion Hval as [|? ? Hq Hr]; subst. rewrite run_cons.
  destruct Hin as [->|Hin].
  - destruct Hq as [Hu Hv].
    apply run_mono; rewrite ?step_length; auto.
    apply step_joins. split; auto.
  - apply IH; auto. rewrite step_length. auto.
Qed.

Lemma init_refines n pi : refines n (init_labels n) pi.
Proof. intros u v _ _. rewrite !find_init. congruence. Qed.

Lemma step_refines n lab pi p :
  length lab = n -> valid n p -> pi (fst p) = pi (snd p) ->
  refines n lab pi -> refines n (step lab p) pi.
Proof.
  intros Hl [Hp1 Hp2] Hpi Href u v Hu Hv. unfold step.
  destruct (Nat.eqb_spec (find lab (fst p)) (find lab (snd p))) as [He|Hne].
  - apply Href; auto.
  - rewrite !find_union by lia.
    destruct (Nat.eqb_spec (find lab u) (find lab (snd p))) as [E1|E1];
      destruct (Nat.eqb_spec (find lab v) (find lab (snd p))) as [E2|E2]; intros E.
    + apply Href; auto. congruence.
    + transitivity (pi (snd p)); [apply Href; auto|].
      rewrite <- Hpi. apply Href; auto.
    + transitivity (pi (fst p)); [apply Href; auto|].
      rewrite Hpi. symmetry. apply Href; auto.
    + apply Href; auto.
Qed.

Lemma run_refines n pi ps : forall lab,
  length lab = n -> Forall (valid n) ps ->
  (forall p, In p ps -> pi (fst p) = pi (snd p)) ->
  refines n lab pi -> refines n (run lab ps) pi.
Proof.
  induction ps as [|p r IH]; intros lab Hl Hval Hpi Href; simpl; auto.
  inversion Hval; subst. fold (step lab p).
  apply IH; auto.
  - apply step_length.
  - intros; apply Hpi; simpl; auto.
  - apply step_refines; auto. apply Hpi; simpl; auto.
Qed.

Lemma refines_classes n lab lab' :
  length lab = n -> length lab' = n ->
  refines n lab (find lab') -> classes lab' <= classes lab.
Proof.
  intros Hl Hl' Href. unfold classes.
  rewrite (labels_as_map lab), (labels_as_map lab'), Hl, Hl'.
  apply distinct_labels_le.
  intros u v Hu Hv. apply in_seq in Hu, Hv. apply Href; lia.
Qed.

Lemma run_app P : forall lab R, run lab (P ++ R) = run (run lab P) R.
Proof. induction P as [|p P IH]; intros; simpl; auto. Qed.

Lemma flags_app P : forall lab R,
  flags lab (P ++ R) = flags lab P ++ flags (run lab P) R.
Proof.
  induction P as [|p P IH]; intros; simpl; auto.
  f_equal. fold (step lab p). apply IH.
Qed.

Lemma flags_length ps : forall lab, length (flags lab ps) = length ps.
Proof. induction ps; intros; simpl; auto. Qed.

Lemma classes_run n ps : forall lab,
  length lab = n -> Forall (valid n) ps ->
  classes (run lab ps) + count_true (flags lab ps) = classes lab.
Proof.
  induction ps as [|p r IH]; intros lab Hl Hval.
  - simpl. unfold count_true. simpl. lia.
  - inversion Hval; subst. rewrite run_cons. simpl flags.
    pose proof (@classes_step (length lab) lab p eq_refl H1) as Hs.
    specialize (IH (step lab p) (step_length lab p) H2).
    unfold count_true in *. simpl.
    destruct (find lab (fst p) =? find lab (snd p)); simpl; lia.
Qed.

Lemma classes_run_lower n ps lab :
  length lab = n -> Forall (valid n) ps ->
  classes lab <= classes (run lab ps) + length ps.
Proof.
  intros Hl Hval. rewrite <- (@classes_run n ps lab Hl Hval).
  unfold count_true.
  pose proof (filter_length_le (fun b => b) (flags lab ps)) as H.
  rewrite flags_length in H. lia.
Qed.

Lemma one_class_same lab u v :
  classes lab <= 1 -> u < length lab -> v < length lab ->
  find lab u = find lab v.
Proof.
  unfold classes. intros Hc Hu Hv.
  pose proof (find_In lab u Hu) as H1. pose proof (find_In lab v Hv) as H2.
  apply (nodup_In Nat.eq_dec) in H1, H2.
  destruct (nodup Nat.eq_dec lab) as [|x [|y l]]; simpl in *; try lia; tauto.
Qed.

Lemma same_one_class lab :
  (forall u v, u < length lab -> v < length lab -> find lab u = find lab v) ->
  classes lab <= 1.
Proof.
  intros H. unfold classes.
  apply nodup_constant_length with (x := find lab 0).
  intros y Hy. apply In_nth with (d := 0) in Hy. destruct Hy as [i [Hi Hy]].
  rewrite <- Hy.
  change (nth i lab 0) with (nth i lab 0).
  rewrite (nth_indep lab 0 i Hi). fold (find lab i).
  apply H; lia.
Qed.

Lemma classes_pos lab : 0 < length lab -> 1 <= classes lab.
Proof.
  unfold classes. destruct lab as [|a l]; [simpl; lia|]. intros _.
  assert (H : In a (nodup Nat.eq_dec (a :: l))) by (apply nodup_In; simpl; auto).
  destruct (nodup Nat.eq_dec (a :: l)); [contradiction|simpl; lia].
Qed.

Lemma classes_init n : classes (init_labels n) = n.
Proof.
  unfold classes, init_labels.
  rewrite nodup_fixed_point by apply seq_NoDup. apply length_seq.
Qed.

End UnionFindFacts.

(** ** Kruskal's loop *)

Module KruskalFacts.
Import Numeric SpanningTree ListFacts UnionFindFacts.

Lemma mem_pair_In T p : mem_pair T p = true <-> In p T.
Proof.
  unfold mem_pair. rewrite existsb_exists. split.
  - intros [q [Hq H]]. apply andb_true_iff in H. destruct H as [H1 H2].
    apply Nat.eqb_eq in H1, H2. destruct p, q; simpl in *; subst; auto.
  - intros H. exists p. split; auto. rewrite !Nat.eqb_refl. reflexivity.
Qed.

Lemma qn_S d : (qn (S d) == qn d + 1)%Q.
Proof.
  unfold qn. rewrite Nat2Z.inj_succ. unfold Z.succ.
  rewrite inject_Z_plus. reflexivity.
Qed.

Lemma qn_nonneg d : (0 <= qn d)%Q.
Proof.
  unfold qn. change 0%Q with (inject_Z 0). rewrite <- Zle_Qle. lia.
Qed.

(** *** The sort *)

Lemma argsort_perm l : Permutation l (argsort l).
Proof. apply sort_by_perm. Qed.

Lemma insert_entry_sorted e l :
  sorted_by_data l ->
  sorted_by_data (insert_by (fun a b => Qle_bool (data a) (data b)) e l).
Proof.
  unfold sorted_by_data.
  induction l as [|x l IH]; simpl; intros Hs.
  - constructor; constructor.
  - destruct (Qle_bool (data e) (data x)) eqn:Hle.
    + apply Qle_bool_iff in Hle. constructor; auto.
      constructor; auto.
      apply StronglySorted_inv in Hs. destruct Hs as [_ Hall].
      eapply Forall_impl; [|exact Hall]. simpl. intros a Ha.
      eapply Qle_trans; eauto.
    + assert (Hxe : (data x <= data e)%Q).
      { apply Qlt_le_weak, Qnot_le_lt. intros H.
        apply Qle_bool_iff in H. congruence. }
      apply StronglySorted_inv in Hs. destruct Hs as [Hs Hall].
      constructor; auto.
      apply (Permutation_Forall (insert_by_perm _ e l)).
      constructor; auto.
Qed.

Lemma argsort_sorted l : sorted_by_data (argsort l).
Proof.
  unfold argsort. induction l as [|e l IH]; simpl.
  - constructor.
  - apply insert_entry_sorted. exact IH.
Qed.

(** *** The loop computes the flags of the merging process *)

Lemma flags_one_class n ps : forall lab,
  length lab = n -> classes lab <= 1 -> Forall (valid n) ps ->
  flags lab ps = map (fun _ => false) ps.
Proof.
  induction ps as [|p r IH]; intros lab Hl Hc Hval; simpl; auto.
  inversion Hval as [|? ? [Hu Hv] Hr]; subst.
  assert (E : find lab (fst p) = find lab (snd p))
    by (apply one_class_same; auto).
  unfold step. rewrite E, Nat.eqb_refl. simpl. f_equal. apply IH; auto.
Qed.

Lemma kruskal_flags n es : forall lab cnt,
  length lab = n -> Forall (valid n) (map ends es) ->
  cnt + classes lab = n ->
  kruskal n lab cnt es = combine es (flags lab (map ends es)).
Proof.
  induction es as [|e es IH]; intros lab cnt Hl Hval Hc; [reflexivity|].
  simpl map in Hval. inversion Hval as [|? ? He Hes]; subst.
  cbn [kruskal].
  destruct (Nat.ltb_spec cnt (length lab - 1)) as [Hlt|Hge].
  - cbn [map flags combine]. unfold step.
    change (fst (ends e)) with (row e). change (snd (ends e)) with (col e).
    destruct (Nat.eqb_spec (find lab (row e)) (find lab (col e))) as [E|E].
    + cbn [negb]. f_equal. apply IH; auto.
    + cbn [negb]. f_equal. apply IH; auto.
      * apply union_length.
      * destruct He as [Hu Hv].
        pose proof (@classes_union lab (row e) (col e) Hu Hv E). lia.
  - rewrite (@flags_one_class (length lab)); auto; try lia.
    rewrite map_map. clear.
    induction (e :: es) as [|x l IHl]; simpl; auto. f_equal. exact IHl.
Qed.

Lemma kept_combine_length es : forall bs,
  length bs = length es -> length (kept (combine es bs)) = count_true bs.
Proof.
  unfold kept, count_true.
  induction es as [|e es IH]; intros [|b bs] Hl; simpl in *; try lia.
  destruct b; simpl; rewrite IH; auto.
Qed.

Lemma kept_combine_incl es bs : incl (kept (combine es bs)) es.
Proof.
  unfold kept. intros e He. apply in_map_iff in He.
  destruct He as [[e' b] [E Hin]]. simpl in E. subst e'.
  apply filter_In in Hin. destruct Hin as [Hin _].
  eapply in_combine_l; eauto.
Qed.

Lemma kept_combine_NoDup {B} (f : entry -> B) es : forall bs,
  NoDup (map f es) -> NoDup (map f (kept (combine es bs))).
Proof.
  unfold kept.
  induction es as [|e es IH]; intros [|b bs] Hnd; simpl; try constructor.
  inversion Hnd as [|? ? Hn Hnd']; subst.
  destruct b; simpl; [|apply IH; auto].
  constructor; [|apply IH; auto].
  intros Hin. apply Hn. apply in_map_iff in Hin. destruct Hin as [x [Hx Hin]].
  apply in_map_iff. exists x. split; auto.
  apply (@kept_combine_incl es bs). exact Hin.
Qed.

Lemma firstn_flags ps : forall lab k,
  firstn k (flags lab ps) = flags lab (firstn k ps).
Proof.
  induction ps as [|p r IH]; intros lab [|k]; simpl; auto.
  f_equal. apply IH.
Qed.

(** *** Weight domination

    If, along the sorted entries, every prefix holds at least as many kept
    entries as entries selected by [t], and both select the same number
    overall, the kept entries weigh no more. *)
Section Domination.
Variable t : entry -> bool.

Lemma kept_cons e S b ks :
  kept (combine (e :: S) (b :: ks)) =
  if b then e :: kept (combine S ks) else kept (combine S ks).
Proof. unfold kept. simpl. destruct b; reflexivity. Qed.

Lemma dominate_gen S : forall ks d w0,
  length ks = length S -> sorted_by_data S ->
  (forall e, In e S -> (w0 <= data e)%Q) ->
  (forall k, count_t t (firstn k S) <= d + count_true (firstn k ks)) ->
  count_t t S = d + count_true ks ->
  (qsum (map data (kept (combine S ks))) + qn d * w0
   <= qsum (map data (filter t S)))%Q.
Proof.
  induction S as [|e S IH]; intros [|b ks] d w0 Hl Hs Hlow Hpre Htot;
    simpl in Hl; try lia.
  - unfold count_t, count_true in Htot. simpl in Htot.
    assert (d = 0) by lia. subst d. unfold qn. simpl.
    change (inject_Z 0) with 0%Q. lra.
  - apply StronglySorted_inv in Hs. destruct Hs as [Hs Hall].
    rewrite Forall_forall in Hall.
    assert (Hwe : (w0 <= data e)%Q) by (apply Hlow; simpl; auto).
    pose proof (qn_nonneg d) as Hd.
    assert (Hmul : (qn d * w0 <= qn d * data e)%Q) by nra.
    assert (Hl' : length ks = length S) by lia.
    pose proof (Hpre 1) as H1.
    assert (Hpre' : forall k, count_t t (e :: firstn k S)
                              <= d + count_true (b :: firstn k ks))
      by (intros k; apply (Hpre (Datatypes.S k))).
    rewrite kept_cons.
    unfold count_t, count_true in *. simpl in H1, Hpre', Htot |- *.
    destruct (t e) eqn:Hte; destruct b; simpl in H1, Hpre', Htot |- *.
    + specialize (IH ks d (data e) Hl' Hs Hall).
      lapply IH; [clear IH; intros IH|intros k; specialize (Hpre' k); lia].
      specialize (IH ltac:(lia)). lra.
    + destruct d as [|d]; [lia|].
      specialize (IH ks d (data e) Hl' Hs Hall).
      lapply IH; [clear IH; intros IH|intros k; specialize (Hpre' k); lia].
      specialize (IH ltac:(lia)).
      rewrite qn_S in Hmul |- *. lra.
    + specialize (IH ks (Datatypes.S d) (data e) Hl' Hs Hall).
      lapply IH; [clear IH; intros IH|intros k; specialize (Hpre' k); lia].
      specialize (IH ltac:(lia)).
      rewrite qn_S in IH. lra.
    + specialize (IH ks d (data e) Hl' Hs Hall).
      lapply IH; [clear IH; intros IH|intros k; specialize (Hpre' k); lia].
      specialize (IH ltac:(lia)). lra.
Qed.

Lemma dominate S ks :
  length ks = length S -> sorted_by_data S ->
  (forall k, count_t t (firstn k S) <= count_true (firstn k ks)) ->
  count_t t S = count_true ks ->
  (qsum (map data (kept (combine S ks))) <= qsum (map data (filter t S)))%Q.
Proof.
  intros Hl Hs Hpre Htot.
  destruct S as [|e S].
  - destruct ks; simpl in Hl; try lia. simpl. lra.
  - pose proof (@dominate_gen (e :: S) ks 0 (data e) Hl Hs) as H.
    lapply H.
    + clear H; intros H. specialize (H Hpre Htot).
      change (qn 0) with 0%Q in H. lra.
    + apply StronglySorted_inv in Hs. destruct Hs as [_ Hall].
      rewrite Forall_forall in Hall.
      intros x [<-|Hx]; [apply Qle_refl|auto].
Qed.

End Domination.

(** *** The kept entries against any spanning tree *)

Lemma joined_same_label (f : nat -> nat) E u v :
  (forall p, In p E -> f (fst p) = f (snd p)) -> joined E u v -> f u = f v.
Proof.
  intros H J. induction J.
  - reflexivity.
  - apply (H (u, v)); auto.
  - congruence.
  - congruence.
Qed.

Lemma joined_incl E E' u v : incl E E' -> joined E u v -> joined E' u v.
Proof.
  intros Hi J. induction J.
  - apply joined_refl.
  - apply joined_edge. auto.
  - apply joined_sym. auto.
  - eapply joined_trans; eauto.
Qed.

Lemma Forall_firstn_keep {A} (P : A -> Prop) k l :
  Forall P l -> Forall P (firstn k l).
Proof.
  intros H. rewrite <- (firstn_skipn k l) in H.
  apply Forall_app in H. tauto.
Qed.

Lemma NoDup_firstn_keep {A} k (l : list A) : NoDup l -> NoDup (firstn k l).
Proof.
  intros H. rewrite <- (firstn_skipn k l) in H.
  eapply NoDup_app_remove_r; eauto.
Qed.

Lemma incl_firstn {A} k (l : list A) : incl (firstn k l) l.
Proof.
  intros x Hx. rewrite <- (firstn_skipn k l). apply in_or_app. auto.
Qed.

(** All the vertices are in one class once the labels respect a connected
    edge set. *)
Lemma connected_one_class n E lab :
  length lab = n -> connected n E ->
  (forall p, In p E -> find lab (fst p) = find lab (snd p)) ->
  classes lab <= 1.
Proof.
  intros Hl Hc Hres. apply same_one_class.
  intros u v Hu Hv. apply joined_same_label with (E := E); auto.
  apply Hc; lia.
Qed.

Lemma tree_entries_count n (es : list entry) :
  1 <= n -> Forall (valid n) (map ends es) ->
  connected n (map ends es) ->
  count_true (flags (init_labels n) (map ends es)) = n - 1.
Proof.
  intros n_pos es_valid Hc. set (lab0 := init_labels n).
  assert (Hl0 : length lab0 = n) by apply length_seq.
  pose proof (classes_run n (map ends es) lab0 Hl0 es_valid) as H.
  unfold lab0 in H at 3. rewrite classes_init in H.
  assert (H1 : classes (run lab0 (map ends es)) <= 1).
  { apply connected_one_class with (n := n) (E := map ends es); auto.
    - rewrite run_length. exact Hl0.
    - intros p Hp. apply run_respects; auto. rewrite Hl0. exact es_valid. }
  assert (H2 : 1 <= classes (run lab0 (map ends es))).
  { apply classes_pos. rewrite run_length. lia. }
  lia.
Qed.

Section Optimal.
Variable n : nat.
Variable es : list entry.
Variable T : list (nat * nat).
Hypothesis es_valid : Forall (valid n) (map ends es).
Hypothesis es_nodup : NoDup (map ends es).
Hypothesis T_nodup : NoDup T.
Hypothesis T_incl : incl T (map ends es).
Hypothesis T_len : length T = n - 1.
Hypothesis T_conn : connected n T.
Hypothesis n_pos : 1 <= n.

Let t (e : entry) : bool := mem_pair T (ends e).
Let lab0 : labels := init_labels n.

Lemma T_valid : Forall (valid n) T.
Proof.
  rewrite Forall_forall in *. intros p Hp. apply es_valid. auto.
Qed.

Lemma prefix_bound k :
  count_t t (firstn k es)
  <= count_true (firstn k (flags lab0 (map ends es))).
Proof.
  rewrite firstn_flags, firstn_map.
  set (P := map ends (firstn k es)).
  assert (HPval : Forall (valid n) P).
  { unfold P. rewrite <- firstn_map. apply Forall_firstn_keep. exact es_valid. }
  assert (HPnd : NoDup P).
  { unfold P. rewrite <- firstn_map. apply NoDup_firstn_keep. exact es_nodup. }
  set (F := filter (mem_pair T) P).
  set (G := filter (fun p => negb (mem_pair P p)) T).
  assert (HF : count_t t (firstn k es) = length F).
  { unfold count_t, F, P. rewrite filter_map_swap, length_map. reflexivity. }
  assert (Hl0 : length lab0 = n) by apply length_seq.
  assert (HFval : Forall (valid n) F).
  { unfold F. rewrite Forall_forall in *. intros p Hp.
    apply filter_In in Hp. apply HPval. tauto. }
  assert (HGval : Forall (valid n) G).
  { unfold G. pose proof T_valid as HT. rewrite Forall_forall in *.
    intros p Hp. apply filter_In in Hp. apply HT. tauto. }
  assert (Hperm : Permutation (F ++ G) T).
  { apply NoDup_Permutation; auto.
    - apply NoDup_app.
      + apply NoDup_filter. exact HPnd.
      + apply NoDup_filter. exact T_nodup.
      + intros p Hp Hq. apply filter_In in Hp, Hq.
        destruct Hp as [Hp _]. destruct Hq as [_ Hq].
        apply negb_true_iff in Hq.
        apply mem_pair_In in Hp. congruence.
    - intros p. rewrite in_app_iff. unfold F, G. rewrite !filter_In.
      rewrite mem_pair_In, negb_true_iff. split.
      + tauto.
      + intros Hp. destruct (mem_pair P p) eqn:E.
        * left. apply mem_pair_In in E. tauto.
        * right. tauto. }
  assert (Hlen : length F + length G = n - 1).
  { rewrite <- T_len, <- (Permutation_length Hperm), length_app. reflexivity. }
  (* the classes after the tree edges of the prefix, then the other ones *)
  assert (H1 : classes (run lab0 (F ++ G)) <= 1).
  { apply connected_one_class with (n := n) (E := T); auto.
    - rewrite run_length. exact Hl0.
    - intros p Hp. apply run_respects.
      + rewrite Hl0. apply Forall_app. split; auto.
      + apply (Permutation_in _ (Permutation_sym Hperm)). exact Hp. }
  rewrite run_app in H1.
  pose proof (@classes_run_lower n G (run lab0 F)
                (eq_trans (run_length F lab0) Hl0) HGval) as H2.
  (* the prefix identifies at least what its tree edges identify *)
  assert (H3 : classes (run lab0 P) <= classes (run lab0 F)).
  { apply refines_classes with (n := n).
    - rewrite run_length. exact Hl0.
    - rewrite run_length. exact Hl0.
    - apply run_refines; auto.
      + intros p Hp. apply run_respects.
        * rewrite Hl0. exact HPval.
        * unfold F in Hp. apply filter_In in Hp. tauto.
      + apply init_refines. }
  pose proof (@classes_run n P lab0 Hl0 HPval) as H4.
  unfold lab0 in H4 at 3. rewrite classes_init in H4.
  lia.
Qed.

Lemma selected_count : count_t t es = n - 1.
Proof.
  unfold count_t. rewrite <- T_len.
  rewrite <- (length_map ends).
  apply Permutation_length.
  apply NoDup_Permutation; auto.
  - unfold t. rewrite <- filter_map_swap. apply NoDup_filter. exact es_nodup.
  - intros p. unfold t. rewrite <- filter_map_swap, filter_In, mem_pair_In.
    split; [tauto|]. intros Hp. split; auto.
Qed.

Lemma selected_perm :
  Permutation (map ends (filter t es)) T.
Proof using es_nodup T_nodup T_incl.
  apply NoDup_Permutation; auto.
  - unfold t. rewrite <- filter_map_swap. apply NoDup_filter. exact es_nodup.
  - intros p. unfold t. rewrite <- filter_map_swap, filter_In, mem_pair_In.
    split; [tauto|]. intros Hp. split; auto.
Qed.

(** The kept entries weigh no more than the entries of the tree [T]. *)
Lemma kept_weight_le :
  sorted_by_data es -> connected n (map ends es) ->
  (qsum (map data (kept (combine es (flags lab0 (map ends es)))))
   <= qsum (map data (filter t es)))%Q.
Proof using es_valid es_nodup T_nodup T_incl T_len T_conn n_pos.
  intros Hs Hc. apply dominate; auto.
  - rewrite flags_length, length_map. reflexivity.
  - apply prefix_bound.
  - rewrite selected_count. unfold lab0. rewrite tree_entries_count; auto.
Qed.

End Optimal.

End KruskalFacts.

(** ** mst: the adjacency of one cluster *)

Module MstFacts.
Import Numeric SpanningTree ListFacts MatrixFacts UnionFindFacts KruskalFacts.

(** *** astype(int) *)

Lemma astype_int_le x : (0 <= x)%Q -> (inject_Z (astype_int x) <= x)%Q.
Proof.
  destruct x as [a b]. unfold Qle, astype_int. simpl. intros H.
  rewrite Z.mul_1_r in *.
  pose proof (@Z.mul_quot_le a (Zpos b) H ltac:(lia)). lia.
Qed.

Lemma astype_int_ge_1 x : (1 <= x)%Q -> (1 <= astype_int x)%Z.
Proof.
  destruct x as [a b]. unfold Qle, astype_int. simpl. intros H.
  apply Z.quot_le_lower_bound; lia.
Qed.

Lemma astype_int_small x : (0 < x)%Q -> (x < 1)%Q -> astype_int x = 0%Z.
Proof.
  destruct x as [a b]. unfold Qlt, astype_int. simpl. intros H0 H1.
  apply Z.quot_small. lia.
Qed.

Lemma astype_int_inject z : astype_int (inject_Z z) = z.
Proof. unfold astype_int. simpl. apply Z.quot_1_r. Qed.

Lemma qnonzero_spec x : qnonzero x = true <-> ~ (x == 0)%Q.
Proof.
  unfold qnonzero, Qeq. simpl. rewrite negb_true_iff, Z.eqb_neq. lia.
Qed.

(** *** Sums and permutations *)

Lemma qsum_perm l l' : Permutation l l' -> (qsum l == qsum l')%Q.
Proof.
  induction 1; simpl; try lra.
Qed.

Lemma zsum_perm l l' : Permutation l l' -> zsum l = zsum l'.
Proof.
  induction 1; simpl; lia.
Qed.

Lemma zsum_astype_le l :
  Forall (fun x => (0 <= x)%Q) l ->
  (inject_Z (zsum (map astype_int l)) <= qsum l)%Q.
Proof.
  induction 1 as [|x l Hx Hl IH]; simpl.
  - apply Qle_refl.
  - rewrite inject_Z_plus. pose proof (astype_int_le x Hx). lra.
Qed.

Lemma qsum_map_ext {A} (f g : A -> Q) l :
  (forall x, In x l -> f x = g x) -> qsum (map f l) = qsum (map g l).
Proof.
  induction l as [|a l IH]; simpl; intros H; auto.
  rewrite H by auto. rewrite IH; auto.
Qed.

(** *** The CSR entries of the upper triangle *)

Lemma csr_triu_In n m e :
  square n m -> In e (csr_entries (triu m)) ->
  valid n (ends e) /\ row e <= col e /\
  data e = qcell m (row e) (col e) /\ qnonzero (data e) = true.
Proof.
  intros Hsq He. destruct e as [[i j] x]. unfold csr_entries in He.
  apply cells_where_In in He. destruct He as (Hi & Hj & Hx & Hp).
  rewrite triu_length in Hi. rewrite triu_row_length in Hj by auto.
  fold (qcell (triu m) i j) in Hx. rewrite triu_cell in Hx by auto.
  pose proof Hsq as [Hl _]. rewrite Hl in Hi.
  rewrite (square_row_length n m i Hsq Hi) in Hj.
  unfold valid, row, col, data, ends. simpl.
  destruct (Nat.ltb_spec j i) as [Hlt|Hge].
  - subst x. discriminate Hp.
  - repeat split; auto.
Qed.

Lemma csr_NoDup m : NoDup (map ends (csr_entries m)).
Proof. unfold csr_entries, ends. apply cells_where_NoDup. Qed.

(** *** Classes and chains of edges *)

Lemma init_linked n E : linked n (init_labels n) E.
Proof.
  intros u v _ _. rewrite !find_init. intros ->. apply joined_refl.
Qed.

Lemma step_linked n lab E p :
  length lab = n -> valid n p ->
  (find lab (fst p) <> find lab (snd p) -> In p E) ->
  linked n lab E -> linked n (step lab p) E.
Proof.
  intros Hl [Hp1 Hp2] Hin Hlk u v Hu Hv. unfold step.
  destruct (Nat.eqb_spec (find lab (fst p)) (find lab (snd p))) as [He|Hne].
  - apply Hlk; auto.
  - specialize (Hin Hne).
    assert (Hedge : joined E (fst p) (snd p)).
    { apply joined_edge. destruct p; exact Hin. }
    rewrite !find_union by lia.
    destruct (Nat.eqb_spec (find lab u) (find lab (snd p))) as [E1|E1];
      destruct (Nat.eqb_spec (find lab v) (find lab (snd p))) as [E2|E2]; intros E0.
    + apply Hlk; auto. congruence.
    + apply joined_trans with (v := snd p); [apply Hlk; auto|].
      apply joined_trans with (v := fst p); [apply joined_sym; auto|].
      apply Hlk; auto.
    + apply joined_trans with (v := fst p); [apply Hlk; auto|].
      apply joined_trans with (v := snd p); [exact Hedge|].
      apply Hlk; auto.
    + apply Hlk; auto.
Qed.

Lemma run_linked n E ps : forall lab,
  length lab = n -> Forall (valid n) ps ->
  incl (kept_pos lab ps) E ->
  linked n lab E -> linked n (run lab ps) E.
Proof.
  induction ps as [|p r IH]; intros lab Hl Hval Hk Hlk; simpl; auto.
  inversion Hval; subst. fold (step lab p).
  unfold kept_pos in Hk. simpl in Hk.
  apply IH; auto.
  - apply step_length.
  - intros q Hq. apply Hk.
    destruct (find lab (fst p) =? find lab (snd p)); simpl; auto.
  - apply step_linked; auto.
    intros Hne. apply Hk.
    destruct (Nat.eqb_spec (find lab (fst p)) (find lab (snd p)));
      [contradiction|]. simpl. auto.
Qed.

Lemma kept_pos_incl lab ps : incl (kept_pos lab ps) ps.
Proof.
  unfold kept_pos. intros p Hp. apply in_map_iff in Hp.
  destruct Hp as [[q b] [E Hin]]. simpl in E. subst q.
  apply filter_In in Hin. destruct Hin as [Hin _].
  eapply in_combine_l; eauto.
Qed.

Lemma kept_ends es : forall bs,
  map ends (kept (combine es bs))
  = map fst (filter snd (combine (map ends es) bs)).
Proof.
  unfold kept.
  induction es as [|e es IH]; intros [|b bs]; simpl; auto.
  destruct b; simpl; rewrite IH; reflexivity.
Qed.

(** [connectedb] decides [connected]. *)
Lemma connectedb_sound n E : connectedb n E = true -> connected n E.
Proof.
  unfold connectedb. intros H. apply andb_true_iff in H. destruct H as [Hv Hc].
  apply Nat.leb_le in Hc.
  assert (Hval : Forall (valid n) E).
  { rewrite Forall_forall. intros p Hp.
    rewrite forallb_forall in Hv. specialize (Hv p Hp).
    apply andb_true_iff in Hv. destruct Hv as [H1 H2].
    apply Nat.ltb_lt in H1, H2. split; auto. }
  intros u v Hu Hv'.
  apply (@run_linked n E E (init_labels n)); auto.
  - apply length_seq.
  - apply kept_pos_incl.
  - apply init_linked.
  - apply one_class_same; auto; rewrite run_length; unfold init_labels;
      rewrite length_seq; auto.
Qed.

(** *** The dense result *)

Lemma lookup_entry_In K e :
  NoDup (map ends K) -> In e K -> lookup_entry K (row e) (col e) = data e.
Proof.
  unfold lookup_entry.
  induction K as [|x K IH]; simpl; intros Hnd Hin; [contradiction|].
  inversion Hnd as [|? ? Hn Hnd']; subst.
  destruct ((row x =? row e) && (col x =? col e)) eqn:E.
  - destruct Hin as [->|Hin]; auto.
    exfalso. apply Hn. apply andb_true_iff in E. destruct E as [E1 E2].
    apply Nat.eqb_eq in E1, E2.
    apply in_map_iff. exists e. split; auto.
    unfold ends, row, col in *. destruct x as [[? ?] ?], e as [[? ?] ?].
    simpl in *. congruence.
  - destruct Hin as [->|Hin]; auto.
    rewrite !Nat.eqb_refl in E. discriminate.
Qed.

Lemma lookup_entry_cases K i j :
  (exists e, In e K /\ row e = i /\ col e = j /\ lookup_entry K i j = data e)
  \/ lookup_entry K i j = 0%Q.
Proof.
  unfold lookup_entry.
  destruct (List.find (fun e => (row e =? i) && (col e =? j)) K) as [e|] eqn:E.
  - left. apply find_some in E. destruct E as [Hin E].
    apply andb_true_iff in E. destruct E as [E1 E2].
    apply Nat.eqb_eq in E1, E2. exists e. auto.
  - right. reflexivity.
Qed.

Lemma mst_shape m : length (mst_adjacency m) = length m.
Proof. unfold mst_adjacency, toarray. rewrite length_map, tabulate_length. reflexivity. Qed.

Lemma mst_row_length m i :
  i < length m -> length (nth i (mst_adjacency m) []) = length m.
Proof.
  intros Hi. unfold mst_adjacency, toarray. rewrite map_map_row_length.
  apply tabulate_row_length. auto.
Qed.

Lemma mst_cell m i j :
  i < length m -> j < length m ->
  zcell (mst_adjacency m) i j
  = astype_int (lookup_entry (minimum_spanning_tree (triu m)) i j).
Proof.
  intros Hi Hj. unfold zcell, mst_adjacency, toarray.
  rewrite (@cell_map_map Q Z astype_int 0%Q 0%Z).
  - rewrite cell_tabulate; auto.
  - rewrite tabulate_length. auto.
  - rewrite tabulate_row_length; auto.
Qed.

(** The edges read off the adjacency are the kept entries with their data
    truncated, as long as no truncation gives zero. *)
Lemma adjacency_edges_perm n m :
  square n m ->
  let K := minimum_spanning_tree (triu m) in
  NoDup (map ends K) -> Forall (valid n) (map ends K) ->
  (forall e, In e K -> astype_int (data e) <> 0%Z) ->
  Permutation (adjacency_edges (mst_adjacency m))
              (map (fun e => (row e, col e, astype_int (data e))) K).
Proof.
  intros Hsq K Hnd Hval Hnz. pose proof Hsq as [Hl _].
  apply NoDup_Permutation.
  - eapply NoDup_map_inv. unfold adjacency_edges. apply cells_where_NoDup.
  - apply NoDup_map_inv with (f := fst). rewrite map_map.
    erewrite map_ext; [exact Hnd|]. intros [[? ?] ?]. reflexivity.
  - intros [[i j] z]. unfold adjacency_edges. rewrite cells_where_In.
    rewrite mst_shape. rewrite in_map_iff. split.
    + intros (Hi & Hj & Hz & Hp). rewrite mst_row_length in Hj by auto.
      fold (zcell (mst_adjacency m) i j) in Hz. rewrite mst_cell in Hz by auto.
      fold K in Hz.
      destruct (lookup_entry_cases K i j) as [[e (He & E1 & E2 & E3)]|E].
      * exists e. split; auto. rewrite <- E3, <- Hz. congruence.
      * rewrite E in Hz. subst z. discriminate Hp.
    + intros [e [E He]]. inversion E; subst i j z. clear E.
      rewrite Forall_forall in Hval.
      assert (Hv : valid n (ends e)) by (apply Hval; apply in_map; auto).
      destruct Hv as [Hr Hc]. change (row e < n) in Hr. change (col e < n) in Hc.
      rewrite mst_row_length by lia.
      fold (zcell (mst_adjacency m) (row e) (col e)). rewrite mst_cell by lia.
      fold K. rewrite lookup_entry_In by auto.
      repeat split; try lia.
      apply negb_true_iff, Z.eqb_neq. apply Hnz. exact He.
Qed.

(** *** The kept entries of a connected cluster *)

Section Cluster.
Variable n : nat.
Variable m : matrix Q.
Hypothesis m_square : square n m.
Hypothesis n_pos : 1 <= n.
Hypothesis m_connected : connected n (graph_edges m).

Let es : list entry := argsort (csr_entries (triu m)).
Let K : list entry := minimum_spanning_tree (triu m).
Let lab0 : labels := init_labels n.

Lemma es_perm : Permutation (csr_entries (triu m)) es.
Proof. apply argsort_perm. Qed.

Lemma es_valid : Forall (valid n) (map ends es).
Proof.
  rewrite Forall_forall. intros p Hp. apply in_map_iff in Hp.
  destruct Hp as [e [<- He]].
  apply (Permutation_in _ (Permutation_sym es_perm)) in He.
  apply (csr_triu_In n m e m_square He).
Qed.

Lemma es_nodup : NoDup (map ends es).
Proof.
  apply (Permutation_NoDup (Permutation_map ends es_perm)). apply csr_NoDup.
Qed.

Lemma es_connected : connected n (map ends es).
Proof.
  intros u v Hu Hv. apply joined_incl with (E := graph_edges m).
  - intros p Hp. unfold graph_edges in Hp.
    apply (Permutation_in _ (Permutation_map ends es_perm)). exact Hp.
  - apply m_connected; auto.
Qed.

Lemma tree_entries_flags :
  K = kept (combine es (flags lab0 (map ends es))).
Proof.
  unfold K, minimum_spanning_tree. rewrite triu_length.
  destruct m_square as [Hl _]. rewrite Hl. f_equal.
  apply kruskal_flags.
  - apply length_seq.
  - exact es_valid.
  - unfold lab0. rewrite classes_init. reflexivity.
Qed.

Lemma tree_entries_length : length K = n - 1.
Proof.
  rewrite tree_entries_flags, kept_combine_length.
  - apply tree_entries_count; auto using es_valid, es_connected.
  - rewrite flags_length, length_map. reflexivity.
Qed.

Lemma tree_entries_incl : incl K (csr_entries (triu m)).
Proof.
  rewrite tree_entries_flags. intros e He.
  apply kept_combine_incl in He.
  apply (Permutation_in _ (Permutation_sym es_perm)). exact He.
Qed.

Lemma tree_entries_nodup : NoDup (map ends K).
Proof. rewrite tree_entries_flags. apply kept_combine_NoDup. apply es_nodup. Qed.

Lemma tree_entries_valid : Forall (valid n) (map ends K).
Proof.
  rewrite Forall_forall. intros p Hp. apply in_map_iff in Hp.
  destruct Hp as [e [<- He]]. apply tree_entries_incl in He.
  apply (csr_triu_In n m e m_square He).
Qed.

Lemma tree_entries_connected : connected n (map ends K).
Proof.
  assert (Hl0 : length lab0 = n) by apply length_seq.
  intros u v Hu Hv.
  apply (@run_linked n (map ends K) (map ends es) lab0); auto.
  - exact es_valid.
  - rewrite tree_entries_flags, kept_ends. unfold kept_pos. apply incl_refl.
  - apply init_linked.
  - apply one_class_same; try (rewrite run_length, Hl0; auto).
    apply connected_one_class with (n := n) (E := map ends es).
    + rewrite run_length. exact Hl0.
    + exact es_connected.
    + intros p Hp. apply run_respects; auto. rewrite Hl0. exact es_valid.
Qed.

Lemma tree_entries_weight T :
  spanning_tree n m T -> (qsum (map data K) <= tree_weight m T)%Q.
Proof.
  intros (Tnd & Tin & Tlen & Tconn).
  assert (Tin' : incl T (map ends es)).
  { intros p Hp. apply (Permutation_in _ (Permutation_map ends es_perm)).
    apply Tin. exact Hp. }
  rewrite tree_entries_flags.
  eapply Qle_trans.
  - apply (kept_weight_le n es T); auto using es_valid, es_nodup, es_connected.
    apply argsort_sorted.
  - unfold tree_weight.
    rewrite <- (qsum_perm _ _ (Permutation_map _
                  (selected_perm es T es_nodup Tnd Tin'))).
    rewrite map_map.
    erewrite qsum_map_ext; [apply Qle_refl|].
    intros e He. apply filter_In in He. destruct He as [He _].
    apply (Permutation_in _ (Permutation_sym es_perm)) in He.
    apply (csr_triu_In n m e m_square He).
Qed.

End Cluster.

(** *** Truncation toward zero *)

Lemma astype_int_truncates x :
  ((0 <= x)%Q -> astype_int x = Qfloor x) /\
  ((x <= 0)%Q -> astype_int x = Qceiling x).
Proof.
  destruct x as [a b]. unfold astype_int, Qceiling, Qfloor, Qle. simpl.
  rewrite !Z.mul_1_r. split; intros H.
  - apply Z.quot_div_nonneg; lia.
  - rewrite <- (Z.opp_involutive a) at 1. rewrite Z.quot_opp_l by lia.
    f_equal. apply Z.quot_div_nonneg; lia.
Qed.

Lemma tree_weights_ge_1 n m :
  square n m ->
  (forall i j, i <= j -> j < n ->
     qnonzero (qcell m i j) = true -> (1 <= qcell m i j)%Q) ->
  forall e, In e (csr_entries (triu m)) -> (1 <= data e)%Q.
Proof.
  intros Hsq Hw e He.
  destruct (csr_triu_In n m e Hsq He) as ([Hr Hc] & Hle & Hd & Hnz).
  rewrite Hd in *. apply Hw; auto.
Qed.

End MstFacts.

(** ** Claims on [mst] *)

Module MstClaims.
Import Numeric SpanningTree ListFacts MatrixFacts UnionFindFacts KruskalFacts MstFacts.

(** X18.  For every cluster handed to [mst] whose sub-matrix is square of
    size [n >= 2], describes a connected graph, and has every non-zero cell
    of its upper triangle at least 1 (as the integer distances of the
    simple mode are), the adjacency returned for the cluster holds exactly
    [n - 1] edges, these edges form a spanning tree of the cluster, and
    their total weight, as stored and as read in the sub-matrix, is at most
    the weight of every spanning tree over the same sub-matrix. *)
Theorem mst_minimum_spanning_tree
    {key : Type} (mat : list (key * frame Q)) (c : key) (ms : list string)
    (m : matrix Q) (n : nat) :
  In (c, {| frame_index := ms; frame_values := m |}) mat ->
  square n m -> 2 <= n ->
  (forall i j, i <= j -> j < n ->
     qnonzero (qcell m i j) = true -> (1 <= qcell m i j)%Q) ->
  connected n (graph_edges m) ->
  In (c, {| frame_index := ms; frame_values := mst_adjacency m |}) (mst mat) /\
  let edges := adjacency_edges (mst_adjacency m) in
  length edges = n - 1 /\
  spanning_tree n m (map fst edges) /\
  forall T, spanning_tree n m T ->
    (inject_Z (zsum (map snd edges)) <= tree_weight m T)%Q /\
    (tree_weight m (map fst edges) <= tree_weight m T)%Q.
Proof.
  intros Hin Hsq Hn Hw Hconn.
  split.
  { unfold mst. apply in_map_iff.
    exists (c, {| frame_index := ms; frame_values := m |}). auto. }
  assert (Hn1 : 1 <= n) by lia.
  set (K := minimum_spanning_tree (triu m)).
  pose proof (tree_entries_nodup n m Hsq) as Knd.
  pose proof (tree_entries_valid n m Hsq) as Kval.
  pose proof (tree_entries_incl n m Hsq) as Kin.
  pose proof (tree_entries_length n m Hsq Hn1 Hconn) as Klen.
  pose proof (tree_entries_connected n m Hsq Hconn) as Kconn.
  fold K in Knd, Kval, Kin, Klen, Kconn.
  assert (Kw : forall e, In e K -> (1 <= data e)%Q).
  { intros e He. apply (tree_weights_ge_1 n m Hsq Hw). apply Kin. exact He. }
  assert (Hperm : Permutation (adjacency_edges (mst_adjacency m))
                    (map (fun e => (row e, col e, astype_int (data e))) K)).
  { apply (adjacency_edges_perm n m Hsq); auto.
    intros e He. pose proof (astype_int_ge_1 (data e) (Kw e He)). lia. }
  assert (Hpos : Permutation (map fst (adjacency_edges (mst_adjacency m)))
                             (map ends K)).
  { rewrite (Permutation_map fst Hperm). rewrite map_map.
    erewrite map_ext; [reflexivity|]. intros [[? ?] ?]. reflexivity. }
  assert (Htw : (tree_weight m (map fst (adjacency_edges (mst_adjacency m)))
                 == qsum (map data K))%Q).
  { unfold tree_weight.
    rewrite (qsum_perm _ _ (Permutation_map _ Hpos)). rewrite map_map.
    erewrite qsum_map_ext; [reflexivity|].
    intros e He. symmetry.
    apply (csr_triu_In n m e Hsq (Kin e He)). }
  cbv zeta. split; [|split].
  - rewrite (Permutation_length Hperm), length_map. exact Klen.
  - repeat split.
    + unfold adjacency_edges. apply cells_where_NoDup.
    + intros p Hp. apply (Permutation_in _ Hpos) in Hp.
      unfold graph_edges. apply in_map_iff in Hp. destruct Hp as [e [<- He]].
      apply in_map. apply Kin. exact He.
    + rewrite (Permutation_length Hpos), length_map. exact Klen.
    + intros u v Hu Hv. apply joined_incl with (E := map ends K).
      * intros p Hp. apply (Permutation_in _ (Permutation_sym Hpos)). exact Hp.
      * apply Kconn; auto.
  - intros T HT.
    pose proof (tree_entries_weight n m Hsq Hn1 Hconn T HT) as HKT. fold K in HKT.
    split.
    + eapply Qle_trans; [|exact HKT].
      rewrite (zsum_perm _ _ (Permutation_map snd Hperm)). rewrite map_map.
      simpl. rewrite <- (map_map data astype_int).
      apply zsum_astype_le. rewrite Forall_forall. intros x Hx.
      apply in_map_iff in Hx. destruct Hx as [e [<- He]].
      pose proof (Kw e He). lra.
    + rewrite Htw. exact HKT.
Qed.

Lemma mst_minimum_spanning_tree_witness :
  In ("c1"%string, {| frame_index := labels3; frame_values := mst_adjacency m3 |})
     (mst [("c1"%string, {| frame_index := labels3; frame_values := m3 |})]) /\
  let edges := adjacency_edges (mst_adjacency m3) in
  length edges = 3 - 1 /\
  spanning_tree 3 m3 (map fst edges) /\
  forall T, spanning_tree 3 m3 T ->
    (inject_Z (zsum (map snd edges)) <= tree_weight m3 T)%Q /\
    (tree_weight m3 (map fst edges) <= tree_weight m3 T)%Q.
Proof.
  apply (mst_minimum_spanning_tree
           [("c1"%string, {| frame_index := labels3; frame_values := m3 |})]
           "c1"%string labels3 m3 3).
  - simpl. auto.
  - split; [reflexivity|]. repeat constructor.
  - lia.
  - intros i j Hij Hj.
    destruct j as [|[|[|j]]]; try lia;
      destruct i as [|[|[|i]]]; try lia; vm_compute; intros; discriminate.
  - apply connectedb_sound. vm_compute. reflexivity.
Defined.

(** C1.  [mst] does not return a minimum spanning tree for every connected
    cluster.  For two entities at combined distance 1/2 (weighted mode, two
    layers, distances 1 and 0) the sub-matrix is square, of size 2 and
    connected, and scipy's tree holds its one edge; [.astype(int)] stores 0
    for it, and the adjacency returned for the cluster holds no edge
    instead of [n - 1 = 1]. *)
Lemma mst_fractional_cluster_has_no_edge :
  square 2 mhalf /\ 2 <= 2 /\ connected 2 (graph_edges mhalf) /\
  In ("c1"%string,
      {| frame_index := labels2; frame_values := mst_adjacency mhalf |})
     (mst [("c1"%string, {| frame_index := labels2; frame_values := mhalf |})]) /\
  length (minimum_spanning_tree (triu mhalf)) = 2 - 1 /\
  length (adjacency_edges (mst_adjacency mhalf)) <> 2 - 1.
Proof.
  split; [split; [reflexivity|repeat constructor]|].
  split; [lia|].
  split; [apply connectedb_sound; vm_compute; reflexivity|].
  split; [simpl; auto|].
  split; [vm_compute; reflexivity|].
  vm_compute. discriminate.
Qed.

(** C10.  Every cell of every adjacency returned by [mst] is the cell of
    the spanning tree truncated toward zero (the floor of a non-negative
    weight, the ceiling of a non-positive one); so a tree edge whose weight
    lies strictly between 0 and 1 is stored as 0 and is no edge of the
    list read off the adjacency. *)
Theorem mst_cells_truncated
    {key : Type} (mat : list (key * frame Q)) (c : key) (df : frame Z) :
  In (c, df) (mst mat) ->
  exists d, In (c, d) mat /\ frame_index df = frame_index d /\
    let m := frame_values d in
    let a := frame_values df in
    let tree := toarray (length m) (minimum_spanning_tree (triu m)) in
    forall i j,
      zcell a i j = astype_int (qcell tree i j) /\
      ((0 <= qcell tree i j)%Q -> zcell a i j = Qfloor (qcell tree i j)) /\
      ((qcell tree i j <= 0)%Q -> zcell a i j = Qceiling (qcell tree i j)) /\
      ((0 < qcell tree i j)%Q -> (qcell tree i j < 1)%Q ->
         zcell a i j = 0%Z /\
         forall w, ~ In (i, j, w) (adjacency_edges a)).
Proof.
  intros Hin. unfold mst in Hin. apply in_map_iff in Hin.
  destruct Hin as [[c' d] [E Hin]]. simpl in E. inversion E; subst c' df. clear E.
  exists d. split; [exact Hin|]. split; [reflexivity|].
  cbv zeta. simpl frame_values. set (m := frame_values d). intros i j.
  set (t := qcell (toarray (length m) (minimum_spanning_tree (triu m))) i j).
  assert (Hcell : zcell (mst_adjacency m) i j = astype_int t).
  { unfold zcell, mst_adjacency, t, qcell.
    change 0%Z with (astype_int 0%Q). apply cell_map_map_default. }
  destruct (astype_int_truncates t) as [Hfl Hce].
  split; [exact Hcell|]. split; [|split].
  - intros H. rewrite Hcell. auto.
  - intros H. rewrite Hcell. auto.
  - intros H0 H1.
    assert (Hz : zcell (mst_adjacency m) i j = 0%Z).
    { rewrite Hcell. apply astype_int_small; auto. }
    split; [exact Hz|].
    intros w Hw. unfold adjacency_edges in Hw. apply cells_where_In in Hw.
    destruct Hw as (_ & _ & Hwz & Hp).
    fold (zcell (mst_adjacency m) i j) in Hwz. rewrite Hz in Hwz.
    subst w. discriminate Hp.
Qed.

Lemma mst_cells_truncated_witness :
  exists d,
    In ("c1"%string, d)
       [("c1"%string, {| frame_index := labels2; frame_values := mhalf |})] /\
    labels2 = frame_index d /\
    let m := frame_values d in
    let tree := toarray (length m) (minimum_spanning_tree (triu m)) in
    forall i j,
      zcell (mst_adjacency mhalf) i j = astype_int (qcell tree i j) /\
      ((0 <= qcell tree i j)%Q ->
         zcell (mst_adjacency mhalf) i j = Qfloor (qcell tree i j)) /\
      ((qcell tree i j <= 0)%Q ->
         zcell (mst_adjacency mhalf) i j = Qceiling (qcell tree i j)) /\
      ((0 < qcell tree i j)%Q -> (qcell tree i j < 1)%Q ->
         zcell (mst_adjacency mhalf) i j = 0%Z /\
         forall w, ~ In (i, j, w) (adjacency_edges (mst_adjacency mhalf))).
Proof.
  apply (mst_cells_truncated
           [("c1"%string, {| frame_index := labels2; frame_values := mhalf |})]
           "c1"%string
           {| frame_index := labels2; frame_values := mst_adjacency mhalf |}).
  simpl. auto.
Defined.

(** The tree of the fractional cluster does hold the edge (0, 1) with
    weight 1/2; the adjacency stores 0 for it. *)
Example mst_fractional_cluster_cells :
  minimum_spanning_tree (triu mhalf) = [(0, 1, (1 # 2)%Q)] /\
  mst_adjacency mhalf = [[0%Z; 0%Z]; [0%Z; 0%Z]] /\
  adjacency_edges (mst_adjacency mhalf) = [].
Proof. vm_compute. auto. Qed.

End MstClaims.

(** ** Where the edges of an adjacency lie *)

Module AdjacencyFacts.
Import Numeric SpanningTree ListFacts MatrixFacts UnionFindFacts KruskalFacts MstFacts.

Lemma kept_all_false (l : list entry) : kept (map (fun e => (e, false)) l) = [].
Proof. unfold kept. induction l; simpl; auto. Qed.

(** A kept entry links two different vertices. *)
Lemma kruskal_kept_distinct n es : forall lab cnt e,
  In e (kept (kruskal n lab cnt es)) -> row e <> col e.
Proof.
  induction es as [|x es IH]; intros lab cnt e Hin; [contradiction|].
  cbn [kruskal] in Hin.
  destruct (cnt <? n - 1).
  - destruct (Nat.eqb_spec (find lab (row x)) (find lab (col x))) as [E|E].
    + apply (IH lab cnt). exact Hin.
    + unfold kept in Hin. simpl in Hin. destruct Hin as [<-|Hin].
      * intros Heq. apply E. rewrite Heq. reflexivity.
      * apply (IH (union lab (row x) (col x)) (S cnt)). exact Hin.
  - change (kept (map (fun e' => (e', false)) (x :: es))) with
      (kept (map (fun e' => (e', false)) (x :: es))) in Hin.
    rewrite kept_all_false in Hin. contradiction.
Qed.

(** The edges of the adjacency [mst] returns lie strictly above the
    diagonal. *)
Lemma mst_adjacency_edges_upper n m i j z :
  square n m -> In (i, j, z) (adjacency_edges (mst_adjacency m)) ->
  i < j /\ j < n.
Proof.
  intros Hsq Hin. pose proof Hsq as [Hl _].
  unfold adjacency_edges in Hin. apply cells_where_In in Hin.
  destruct Hin as (Hi & Hj & Hz & Hp).
  rewrite mst_shape in Hi. rewrite mst_row_length in Hj by auto.
  fold (zcell (mst_adjacency m) i j) in Hz. rewrite mst_cell in Hz by auto.
  destruct (lookup_entry_cases (minimum_spanning_tree (triu m)) i j)
    as [[e (He & E1 & E2 & E3)]|E].
  - pose proof (tree_entries_incl n m Hsq e He) as Hcsr.
    destruct (csr_triu_In n m e Hsq Hcsr) as ([Hr Hc] & Hle & _ & _).
    assert (Hne : row e <> col e).
    { unfold minimum_spanning_tree in He.
      apply (kruskal_kept_distinct _ _ _ _ e He). }
    subst i j. split; lia.
  - rewrite E in Hz. subst z. discriminate Hp.
Qed.

End AdjacencyFacts.

(** ** Combined distance matrices *)

Module DistanceFacts.
Import Numeric Errors Distance MatrixFacts.

Lemma madd_cell n a b i j :
  square n a -> square n b -> i < n -> j < n ->
  qcell (madd a b) i j = (qcell a i j + qcell b i j)%Q.
Proof.
  intros Ha Hb Hi Hj. unfold qcell, cell, madd.
  pose proof Ha as [La _]. pose proof Hb as [Lb _].
  rewrite (nth_map_in _ _ i ([], []) []) by (rewrite length_combine; lia).
  rewrite combine_nth by lia. simpl.
  pose proof (square_row_length n a i Ha Hi) as Ra.
  pose proof (square_row_length n b i Hb Hi) as Rb.
  rewrite (nth_map_in _ _ j (0%Q, 0%Q) 0%Q) by (rewrite length_combine; lia).
  rewrite combine_nth by lia. reflexivity.
Qed.

Lemma madd_square n a b : square n a -> square n b -> square n (madd a b).
Proof.
  intros [La Ra] [Lb Rb]. unfold madd. split.
  - rewrite length_map, length_combine. lia.
  - rewrite Forall_forall in *. intros r Hr. apply in_map_iff in Hr.
    destruct Hr as [[x y] [<- Hin]]. simpl.
    rewrite length_map, length_combine.
    pose proof (in_combine_l _ _ _ _ Hin). pose proof (in_combine_r _ _ _ _ Hin).
    rewrite (Ra x), (Rb y); auto. lia.
Qed.

Lemma map_map_cell n (f : Q -> Q) a i j :
  square n a -> i < n -> j < n ->
  qcell (map (map f) a) i j = f (qcell a i j).
Proof.
  intros Ha Hi Hj. pose proof Ha as [La _]. unfold qcell.
  apply cell_map_map. { lia. }
  rewrite (square_row_length n a i Ha Hi). exact Hj.
Qed.

Lemma map_map_square n (f : Q -> Q) a : square n a -> square n (map (map f) a).
Proof.
  intros [La Ra]. split.
  - rewrite length_map. exact La.
  - rewrite Forall_forall in *. intros r Hr. apply in_map_iff in Hr.
    destruct Hr as [x [<- Hin]]. rewrite length_map. auto.
Qed.

Lemma mscale_cell n w a i j :
  square n a -> i < n -> j < n ->
  qcell (mscale w a) i j = (w * qcell a i j)%Q.
Proof. intros. unfold mscale. apply (map_map_cell n); auto. Qed.

Example total_dist_weights_mismatch :
  total_dist "weighted" (Some [1; 1; 1]%Q) layers2 = Raise IndexError.
Proof. reflexivity. Qed.

End DistanceFacts.

(** ** Combined distance matrices in binary64 *)

Module Float64Facts.
Import Numeric Errors Layout MatrixFacts.














(** The rounding changes no outcome: on as many layers and as many
    weights, the binary64 computation raises exactly when the computation
    on the exact values does, and with the same exception. *)
Lemma total_dist_raises_alike
    (distance_mode : string) (ws : option (list float)) (qs : option (list Q))
    (layers : list farray) (exact_layers : list (matrix Q)) :
  length layers = length exact_layers ->
  option_map (@length float) ws = option_map (@length Q) qs ->
  match Float64.total_dist distance_mode ws layers,
        Distance.total_dist distance_mode qs exact_layers with
  | Ok _, Ok _ => True
  | Raise e, Raise e' => e = e'
  | _, _ => False
  end.
Proof.
  intros Hl Hw. unfold Float64.total_dist, Distance.total_dist.
  destruct (String.eqb distance_mode "simple"); [exact I|].
  destruct (String.eqb distance_mode "weighted"); [|reflexivity].
  destruct ws as [ws|], qs as [qs|]; simpl in Hw; try discriminate; [|exact I].
  inversion Hw as [Hlen]. rewrite Hlen, Hl.
  destruct (length qs =? length exact_layers); [exact I|reflexivity].
Qed.

(** With the two layers of the running example the two matrices do agree,
    and with the weights (0.3, 0.7) of the specification the cell is the
    float [0.3 * 5 + 0.7 * 2]. *)
Example total_dist_two_layers :
  Float64.total_dist "weighted" None Float64.layers2
  = Ok [[0; 3.5]; [3.5; 0]]%float /\
  Float64.total_dist "simple" None Float64.layers2
  = Ok [[0; 7]; [7; 0]]%float /\
  (exists W,
     Float64.total_dist "weighted" (Some [0.3; 0.7]%float) Float64.layers2 = Ok W /\
     fcell W 0 1 = (0.3 * 5 + 0.7 * 2)%float) /\
  Float64.total_dist "weighted" (Some [1; 1; 1]%float) Float64.layers2
  = Raise IndexError.
Proof.
  split; [vm_compute; reflexivity|]. split; [vm_compute; reflexivity|].
  split; [|reflexivity].
  eexists. split; [reflexivity|]. vm_compute. reflexivity.
Qed.

(** Weighted mode on two layers gives two entities at distances 1 and 0 the
    combined distance 1/2: the sub-matrix [mhalf]. *)
Example weighted_mode_gives_one_half :
  Float64.total_dist "weighted" None Float64.layers_half
  = Ok [[0; 0.5]; [0.5; 0]]%float /\
  (0.5 + 0.5 = 1)%float.
Proof. vm_compute. auto. Qed.

End Float64Facts.

(** ** Dictionaries and graphs *)

Module NxFacts.
Import Numeric Errors Dict Nx.

Lemma keys_alter {V} (f : V -> V) k (d : dict V) : keys (alter f k d) = keys d.
Proof.
  unfold keys, alter. rewrite map_map. apply map_ext.
  intros [k' v]. simpl. destruct (String.eqb k' k); reflexivity.
Qed.

Lemma keys_del {V} k (d : dict V) :
  keys (del k d) = filter (fun x => negb (String.eqb x k)) (keys d).
Proof.
  unfold keys, del. induction d as [|[k' v] d IH]; simpl; auto.
  destruct (String.eqb k' k); simpl; rewrite IH; reflexivity.
Qed.

Lemma get_None_keys {V} k (d : dict V) : get k d = None -> ~ In k (keys d).
Proof.
  induction d as [|[k' v] d IH]; simpl; auto.
  destruct (String.eqb_spec k' k); [discriminate|].
  intros H [E|Hin]; [congruence|]. apply IH; auto.
Qed.

Lemma filter_id {A} (p : A -> bool) (l : list A) :
  (forall x, In x l -> p x = true) -> filter p l = l.
Proof.
  induction l as [|a l IH]; simpl; intros H; auto.
  rewrite H by auto. f_equal. apply IH. auto.
Qed.

Lemma keys_fold_alter {V} (f : string -> V -> V) us : forall d : dict V,
  keys (fold_left (fun g u => alter (f u) u g) us d) = keys d.
Proof.
  induction us as [|u us IH]; intros d; simpl; auto.
  rewrite IH. apply keys_alter.
Qed.

Lemma nodes_remove_node n G :
  nodes (remove_node n G) = filter (fun x => negb (String.eqb x n)) (nodes G).
Proof.
  unfold remove_node, nodes. destruct (get n G) as [nbrs|] eqn:E.
  - rewrite keys_del. f_equal.
    apply (keys_fold_alter (fun _ => del n)).
  - symmetry. apply filter_id. intros x Hx.
    apply negb_true_iff. apply String.eqb_neq. intros ->.
    apply (get_None_keys n G E). exact Hx.
Qed.

Lemma nodes_remove_nodes_from ns : forall G,
  nodes (remove_nodes_from ns G)
  = filter (fun x => negb (existsb (String.eqb x) ns)) (nodes G).
Proof.
  unfold remove_nodes_from.
  induction ns as [|n ns IH]; intros G; simpl.
  - symmetry. apply filter_id. auto.
  - rewrite IH, nodes_remove_node.
    induction (nodes G) as [|x l IHl]; simpl; auto.
    destruct (String.eqb x n); simpl; [exact IHl|].
    destruct (existsb (String.eqb x) ns); simpl; rewrite IHl; reflexivity.
Qed.

Lemma existsb_eqb_In x l : existsb (String.eqb x) l = true <-> In x l.
Proof.
  rewrite existsb_exists. split.
  - intros [y [Hy E]]. apply String.eqb_eq in E. subst. exact Hy.
  - intros H. exists x. split; auto. apply String.eqb_refl.
Qed.

End NxFacts.

(** ** generate_layout *)

Module GenerateLayoutFacts.
Import Numeric Errors Dict Nx Distance Layout Network NxFacts.

Lemma filter_not_member_filter (p : string -> bool) (l : list string) :
  filter (fun x => negb (existsb (String.eqb x) (filter p l))) l
  = filter (fun x => negb (p x)) l.
Proof.
  apply filter_ext_in. intros x Hx. f_equal.
  destruct (p x) eqn:E.
  - apply existsb_eqb_In. apply filter_In. auto.
  - destruct (existsb (String.eqb x) (filter p l)) eqn:E'; auto.
    apply existsb_eqb_In in E'. apply filter_In in E'. destruct E'. congruence.
Qed.

Lemma nodes_trim_isolates G :
  nodes (trim G 2) = filter (fun n => negb (degree G n =? 0)) (nodes G).
Proof.
  unfold trim. simpl. rewrite nodes_remove_nodes_from. unfold isolates.
  apply filter_not_member_filter.
Qed.


Lemma degree_zero G n : degree G n = 0 <-> neighbors G n = [].
Proof.
  unfold degree. destruct (neighbors G n) as [|kv l]; simpl.
  - tauto.
  - split; [lia|discriminate].
Qed.

(** *** Graphs without edges *)

Lemma no_edges_add_node n G : no_edges G -> no_edges (add_node n G).
Proof.
  unfold add_node, no_edges. intros H. destruct (mem n G); auto.
  apply Forall_app. split; auto.
Qed.

Lemma no_edges_add_nodes_from ns : forall G,
  no_edges G -> no_edges (add_nodes_from ns G).
Proof.
  unfold add_nodes_from.
  induction ns as [|n ns IH]; intros G H; simpl; auto.
  apply IH. apply no_edges_add_node. exact H.
Qed.

Lemma get_In {V} k (d : dict V) v : get k d = Some v -> In (k, v) d.
Proof.
  induction d as [|[k' v'] d IH]; simpl; [discriminate|].
  destruct (String.eqb_spec k' k).
  - intros E. inversion E; subst. auto.
  - intros E. right. apply IH. exact E.
Qed.

Lemma no_edges_remove_node n G : no_edges G -> no_edges (remove_node n G).
Proof.
  unfold remove_node, no_edges. intros H.
  destruct (get n G) as [nbrs|] eqn:E; auto.
  apply get_In in E. rewrite Forall_forall in H.
  pose proof (H _ E) as Hn. simpl in Hn. subst nbrs. simpl.
  unfold del. rewrite Forall_forall. intros kv Hkv.
  apply filter_In in Hkv. apply H. tauto.
Qed.

Lemma no_edges_remove_nodes_from ns : forall G,
  no_edges G -> no_edges (remove_nodes_from ns G).
Proof.
  unfold remove_nodes_from.
  induction ns as [|n ns IH]; intros G H; simpl; auto.
  apply IH. apply no_edges_remove_node. exact H.
Qed.

Lemma no_edges_trim G min_size : no_edges G -> no_edges (trim G min_size).
Proof.
  intros H. unfold trim.
  destruct (min_size =? 2)%Z; [apply no_edges_remove_nodes_from; auto|].
  destruct (2 <? min_size)%Z; [apply no_edges_remove_nodes_from; auto|auto].
Qed.

Lemma no_edges_edges G : no_edges G -> Nx.edges G = [].
Proof.
  unfold Nx.edges. generalize (@nil string).
  induction G as [|[n nbrs] G IH]; intros seen H; simpl; auto.
  inversion H as [|? ? Hn HG]; subst. simpl in Hn. subst nbrs. simpl.
  apply IH. exact HG.
Qed.

Section Generator.
Variable RandomState : Type.
Variable rand : RandomState -> nat -> nat -> farray * RandomState.
Variable seeded : Z -> RandomState.

Lemma generate_layout_graphs vertices edges min_size g r g' :
  generate_layout rand seeded vertices edges min_size g = (Ok r, g') ->
  graph r = full_graph vertices edges /\
  trimmed r = trim (full_graph vertices edges) min_size.
Proof.
  unfold generate_layout, mbind, lift, ret, edge_triples, full_graph.
  destruct (forallb _ _); [|discriminate].
  destruct (unzip_pair _); [|discriminate].
  destruct (_fruchterman_reingold_layout rand seeded _ 50 _ _ _ g)
    as [[p|e] g1]; [|discriminate].
  destruct (_fruchterman_reingold_layout rand seeded _ 50 _ _ _ g1)
    as [[p'|e] g2]; [|discriminate].
  intros E. inversion E; subst. simpl. auto.
Qed.


Lemma empty_rows_no_edge vertices edges min_size :
  rows edges = [] ->
  Nx.edges (trim (full_graph vertices edges) min_size) = [].
Proof.
  intros Hr. apply no_edges_edges. apply no_edges_trim.
  unfold full_graph. rewrite Hr. simpl.
  apply no_edges_add_nodes_from. constructor.
Qed.

Lemma generate_layout_raises vertices edges min_size g :
  edge_triples edges = Ok (rows edges) ->
  Nx.edges (trim (full_graph vertices edges) min_size) = [] ->
  generate_layout rand seeded vertices edges min_size g = (Raise ValueError, g).
Proof.
  intros Ht He. unfold generate_layout, mbind, lift. rewrite Ht.
  fold (full_graph vertices edges).
  unfold get_edge_attributes. rewrite He. reflexivity.
Qed.

(** C9.  Whenever the trimmed graph has no edge, [generate_layout] raises
    [ValueError] on unpacking the edge weights, before any layout is
    computed and without touching the random generator; an edge table
    without rows is such a case, whatever the vertices and [min_size]; and
    a call of [generate_network] that assembles this edge table raises the
    same exception instead of returning layouts. *)
Theorem generate_layout_no_edge_raises vertices edges min_size g :
  edge_triples edges = Ok (rows edges) ->
  (rows edges = [] \/
   Nx.edges (trim (full_graph vertices edges) min_size) = []) ->
  generate_layout rand seeded vertices edges min_size g = (Raise ValueError, g) /\
  forall dist_mat_list (clone_id clone_id_group : string -> string)
         distance_mode (constructbygroup : bool) weights total,
    total_dist distance_mode weights dist_mat_list = Ok total ->
    network_edges total vertices
                  (if constructbygroup then clone_id_group else clone_id)
                  clone_id = edges ->
    generate_network rand seeded dist_mat_list vertices clone_id clone_id_group
                     distance_mode min_size constructbygroup weights g
    = (Raise ValueError, g).
Proof.
  intros Ht He.
  assert (He' : Nx.edges (trim (full_graph vertices edges) min_size) = []).
  { destruct He as [Hr|He]; auto. apply empty_rows_no_edge. exact Hr. }
  pose proof (generate_layout_raises vertices edges min_size g Ht He') as H.
  split; [exact H|].
  intros dml cid cgrp mode cbg ws total Htot Hedges.
  unfold generate_network, mbind, lift. rewrite Htot, Hedges, H. reflexivity.
Qed.

End Generator.

(** The run of the example returns, with the isolated "c" trimmed. *)
Example generate_layout_example :
  raised (fst example_layout_run) = false /\
  nodes (graph (returned no_layout (fst example_layout_run)))
  = ["a"; "b"; "c"]%string /\
  nodes (trimmed (returned no_layout (fst example_layout_run)))
  = ["a"; "b"]%string.
Proof. vm_compute. auto. Qed.

Example trim_examples :
  nodes (trim (full_graph ["a"; "b"; "c"]%string example_edges) 2)
  = ["a"; "b"]%string /\
  nodes (trim (full_graph example_index
                 (network_edges example_total example_index
                                example_clone example_clone)) 3)
  = example_index /\
  nodes (trim (full_graph example_index
                 {| columns := columns example_edges;
                    rows := [("a", "b", 1%Q); ("a", "c", 1%Q); ("a", "d", 1%Q);
                             ("a", "e", 1%Q)]%string |}) 3)
  = ["b"; "c"; "d"; "e"]%string.
Proof. vm_compute. auto. Qed.

Lemma generate_layout_no_edge_raises_witness :
  generate_layout lcg_rand (fun s => s) ["a"; "b"]%string empty_edge_list 2 1%Z
  = (Raise ValueError, 1%Z) /\
  forall dist_mat_list (clone_id clone_id_group : string -> string)
         distance_mode (constructbygroup : bool) weights total,
    total_dist distance_mode weights dist_mat_list = Ok total ->
    network_edges total ["a"; "b"]%string
                  (if constructbygroup then clone_id_group else clone_id)
                  clone_id = empty_edge_list ->
    generate_network lcg_rand (fun s => s) dist_mat_list ["a"; "b"]%string
                     clone_id clone_id_group
                     distance_mode 2 constructbygroup weights 1%Z
    = (Raise ValueError, 1%Z).
Proof.
  apply (generate_layout_no_edge_raises Z lcg_rand (fun s => s)).
  - reflexivity.
  - left. reflexivity.
Defined.

End GenerateLayoutFacts.

(** ** The two Fruchterman-Reingold routines *)

Module LayoutFacts.
Import Numeric Errors Dict Nx Layout.

Lemma py_max_ok (l : list float) : l <> [] -> exists x, py_max l = Ok x.
Proof. destruct l; [congruence|]. intros _. eexists. reflexivity. Qed.

Lemma py_min_ok (l : list float) : l <> [] -> exists x, py_min l = Ok x.
Proof. destruct l; [congruence|]. intros _. eexists. reflexivity. Qed.

Lemma shape_rows2 (p : farray) :
  p <> [] -> Forall (fun r => length r = 2) p -> shape p = (length p, 2).
Proof.
  intros Hne Hrows. unfold shape. destruct p as [|r p]; [congruence|].
  inversion Hrows; subst. simpl. congruence.
Qed.

Lemma temperature_ok (p : farray) :
  p <> [] -> Forall (fun r => length r = 2) p -> exists t, temperature p = Ok t.
Proof.
  intros Hne Hrows. unfold temperature, extent.
  rewrite (shape_rows2 p Hne Hrows). simpl.
  assert (Hc : forall c, column p c <> []).
  { intros c. unfold column. destruct p; [congruence|]. discriminate. }
  destruct (py_max_ok _ (Hc 0)) as [a0 ->]. destruct (py_min_ok _ (Hc 0)) as [b0 ->].
  destruct (py_max_ok _ (Hc 1)) as [a1 ->]. destruct (py_min_ok _ (Hc 1)) as [b1 ->].
  simpl. eexists. reflexivity.
Qed.

(** The subtraction [displacement - pos / (k * np.sqrt(nnodes))] of the
    sparse routine meets an array of shape (2, nnodes) with one of shape
    (nnodes, 2). *)
Lemma sparse_delta_pos_raises A k n fixed (p : farray) t :
  3 <= n -> length p = n -> Forall (fun r => length r = 2) p ->
  sparse_delta_pos A k 2 n fixed p t = Raise ValueError.
Proof.
  intros Hn Hl Hrows. unfold sparse_delta_pos, broadcast, broadcast_shape.
  assert (Hne : p <> []) by (destruct p; simpl in *; [lia|discriminate]).
  assert (Hs1 : shape (sparse_displacement A k 2 n fixed p) = (2, n)).
  { unfold shape, sparse_displacement. simpl.
    rewrite length_map, length_seq. reflexivity. }
  rewrite Hs1.
  match goal with
  | |- context [shape (map ?f p)] =>
      assert (Hs2 : shape (map f p) = (n, 2))
  end.
  { unfold shape. rewrite length_map, Hl.
    destruct p as [|r p']; [congruence|]. inversion Hrows; subst. simpl.
    rewrite length_map. congruence. }
  rewrite Hs2. unfold compatible.
  destruct n as [|[|[|n]]]; try lia. reflexivity.
Qed.

Lemma dense_delta_pos_length A k n fixed pos t :
  length (dense_delta_pos A k n fixed pos t) = length pos.
Proof.
  unfold dense_delta_pos, dense_displacement.
  rewrite length_map, length_combine, length_seq, length_map, length_seq.
  apply Nat.min_id.
Qed.

Lemma add_pos_length pos delta :
  length delta = length pos -> length (add_pos pos delta) = length pos.
Proof.
  intros H. unfold add_pos. rewrite length_map, length_combine, H.
  apply Nat.min_id.
Qed.

(** The dense loop returns on positions of the right number. *)
Lemma dense_loop_returns A k n fixed threshold dt iterations :
  forall pos t, length pos = n ->
    exists q, dense_loop iterations A k n fixed threshold dt pos t = Ok q.
Proof.
  induction iterations as [|it IH]; intros pos t Hl; simpl.
  - eexists. reflexivity.
  - rewrite Hl, Nat.eqb_refl. simpl.
    destruct (_ <? threshold)%float.
    + eexists. reflexivity.
    + apply IH. rewrite add_pos_length; auto.
      rewrite dense_delta_pos_length. reflexivity.
Qed.

Section Generator.
Variable RandomState : Type.
Variable rand : RandomState -> nat -> nat -> farray * RandomState.
Variable seeded : Z -> RandomState.

(** C3, on the code.  On every adjacency array of three nodes or more, with
    any initial positions of the matching shape (nnodes, 2) and at least one
    iteration, the sparse routine raises [ValueError] where the dense
    routine returns positions. *)
Theorem sparse_raises_where_dense_returns
    (A : farray) (k : option float) (p : farray) (fixed : option (list nat))
    (iterations : nat) (threshold : float) (seed : seed_arg) (g : RandomState) :
  3 <= fst (shape A) -> length p = fst (shape A) ->
  Forall (fun r => length r = 2) p -> 1 <= iterations ->
  _sparse_fruchterman_reingold rand seeded A k (Some p) fixed iterations
                               threshold 2 seed g = (Raise ValueError, g) /\
  exists q,
    _fruchterman_reingold rand seeded A k (Some p) fixed iterations
                          threshold 2 seed g = (Ok q, g).
Proof.
  intros Hn Hl Hrows Hit.
  assert (Hne : p <> []) by (destruct p; simpl in *; [lia|discriminate]).
  destruct (temperature_ok p Hne Hrows) as [t Ht].
  unfold _sparse_fruchterman_reingold, _fruchterman_reingold.
  unfold initial_pos, mbind, ret, lift, raise.
  rewrite Ht. split.
  - destruct iterations as [|it]; [lia|]. cbn [sparse_loop].
    rewrite Hl, Nat.eqb_refl. simpl negb. cbv iota.
    rewrite (sparse_delta_pos_raises A _ (fst (shape A))) by auto.
    reflexivity.
  - destruct (dense_loop_returns A (optimal_distance k (fst (shape A)))
                (fst (shape A)) fixed threshold
                (t / of_nat (iterations + 1))%float iterations p t Hl)
      as [q Hq].
    exists q. rewrite Hq. reflexivity.
Qed.

End Generator.

Lemma sparse_raises_where_dense_returns_witness :
  _sparse_fruchterman_reingold lcg_rand (fun s => s) example_adjacency3 None
      (Some example_positions3) None 50 0.0001%float 2 SeedNone 1%Z
  = (Raise ValueError, 1%Z) /\
  exists q,
    _fruchterman_reingold lcg_rand (fun s => s) example_adjacency3 None
      (Some example_positions3) None 50 0.0001%float 2 SeedNone 1%Z
    = (Ok q, 1%Z).
Proof.
  apply (sparse_raises_where_dense_returns Z lcg_rand (fun s => s)
           example_adjacency3 None example_positions3 None 50 0.0001%float
           SeedNone 1%Z).
  - simpl. lia.
  - reflexivity.
  - repeat constructor.
  - lia.
Defined.

(** On two nodes both routines return, with different positions: the dense
    one keeps the two linked nodes on their axis, the sparse one, which
    subtracts the transposed position array and clamps distances at 0.01
    instead of 0.001, moves them off it. *)
Example dense_and_sparse_differ_on_two_nodes :
  let dense := fst (_fruchterman_reingold lcg_rand (fun s => s)
                      example_adjacency2 None (Some example_positions2) None
                      50 0.0001%float 2 SeedNone 1%Z) in
  let sparse := fst (_sparse_fruchterman_reingold lcg_rand (fun s => s)
                      example_adjacency2 None (Some example_positions2) None
                      50 0.0001%float 2 SeedNone 1%Z) in
  raised dense = false /\ raised sparse = false /\
  PrimFloat.eqb (fcell (returned [] dense) 0 1) 0 = true /\
  PrimFloat.ltb (fcell (returned [] sparse) 0 1) (-2) = true.
Proof. vm_compute. auto. Qed.

End LayoutFacts.

(** ** Where the initial positions come from *)

Module SeedFacts.
Import Numeric Errors Dict Nx Distance Layout Network.

Section Generator.
Variable RandomState : Type.
Variable rand : RandomState -> nat -> nat -> farray * RandomState.
Variable seeded : Z -> RandomState.

(** With given positions the dense routine leaves the global generator
    alone. *)
Lemma dense_given_positions_state A k p fixed iterations threshold dim seed g :
  snd (_fruchterman_reingold rand seeded A k (Some p) fixed iterations
                             threshold dim seed g) = g.
Proof.
  unfold _fruchterman_reingold, initial_pos, mbind, ret, lift, raise.
  destruct (temperature p); reflexivity.
Qed.

Lemma dense_seed_none A k fixed iterations threshold dim g :
  _fruchterman_reingold rand seeded A k None fixed iterations threshold dim
                        SeedNone g
  = (fst (_fruchterman_reingold rand seeded A k
            (Some (fst (rand g (fst (shape A)) dim))) fixed iterations
            threshold dim SeedNone g),
     snd (rand g (fst (shape A)) dim)).
Proof.
  unfold _fruchterman_reingold, initial_pos, create_random_state, draw,
    mbind, ret, lift, raise.
  destruct (rand g (fst (shape A)) dim) as [x g1]. simpl.
  destruct (temperature x); reflexivity.
Qed.

Lemma dense_seed_int A k fixed iterations threshold dim s g g' :
  _fruchterman_reingold rand seeded A k None fixed iterations threshold dim
                        (SeedInt s) g
  = (fst (_fruchterman_reingold rand seeded A k None fixed iterations
            threshold dim (SeedInt s) g'),
     g).
Proof.
  unfold _fruchterman_reingold, initial_pos, create_random_state, draw,
    mbind, ret, lift, raise.
  destruct (temperature _); reflexivity.
Qed.

Lemma generate_layout_calls vertices edges min_size g r g' :
  generate_layout rand seeded vertices edges min_size g = (Ok r, g') ->
  exists g1,
    _fruchterman_reingold_layout rand seeded (graph r) 50 0.0001%float
                                 (Some 1%float) SeedNone g = (Ok (pos r), g1) /\
    _fruchterman_reingold_layout rand seeded (trimmed r) 50 0.0001%float
                                 (Some 1%float) SeedNone g1 = (Ok (pos_ r), g').
Proof.
  unfold generate_layout, mbind, lift, ret.
  destruct (edge_triples edges); [|discriminate].
  destruct (unzip_pair _); [|discriminate].
  destruct (_fruchterman_reingold_layout rand seeded _ 50 _ _ _ g)
    as [[p|e] g1] eqn:E1; [|discriminate].
  destruct (_fruchterman_reingold_layout rand seeded _ 50 _ _ _ g1)
    as [[p'|e] g2] eqn:E2; [|discriminate].
  intros E. inversion E; subst. simpl. exists g1. auto.
Qed.

(** C4, as amended.  The layout routines are given no seed by
    [generate_layout]: both layouts are computed with [seed=None].  With
    [seed=None] the dense routine draws its initial positions from the
    global generator, which it leaves advanced by that draw; with an
    integer seed it draws from a fresh generator, and neither reads nor
    advances the global one. *)
Theorem initial_positions_source
    (A : farray) (k : option float) (fixed : option (list nat))
    (iterations : nat) (threshold : float) (dim : nat) (g : RandomState) :
  _fruchterman_reingold rand seeded A k None fixed iterations threshold dim
                        SeedNone g
  = (fst (_fruchterman_reingold rand seeded A k
            (Some (fst (rand g (fst (shape A)) dim))) fixed iterations
            threshold dim SeedNone g),
     snd (rand g (fst (shape A)) dim)) /\
  (forall s g',
     _fruchterman_reingold rand seeded A k None fixed iterations threshold dim
                           (SeedInt s) g
     = (fst (_fruchterman_reingold rand seeded A k None fixed iterations
               threshold dim (SeedInt s) g'),
        g)) /\
  (forall vertices edges min_size r g',
     generate_layout rand seeded vertices edges min_size g = (Ok r, g') ->
     exists g1,
       _fruchterman_reingold_layout rand seeded (graph r) 50 0.0001%float
                                    (Some 1%float) SeedNone g = (Ok (pos r), g1) /\
       _fruchterman_reingold_layout rand seeded (trimmed r) 50 0.0001%float
                                    (Some 1%float) SeedNone g1
       = (Ok (pos_ r), g')).
Proof.
  split; [apply dense_seed_none|]. split.
  - intros s g'. apply dense_seed_int.
  - intros vertices es min_size r g' H.
    apply (generate_layout_calls vertices es min_size g r g' H).
Qed.

End Generator.

(** C4, as stated, fails: two runs of [generate_network] in a row on the
    same inputs (the second one finds the global generator as the first one
    left it) both return, with different layouts. *)
Lemma two_runs_give_different_layouts :
  let run (g : Z) :=
    generate_network lcg_rand (fun s => s) [example_total] example_index
                     example_clone example_clone "simple" 2 false None g in
  let first := run 1%Z in
  let second := run (snd first) in
  let x (r : result network) : float :=
    match r with
    | Ok net => nth 0 (get_default "a" (pos (layout net)) []) 0%float
    | Raise _ => 0%float
    end in
  raised (fst first) = false /\ raised (fst second) = false /\
  edges (returned {| edges := empty_edge_list; layout := no_layout |} (fst first))
  = edges (returned {| edges := empty_edge_list; layout := no_layout |} (fst second)) /\
  PrimFloat.eqb (x (fst first)) (x (fst second)) = false.
Proof. vm_compute. auto. Qed.

End SeedFacts.

(** ** clone_degree *)

Module CloneDegreeFacts.
Import Numeric Errors Dict Nx Distance Network.

(** C2, on the code.  With three entities at pairwise distances 1, 2 and 3,
    [clone_degree] builds one self-loop per entity, weighted by the first
    three non-zero cells of the summed matrix in row-major order (1, 2, 1),
    and stores twice these weights, (2, 4, 2); the weighted degrees in the
    graph whose adjacency is the summed matrix are (3, 4, 5). *)
Example clone_degree_counts_self_loops :
  clone_degree ["a"; "b"; "c"]%string example_distance
  = Ok [("a", Some 2); ("b", Some 4); ("c", Some 2)]%string%Q /\
  add_weighted_edges_from
    (zip3 ["a"; "b"; "c"] ["a"; "b"; "c"]
          (csr_data (np_sum_axis0 example_distance)))%string empty_graph
  = [("a", [("a", 1)]); ("b", [("b", 2)]); ("c", [("c", 1)])]%string%Q /\
  map (adjacency_degree (np_sum_axis0 example_distance)) [0; 1; 2]
  = [3; 4; 5]%Q.
Proof. vm_compute. auto. Qed.

(** Two entities at distance 4: both get 8. *)
Example clone_degree_two_entities :
  clone_degree ["a"; "b"]%string [[[0; 4]; [4; 0]]%Q]
  = Ok [("a", Some 8); ("b", Some 8)]%string%Q /\
  map (adjacency_degree [[0; 4]; [4; 0]]%Q) [0; 1] = [4; 4]%Q.
Proof. vm_compute. auto. Qed.

End CloneDegreeFacts.

(** ** The merged edge list *)

Module NetworkFacts.
Import Numeric Errors Dict Nx SpanningTree Distance Layout Network.
Import ListFacts MatrixFacts MstFacts AdjacencyFacts NxFacts GenerateLayoutFacts.

(** *** Only singleton clusters *)

Lemma cluster_dist_singletons total index groups :
  (forall c ms, In (c, ms) groups -> length ms <= 1) ->
  cluster_dist total index groups = [].
Proof.
  unfold cluster_dist. induction groups as [|[c ms] groups IH]; intros H; simpl; auto.
  assert (Hms : length ms <= 1) by (apply (H c); simpl; auto).
  unfold loc_sub at 1. rewrite length_map.
  destruct (Nat.ltb_spec 1 (length ms)); [lia|]. simpl.
  apply IH. intros c' ms' Hin. apply (H c'). simpl. auto.
Qed.

Lemma network_edges_singletons total index cluster_key clone_key :
  (forall c ms, In (c, ms) (group_members cluster_key index) -> length ms <= 1) ->
  network_edges total index cluster_key clone_key = empty_edge_list.
Proof.
  intros H. unfold network_edges.
  rewrite (cluster_dist_singletons total index _ H). reflexivity.
Qed.

(** *** Clusters list their members in index order *)

Lemma subseq_nil_l {A} (l : list A) : subseq [] l.
Proof. induction l; constructor; auto. Qed.

Lemma subseq_incl {A} (l1 l2 : list A) : subseq l1 l2 -> incl l1 l2.
Proof.
  induction 1; intros y Hy; simpl in *; auto.
  - destruct Hy as [->|Hy]; auto.
Qed.

Lemma subseq_app_r {A} (l1 l2 r : list A) : subseq l1 l2 -> subseq l1 (l2 ++ r).
Proof.
  induction 1; simpl.
  - apply subseq_nil_l.
  - apply subseq_skip. auto.
  - apply subseq_take. auto.
Qed.

Lemma subseq_snoc {A} (l1 l2 : list A) x :
  subseq l1 l2 -> subseq (l1 ++ [x]) (l2 ++ [x]).
Proof.
  induction 1; simpl.
  - apply subseq_take. apply subseq_nil.
  - apply subseq_skip. auto.
  - apply subseq_take. auto.
Qed.

Lemma set_In {V} k (x : V) d c v :
  In (c, v) (set k x d) -> (c = k /\ v = x) \/ In (c, v) d.
Proof.
  induction d as [|[k' v'] d IH]; simpl.
  - intros [E|[]]. inversion E. auto.
  - destruct (String.eqb k' k).
    + intros [E|H]; [inversion E; auto|auto].
    + intros [E|H]; [auto|]. destruct (IH H); auto.
Qed.

Lemma get_default_In k (d : dict (list string)) :
  get_default k d [] = [] \/ In (k, get_default k d []) d.
Proof.
  unfold get_default. destruct (get k d) as [v|] eqn:E; auto.
  right. apply get_In. exact E.
Qed.

Lemma add_member_subseq cx i d P :
  (forall c ms, In (c, ms) d -> subseq ms P) ->
  forall c ms, In (c, ms) (add_member cx i d) -> subseq ms (P ++ [i]).
Proof.
  intros H c ms Hin. unfold add_member in Hin. apply set_In in Hin.
  assert (Hold : subseq (get_default cx d []) P).
  { destruct (get_default_In cx d) as [E|E].
    - rewrite E. apply subseq_nil_l.
    - apply (H cx). exact E. }
  destruct Hin as [[-> ->]|Hin].
  - destruct (existsb _ _).
    + apply subseq_app_r. exact Hold.
    + apply subseq_snoc. exact Hold.
  - apply subseq_app_r. apply (H c). exact Hin.
Qed.

Lemma group_members_subseq key index c ms :
  In (c, ms) (group_members key index) -> subseq ms index.
Proof.
  unfold group_members.
  assert (G : forall rest d P,
             (forall c ms, In (c, ms) d -> subseq ms P) ->
             forall c ms,
               In (c, ms) (fold_left (fun d i => add_member (key i) i d) rest d) ->
               subseq ms (P ++ rest)).
  { induction rest as [|i rest IH]; intros d P H c' ms' Hin; simpl in *.
    - rewrite app_nil_r. apply (H c'). exact Hin.
    - change (i :: rest) with ([i] ++ rest). rewrite app_assoc.
      apply (IH (add_member (key i) i d) (P ++ [i])) with (c := c'); auto.
      apply add_member_subseq. exact H. }
  intros Hin. apply (G index [] [] ) with (c := c) in Hin; auto.
  intros c' ms' [].
Qed.

Lemma index_of_cons_ne x y l : x <> y -> index_of y (x :: l) = S (index_of y l).
Proof.
  intros H. simpl. destruct (String.eqb_spec x y); [contradiction|reflexivity].
Qed.

(** Members that come in this order in a cluster come in this order in the
    index. *)
Lemma subseq_index_order (ms index : list string) :
  subseq ms index -> NoDup index ->
  forall i j, i < j -> j < length ms ->
    index_of (nth i ms ""%string) index < index_of (nth j ms ""%string) index.
Proof.
  induction 1 as [|x l1 l2 Hs IH|x l1 l2 Hs IH]; intros Hnd i j Hij Hj;
    simpl in Hj; try lia.
  - inversion Hnd as [|? ? Hx Hnd']; subst.
    assert (Hne : forall k, k < length l1 -> x <> nth k l1 ""%string).
    { intros k Hk E. apply Hx. rewrite E.
      apply (subseq_incl _ _ Hs). apply nth_In. exact Hk. }
    rewrite !index_of_cons_ne by (apply Hne; lia).
    apply -> Nat.succ_lt_mono. apply IH; auto.
  - inversion Hnd as [|? ? Hx Hnd']; subst.
    assert (Hne : forall k, k < length l1 -> x <> nth k l1 ""%string).
    { intros k Hk E. apply Hx. rewrite E.
      apply (subseq_incl _ _ Hs). apply nth_In. exact Hk. }
    destruct j as [|j]; [lia|].
    destruct i as [|i].
    + simpl nth. rewrite (index_of_cons_ne x (nth j l1 ""%string)) by (apply Hne; lia).
      simpl. rewrite String.eqb_refl. lia.
    + simpl nth. rewrite !index_of_cons_ne by (apply Hne; lia).
      apply -> Nat.succ_lt_mono. apply IH; auto; lia.
Qed.

(** *** The fallback adjacency *)

Lemma placeholder_edges n i j z :
  In (i, j, z)
     (adjacency_edges (fillna_0 (plus_one (np_tril (nan_frame n))))) ->
  i < j /\ j < n.
Proof.
  unfold adjacency_edges. intros Hin. apply cells_where_In in Hin.
  destruct Hin as (Hi & Hj & Hz & Hp).
  unfold fillna_0, plus_one in Hi, Hj. rewrite !length_map in Hi.
  rewrite !map_map_row_length in Hj.
  assert (Hi' : i < n).
  { unfold np_tril in Hi. rewrite length_map, length_seq in Hi.
    unfold nan_frame in Hi. rewrite tabulate_length in Hi. exact Hi. }
  assert (Hrow : length (nth i (np_tril (nan_frame n)) []) = n).
  { unfold np_tril. rewrite nth_map_seq; unfold nan_frame;
      rewrite ?tabulate_length; auto.
    rewrite length_map, length_seq. apply tabulate_row_length. exact Hi'. }
  rewrite Hrow in Hj. split; [|exact Hj].
  assert (Hlen : length (np_tril (nan_frame n)) = n).
  { unfold np_tril. rewrite length_map, length_seq.
    unfold nan_frame. apply tabulate_length. }
  unfold fillna_0, plus_one in Hz.
  rewrite (cell_map_map _ None 0%Z) in Hz
    by (rewrite ?length_map, ?map_map_row_length, ?Hlen, ?Hrow; auto).
  rewrite (cell_map_map _ None None) in Hz by (rewrite ?Hlen, ?Hrow; auto).
  assert (Hc : cell None (np_tril (nan_frame n)) i j
               = if j <=? i then None else Some 0%Z).
  { unfold cell at 1. unfold np_tril.
    rewrite nth_map_seq by (unfold nan_frame; rewrite tabulate_length; auto).
    rewrite nth_map_seq
      by (unfold nan_frame; rewrite tabulate_row_length; auto).
    destruct (j <=? i); auto.
    unfold nan_frame. apply cell_tabulate; auto. }
  rewrite Hc in Hz.
  destruct (Nat.leb_spec j i) as [Hle|Hlt]; [|exact Hlt].
  simpl in Hz. subst z. discriminate Hp.
Qed.

(** *** Rows point forward in the index *)

Lemma labelled_edges_oriented df index r :
  subseq (frame_index df) index -> NoDup index ->
  (forall i j z, In (i, j, z) (adjacency_edges (frame_values df)) ->
                 i < j /\ j < length (frame_index df)) ->
  In r (labelled_edges df) -> oriented index r.
Proof.
  intros Hs Hnd Hup Hin. unfold labelled_edges in Hin.
  apply in_map_iff in Hin. destruct Hin as [[[i j] z] [<- Hin]].
  destruct (Hup i j z Hin) as [Hij Hj].
  unfold oriented, source, target. simpl.
  apply subseq_index_order; auto.
Qed.

Lemma edge_lists_rows adjacencies r :
  In r (concat (map rows (map snd (edge_lists adjacencies)))) ->
  exists c df, In (c, df) adjacencies /\ In r (labelled_edges df).
Proof.
  intros Hin. apply in_concat in Hin. destruct Hin as [rs [Hrs Hr]].
  apply in_map_iff in Hrs. destruct Hrs as [d [<- Hd]].
  apply in_map_iff in Hd. destruct Hd as [[c d'] [<- Hd]].
  unfold edge_lists in Hd. apply in_map_iff in Hd.
  destruct Hd as [[c' df] [E Hdf]]. simpl in E. inversion E; subst.
  eexists. eexists. split; [exact Hdf|].
  unfold to_pandas_edgelist in Hr. simpl in Hr. exact Hr.
Qed.

Lemma loc_sub_square total index ms : square (length ms) (loc_sub total index ms).
Proof.
  unfold loc_sub. split.
  - apply length_map.
  - rewrite Forall_forall. intros r Hr. apply in_map_iff in Hr.
    destruct Hr as [s [<- _]]. apply length_map.
Qed.

Lemma cluster_dist_In total index groups c df :
  In (c, df) (cluster_dist total index groups) ->
  exists ms, In (c, ms) groups /\
             df = {| frame_index := ms; frame_values := loc_sub total index ms |}.
Proof.
  unfold cluster_dist. intros Hin. apply in_flat_map in Hin.
  destruct Hin as [[c' ms] [Hg Hin]]. simpl in Hin.
  destruct (_ && _); [|contradiction].
  destruct Hin as [E|[]]. inversion E; subst. exists ms. auto.
Qed.

Lemma mst_rows_oriented total index key r :
  NoDup index ->
  In r (concat (map rows (map snd
          (edge_lists (mst (cluster_dist total index
                                         (group_members key index))))))) ->
  oriented index r.
Proof.
  intros Hnd Hin. apply edge_lists_rows in Hin.
  destruct Hin as (c & df & Hdf & Hr).
  unfold mst in Hdf. apply in_map_iff in Hdf.
  destruct Hdf as [[c' d] [E Hd]]. simpl in E. inversion E; subst c' df. clear E.
  apply cluster_dist_In in Hd. destruct Hd as (ms & Hms & ->).
  apply (labelled_edges_oriented _ index r) in Hr; auto.
  - simpl. apply (group_members_subseq key index c ms Hms).
  - simpl. intros i j z Hz.
    apply (mst_adjacency_edges_upper (length ms) (loc_sub total index ms) i j z);
      auto.
    apply loc_sub_square.
Qed.

Lemma fallback_rows_oriented index key r :
  NoDup index ->
  In r (concat (map rows (map snd
          (edge_lists (tmp_clone_tree3 (group_members key index)))))) ->
  oriented index r.
Proof.
  intros Hnd Hin. apply edge_lists_rows in Hin.
  destruct Hin as (c & df & Hdf & Hr).
  unfold tmp_clone_tree3 in Hdf. apply in_map_iff in Hdf.
  destruct Hdf as [[c' ms] [E Hms]]. simpl in E. inversion E; subst c' df. clear E.
  apply (labelled_edges_oriented _ index r) in Hr; auto.
  - simpl. apply (group_members_subseq key index c ms Hms).
  - simpl. intros i j z Hz. apply (placeholder_edges _ i j z Hz).
Qed.

(** *** The merge *)

Lemma key_eqb_eq p q : key_eqb p q = true <-> p = q.
Proof.
  unfold key_eqb. rewrite andb_true_iff, !String.eqb_eq.
  destruct p, q; simpl. split; [intros [-> ->]; auto|intros E; inversion E; auto].
Qed.

Lemma has_key_In k l : has_key k l = true <-> In k l.
Proof.
  unfold has_key. rewrite existsb_exists. split.
  - intros [q [Hq E]]. apply key_eqb_eq in E. subst. exact Hq.
  - intros H. exists k. split; auto. apply key_eqb_eq. reflexivity.
Qed.

Lemma unique_keys_In k l : In k (unique_keys l) -> In k l.
Proof.
  induction l as [|x l IH]; simpl; auto.
  destruct (has_key x l); simpl; intuition.
Qed.

Lemma unique_keys_NoDup l : NoDup (unique_keys l).
Proof.
  induction l as [|x l IH]; simpl; [constructor|].
  destruct (has_key x l) eqn:E; auto.
  constructor; auto. intros Hin. apply unique_keys_In in Hin.
  apply has_key_In in Hin. congruence.
Qed.

Lemma index_union_NoDup a b : NoDup (index_union a b).
Proof.
  unfold index_union. destruct a as [|x a]; [apply unique_keys_NoDup|].
  destruct b as [|y b]; [apply unique_keys_NoDup|].
  destruct (keys_eqb _ _); [apply unique_keys_NoDup|].
  apply (Permutation_NoDup (sort_by_perm key_leb _)). apply unique_keys_NoDup.
Qed.

Lemma row_at_Some k rs r : row_at k rs = Some r -> In r rs /\ fst r = k.
Proof.
  unfold row_at. intros H. apply find_some in H. destruct H as [Hin E].
  apply key_eqb_eq in E. auto.
Qed.

Lemma combine_first_rows A B r :
  In r (rows (combine_first A B)) -> In r (rows A) \/ In r (rows B).
Proof.
  unfold combine_first. simpl. intros Hin. apply in_flat_map in Hin.
  destruct Hin as [k [_ Hin]].
  destruct (row_at k (rows A)) as [ra|] eqn:EA.
  - destruct Hin as [<-|[]]. left. apply (row_at_Some k _ _ EA).
  - destruct (row_at k (rows B)) as [rb|] eqn:EB; [|contradiction].
    destruct Hin as [<-|[]]. right. apply (row_at_Some k _ _ EB).
Qed.

Lemma combine_first_NoDup A B : NoDup (map fst (rows (combine_first A B))).
Proof.
  unfold combine_first. simpl.
  rewrite flat_map_concat_map, concat_map, map_map, <- flat_map_concat_map.
  apply NoDup_flat_map.
  - apply index_union_NoDup.
  - intros k _. destruct (row_at k (rows A)); [repeat constructor; auto|].
    destruct (row_at k (rows B)); repeat constructor; auto.
  - intros k k' b _ _ H H'.
    assert (G : forall k0, In b (map fst
                 match row_at k0 (rows A) with
                 | Some r => [r]
                 | None => match row_at k0 (rows B) with
                           | Some r => [r]
                           | None => []
                           end
                 end) -> b = k0).
    { intros k0 Hb.
      destruct (row_at k0 (rows A)) as [ra|] eqn:EA.
      - destruct Hb as [<-|[]]. apply (row_at_Some k0 _ _ EA).
      - destruct (row_at k0 (rows B)) as [rb|] eqn:EB; [|contradiction].
        destruct Hb as [<-|[]]. apply (row_at_Some k0 _ _ EB). }
    rewrite <- (G k H), <- (G k' H'). reflexivity.
Qed.

Lemma pd_concat_rows frames A :
  pd_concat frames = Ok A -> rows A = concat (map rows frames).
Proof.
  unfold pd_concat. destruct frames; [discriminate|].
  intros E. inversion E. reflexivity.
Qed.

(** What the [try] block leaves in [edge_list_final]. *)
Lemma edge_list_final_cases total index el tel :
  edge_list_final total index el tel = empty_edge_list \/
  exists A B,
    rows A = concat (map rows (map snd el)) /\
    rows B = concat (map rows (map snd tel)) /\
    edge_list_final total index el tel
    = set_weights total index (combine_first A B).
Proof.
  unfold edge_list_final.
  destruct (pd_concat (map snd el)) as [A|e] eqn:EA; simpl; auto.
  destruct (pd_concat (map snd tel)) as [B|e] eqn:EB; simpl; auto.
  right. exists A, B. repeat split; auto using pd_concat_rows.
Qed.

Lemma network_edges_rows total index cluster_key clone_key :
  NoDup index ->
  let R := rows (network_edges total index cluster_key clone_key) in
  NoDup (map fst R) /\
  (forall r, In r R -> oriented index r) /\
  (forall r, In r R -> weight r = loc total index (source r) (target r)).
Proof.
  intros Hnd. cbv zeta. unfold network_edges.
  destruct (edge_list_final_cases total index
              (edge_lists (mst (cluster_dist total index
                                   (group_members cluster_key index))))
              (edge_lists (tmp_clone_tree3 (group_members clone_key index))))
    as [E|(A & B & HA & HB & E)]; rewrite E.
  - simpl. repeat split; try constructor; intros r [].
  - unfold set_weights. simpl rows. split; [|split].
    + rewrite map_map. erewrite map_ext; [apply (combine_first_NoDup A B)|].
      intros [[s t] w]. reflexivity.
    + intros r Hr. apply in_map_iff in Hr. destruct Hr as [r0 [<- Hr0]].
      assert (Ho : oriented index r0).
      { apply combine_first_rows in Hr0. destruct Hr0 as [Hr0|Hr0].
        - rewrite HA in Hr0. apply (mst_rows_oriented total index cluster_key); auto.
        - rewrite HB in Hr0. apply (fallback_rows_oriented index clone_key); auto. }
      exact Ho.
    + intros r Hr. apply in_map_iff in Hr. destruct Hr as [r0 [<- Hr0]].
      reflexivity.
Qed.

Section Generator.
Variable RandomState : Type.
Variable rand : RandomState -> nat -> nat -> farray * RandomState.
Variable seeded : Z -> RandomState.

(** C8, on the code.  When every cluster is a singleton the edge list
    assembled by [generate_network] is the empty table with the columns
    (source, target, weight), and [generate_network] then raises
    [ValueError] in [generate_layout] instead of returning it. *)
Theorem generate_network_all_singletons
    dist_mat_list index (clone_id clone_id_group : string -> string)
    distance_mode min_size (constructbygroup : bool) weights total g :
  total_dist distance_mode weights dist_mat_list = Ok total ->
  (forall c ms,
     In (c, ms) (group_members (if constructbygroup then clone_id_group
                                else clone_id) index) ->
     length ms <= 1) ->
  network_edges total index
                (if constructbygroup then clone_id_group else clone_id) clone_id
  = empty_edge_list /\
  generate_network rand seeded dist_mat_list index clone_id clone_id_group
                   distance_mode min_size constructbygroup weights g
  = (Raise ValueError, g).
Proof.
  intros Htot Hs.
  pose proof (network_edges_singletons total index _ clone_id Hs) as He.
  split; [exact He|].
  unfold generate_network, mbind, lift. rewrite Htot, He.
  rewrite (generate_layout_raises RandomState rand seeded index empty_edge_list
             min_size g eq_refl).
  - reflexivity.
  - apply empty_rows_no_edge. reflexivity.
Qed.

Lemma generate_network_edges dist_mat_list index
      (clone_id clone_id_group : string -> string)
      distance_mode min_size (constructbygroup : bool) weights g net g' :
  generate_network rand seeded dist_mat_list index clone_id clone_id_group
                   distance_mode min_size constructbygroup weights g
  = (Ok net, g') ->
  exists total,
    total_dist distance_mode weights dist_mat_list = Ok total /\
    edges net
    = network_edges total index
        (if constructbygroup then clone_id_group else clone_id) clone_id.
Proof.
  unfold generate_network, mbind, lift, ret.
  destruct (total_dist distance_mode weights dist_mat_list) as [total|e];
    [|discriminate].
  destruct (generate_layout rand seeded index _ min_size g) as [[l|e] g1];
    [|discriminate].
  intros E. inversion E; subst. simpl. exists total. auto.
Qed.

(** C6.  Whatever the total distance matrix and the cluster and clone
    columns, as long as the entity index holds no label twice: the merged
    edge list [generate_network] assembles (and returns, when it returns)
    has no two rows with the same unordered (source, target) pair, no row
    whose source is its target, and every weight is the cell of the total
    distance matrix at (source, target). *)
Theorem network_edges_wellformed
    (total : matrix Q) (index : list string)
    (cluster_key clone_key : string -> string) :
  NoDup index ->
  let R := rows (network_edges total index cluster_key clone_key) in
  (forall k l r r',
     k <> l -> nth_error R k = Some r -> nth_error R l = Some r' ->
     ~ same_pair r r') /\
  (forall r, In r R -> source r <> target r) /\
  (forall r, In r R -> weight r = loc total index (source r) (target r)) /\
  (forall dist_mat_list clone_id_group distance_mode min_size
          (constructbygroup : bool) weights g net g',
     total_dist distance_mode weights dist_mat_list = Ok total ->
     cluster_key = (if constructbygroup then clone_id_group else clone_key) ->
     generate_network rand seeded dist_mat_list index clone_key clone_id_group
                      distance_mode min_size constructbygroup weights g
     = (Ok net, g') ->
     rows (edges net) = R).
Proof.
  intros Hnd.
  destruct (network_edges_rows total index cluster_key clone_key Hnd)
    as (Hkeys & Hor & Hw).
  cbv zeta. split; [|split; [|split]].
  - intros k l r r' Hkl Hk Hl [[Es Et]|[Es Et]].
    + apply Hkl.
      apply (proj1 (NoDup_nth_error _) Hkeys).
      * rewrite length_map. apply nth_error_Some. congruence.
      * rewrite !nth_error_map, Hk, Hl. simpl. f_equal.
        destruct r as [[s t] w], r' as [[s' t'] w'].
        unfold source, target in *. simpl in *. congruence.
    + pose proof (Hor r (nth_error_In _ _ Hk)) as H1.
      pose proof (Hor r' (nth_error_In _ _ Hl)) as H2.
      unfold oriented in H1, H2. rewrite Es, Et in H1. lia.
  - intros r Hr E. pose proof (Hor r Hr) as H. unfold oriented in H.
    rewrite E in H. lia.
  - exact Hw.
  - intros dml cgrp mode ms cbg ws g net g' Htot Hkey Hrun.
    apply generate_network_edges in Hrun. destruct Hrun as (total' & Htot' & He).
    rewrite Htot in Htot'. inversion Htot'; subst total'.
    rewrite He, <- Hkey. reflexivity.
Qed.

End Generator.

Lemma generate_network_all_singletons_witness :
  network_edges example_total example_index singleton_clone singleton_clone
  = empty_edge_list /\
  generate_network lcg_rand (fun s => s) [example_total] example_index
                   singleton_clone singleton_clone "simple" 2 false None 1%Z
  = (Raise ValueError, 1%Z).
Proof.
  apply (generate_network_all_singletons Z lcg_rand (fun s => s)
           [example_total] example_index singleton_clone singleton_clone
           "simple" 2%Z false None example_total 1%Z).
  - reflexivity.
  - intros c ms Hin. vm_compute in Hin.
    repeat (destruct Hin as [Hin|Hin]; [inversion Hin; subst; simpl; lia|]).
    contradiction.
Defined.

Lemma network_edges_wellformed_witness :
  let R := rows (network_edges example_total example_index
                               example_clone example_clone) in
  (forall k l r r',
     k <> l -> nth_error R k = Some r -> nth_error R l = Some r' ->
     ~ same_pair r r') /\
  (forall r, In r R -> source r <> target r) /\
  (forall r, In r R ->
     weight r = loc example_total example_index (source r) (target r)) /\
  (forall dist_mat_list clone_id_group distance_mode min_size
          (constructbygroup : bool) weights g net g',
     total_dist distance_mode weights dist_mat_list = Ok example_total ->
     example_clone = (if constructbygroup then clone_id_group else example_clone) ->
     generate_network lcg_rand (fun s => s) dist_mat_list example_index
                      example_clone clone_id_group
                      distance_mode min_size constructbygroup weights g
     = (Ok net, g') ->
     rows (edges net) = R).
Proof.
  apply (network_edges_wellformed Z lcg_rand (fun s => s)
           example_total example_index example_clone example_clone).
  unfold example_index.
  repeat (constructor; [simpl; intuition discriminate|]). constructor.
Defined.

(** The scenario of four entities: the three members of clone "A" are
    linked pairwise (the spanning tree keeps a-b and a-c, the fallback adds
    b-c), each edge weighted by its distance; "d" has no edge. *)
Example network_edges_example :
  mst (cluster_dist example_total example_index
                    (group_members example_clone example_index))
  = [("A"%string,
      {| frame_index := ["a"; "b"; "c"]%string;
         frame_values := [[0; 1; 2]; [0; 0; 0]; [0; 0; 0]]%Z |})] /\
  network_edges example_total example_index example_clone example_clone
  = {| columns := ["source"; "target"; "weight"]%string;
       rows := [("a", "b", 1); ("a", "c", 2); ("b", "c", 3)]%string%Q |}.
Proof. vm_compute. auto. Qed.

End NetworkFacts.

(** ** Which pairs the merged edge list links *)

Module DictFacts.
Import Dict.

Lemma get_set_same {V} k (v : V) d : get k (set k v d) = Some v.
Proof.
  induction d as [|[k' v'] d IH]; simpl.
  - rewrite String.eqb_refl. reflexivity.
  - destruct (String.eqb k' k) eqn:E; simpl.
    + rewrite String.eqb_refl. reflexivity.
    + rewrite E. exact IH.
Qed.

Lemma get_set_other {V} k k' (v : V) d : k <> k' -> get k' (set k v d) = get k' d.
Proof.
  intros Hne. induction d as [|[k0 v0] d IH]; simpl.
  - destruct (String.eqb_spec k k'); [contradiction|reflexivity].
  - destruct (String.eqb_spec k0 k) as [->|Hk]; simpl.
    + destruct (String.eqb_spec k k'); [contradiction|reflexivity].
    + destruct (String.eqb k0 k'); auto.
Qed.

Lemma get_default_set {V} k c (v x : V) d :
  get_default c (set k v d) x = if String.eqb k c then v else get_default c d x.
Proof.
  unfold get_default. destruct (String.eqb_spec k c) as [->|Hne].
  - rewrite get_set_same. reflexivity.
  - rewrite get_set_other by exact Hne. reflexivity.
Qed.

Lemma mem_keys {V} k (d : dict V) : mem k d = true <-> In k (keys d).
Proof.
  unfold mem, keys. induction d as [|[k' v'] d IH]; simpl.
  - split; [discriminate|tauto].
  - destruct (String.eqb_spec k' k) as [->|Hne].
    + split; auto.
    + rewrite IH. split; [auto|]. intros [E|H]; [contradiction|exact H].
Qed.

Lemma keys_set {V} k (v : V) d :
  keys (set k v d) = if mem k d then keys d else keys d ++ [k].
Proof.
  unfold mem, keys. induction d as [|[k' v'] d IH]; simpl; auto.
  destruct (String.eqb_spec k' k) as [->|Hne]; simpl; auto.
  rewrite IH. destruct (get k d); reflexivity.
Qed.

Lemma NoDup_keys_set {V} k (v : V) d : NoDup (keys d) -> NoDup (keys (set k v d)).
Proof.
  intros H. rewrite keys_set. destruct (mem k d) eqn:E; auto.
  apply NoDup_app.
  - exact H.
  - repeat constructor; auto.
  - intros x Hx [<-|[]]. apply mem_keys in Hx. congruence.
Qed.

Lemma In_get {V} k (v : V) d : NoDup (keys d) -> In (k, v) d -> get k d = Some v.
Proof.
  induction d as [|[k' v'] d IH]; simpl; [tauto|].
  intros Hnd [E|Hin].
  - inversion E; subst. rewrite String.eqb_refl. reflexivity.
  - inversion Hnd as [|? ? Hk Hnd']; subst.
    destruct (String.eqb_spec k' k) as [->|Hne].
    + exfalso. apply Hk. apply (in_map fst _ _ Hin).
    + apply IH; auto.
Qed.

Lemma get_Some_In {V} k (v : V) d : get k d = Some v -> In (k, v) d.
Proof.
  induction d as [|[k' v'] d IH]; simpl; [discriminate|].
  destruct (String.eqb_spec k' k).
  - intros E. inversion E; subst. auto.
  - intros E. right. apply IH. exact E.
Qed.

End DictFacts.

Module EdgeListFacts.
Import Numeric Errors Dict Nx SpanningTree Distance Layout Network.
Import ListFacts MatrixFacts MstFacts AdjacencyFacts NxFacts GenerateLayoutFacts.
Import NetworkFacts DictFacts.

(** *** The members of a cluster *)

Lemma add_member_get cx i c d :
  get_default c (add_member cx i d) []
  = if String.eqb cx c
    then (if existsb (String.eqb i) (get_default cx d [])
          then get_default cx d [] else get_default cx d [] ++ [i])
    else get_default c d [].
Proof. unfold add_member. apply get_default_set. Qed.

Lemma group_fold_get key c l : forall d,
  NoDup l ->
  (forall i c', In i l -> ~ In i (get_default c' d [])) ->
  get_default c (fold_left (fun d i => add_member (key i) i d) l d) []
  = get_default c d [] ++ filter (fun i => String.eqb (key i) c) l.
Proof.
  induction l as [|i l IH]; intros d Hnd Hfresh; simpl.
  - rewrite app_nil_r. reflexivity.
  - inversion Hnd as [|? ? Hi Hnd']; subst.
    assert (Hex : existsb (String.eqb i) (get_default (key i) d []) = false).
    { destruct (existsb _ _) eqn:E; auto. apply existsb_eqb_In in E.
      exfalso. apply (Hfresh i (key i)); simpl; auto. }
    rewrite IH; auto.
    + rewrite add_member_get, Hex.
      destruct (String.eqb_spec (key i) c) as [->|Hne].
      * rewrite <- app_assoc. reflexivity.
      * reflexivity.
    + intros i' c' Hi' Hin. rewrite add_member_get, Hex in Hin.
      destruct (String.eqb (key i) c').
      * apply in_app_or in Hin. destruct Hin as [Hin|[<-|[]]].
        -- apply (Hfresh i' (key i)); simpl; auto.
        -- contradiction.
      * apply (Hfresh i' c'); simpl; auto.
Qed.

Lemma group_members_get key index c :
  NoDup index ->
  get_default c (group_members key index) []
  = filter (fun i => String.eqb (key i) c) index.
Proof.
  intros Hnd. unfold group_members. rewrite group_fold_get; auto.
Qed.

Lemma add_member_keys cx i d :
  NoDup (keys d) -> NoDup (keys (add_member cx i d)).
Proof. apply NoDup_keys_set. Qed.

Lemma group_members_keys key index : NoDup (keys (group_members key index)).
Proof.
  unfold group_members.
  assert (G : forall l d, NoDup (keys d) ->
                NoDup (keys (fold_left (fun d i => add_member (key i) i d) l d))).
  { induction l as [|i l IH]; intros d H; simpl; auto.
    apply IH. apply add_member_keys. exact H. }
  apply G. constructor.
Qed.

(** A cluster holds the entities of the index that carry its key, in
    index order. *)
Lemma group_members_In key index c ms :
  NoDup index ->
  In (c, ms) (group_members key index) ->
  ms = filter (fun i => String.eqb (key i) c) index.
Proof.
  intros Hnd Hin. rewrite <- (group_members_get key index c Hnd).
  unfold get_default.
  rewrite (In_get c ms _ (group_members_keys key index) Hin). reflexivity.
Qed.

Lemma group_members_of key index s :
  NoDup index -> In s index ->
  In (key s, filter (fun i => String.eqb (key i) (key s)) index)
     (group_members key index).
Proof.
  intros Hnd Hs.
  pose proof (group_members_get key index (key s) Hnd) as E.
  unfold get_default in E.
  destruct (get (key s) (group_members key index)) as [ms|] eqn:G.
  - rewrite <- E. apply get_Some_In. exact G.
  - exfalso. assert (Hin : In s (filter (fun i => String.eqb (key i) (key s)) index)).
    { apply filter_In. split; auto. apply String.eqb_refl. }
    rewrite <- E in Hin. exact Hin.
Qed.

Lemma member_key key index c ms s :
  NoDup index -> In (c, ms) (group_members key index) -> In s ms ->
  In s index /\ key s = c.
Proof.
  intros Hnd Hin Hs. rewrite (group_members_In key index c ms Hnd Hin) in Hs.
  apply filter_In in Hs. destruct Hs as [H1 H2]. apply String.eqb_eq in H2. auto.
Qed.

(** *** The fallback adjacency links every pair of a clone *)

Lemma placeholder_cell n i j :
  i < n -> j < n ->
  zcell (fillna_0 (plus_one (np_tril (nan_frame n)))) i j
  = if j <=? i then 0%Z else 1%Z.
Proof.
  intros Hi Hj.
  assert (Hlen : length (np_tril (nan_frame n)) = n).
  { unfold np_tril. rewrite length_map, length_seq.
    unfold nan_frame. apply tabulate_length. }
  assert (Hrow : length (nth i (np_tril (nan_frame n)) []) = n).
  { unfold np_tril. rewrite nth_map_seq; unfold nan_frame;
      rewrite ?tabulate_length; auto.
    rewrite length_map, length_seq. apply tabulate_row_length. exact Hi. }
  unfold zcell, fillna_0, plus_one.
  rewrite (cell_map_map _ None 0%Z)
    by (rewrite ?length_map, ?map_map_row_length, ?Hlen, ?Hrow; auto).
  rewrite (cell_map_map _ None None) by (rewrite ?Hlen, ?Hrow; auto).
  assert (Hc : cell None (np_tril (nan_frame n)) i j
               = if j <=? i then None else Some 0%Z).
  { unfold cell at 1. unfold np_tril.
    rewrite nth_map_seq by (unfold nan_frame; rewrite tabulate_length; auto).
    rewrite nth_map_seq
      by (unfold nan_frame; rewrite tabulate_row_length; auto).
    destruct (j <=? i); auto.
    unfold nan_frame. apply cell_tabulate; auto. }
  rewrite Hc. destruct (j <=? i); reflexivity.
Qed.

Lemma placeholder_edges_all n i j :
  i < j -> j < n ->
  In (i, j, 1%Z)
     (adjacency_edges (fillna_0 (plus_one (np_tril (nan_frame n))))).
Proof.
  intros Hij Hj. unfold adjacency_edges. apply cells_where_In.
  assert (Hi : i < n) by lia.
  assert (Hlen : length (np_tril (nan_frame n)) = n).
  { unfold np_tril. rewrite length_map, length_seq.
    unfold nan_frame. apply tabulate_length. }
  assert (Hrow : length (nth i (np_tril (nan_frame n)) []) = n).
  { unfold np_tril. rewrite nth_map_seq; unfold nan_frame;
      rewrite ?tabulate_length; auto.
    rewrite length_map, length_seq. apply tabulate_row_length. exact Hi. }
  split; [|split; [|split]].
  - unfold fillna_0, plus_one. rewrite !length_map, Hlen. exact Hi.
  - unfold fillna_0, plus_one. rewrite !map_map_row_length, Hrow. exact Hj.
  - pose proof (placeholder_cell n i j Hi Hj) as E. unfold zcell in E.
    rewrite E. destruct (Nat.leb_spec j i); [lia|reflexivity].
  - reflexivity.
Qed.

Lemma edge_lists_rows_In adjacencies c df r :
  In (c, df) adjacencies -> In r (labelled_edges df) ->
  In r (concat (map rows (map snd (edge_lists adjacencies)))).
Proof.
  intros Hdf Hr. apply in_concat. exists (labelled_edges df). split; [|exact Hr].
  apply in_map_iff. exists (to_pandas_edgelist (labelled_edges df)).
  split; [reflexivity|].
  apply in_map_iff. exists (c, to_pandas_edgelist (labelled_edges df)).
  split; [reflexivity|].
  unfold edge_lists. apply in_map_iff. exists (c, df). auto.
Qed.

Lemma NoDup_two_members {A} (l : list A) u v :
  In u l -> In v l -> u <> v -> 2 <= length l.
Proof.
  intros Hu Hv Hne. destruct l as [|a [|b l]]; simpl in *; try lia.
  all: try contradiction.
  destruct Hu as [<-|[]]. destruct Hv as [<-|[]]. contradiction.
Qed.

(** Two entities of one clone are two positions of its member list, in
    index order. *)
Lemma member_positions key index c ms s t :
  NoDup index -> In (c, ms) (group_members key index) ->
  In s ms -> In t ms -> index_of s index < index_of t index ->
  exists i j, i < j /\ j < length ms /\
              nth i ms ""%string = s /\ nth j ms ""%string = t.
Proof.
  intros Hnd Hin Hs Ht Hlt.
  pose proof (group_members_subseq key index c ms Hin) as Hsub.
  destruct (In_nth ms s ""%string Hs) as (i & Hi & Ei).
  destruct (In_nth ms t ""%string Ht) as (j & Hj & Ej).
  exists i, j. repeat split; auto.
  destruct (Nat.lt_trichotomy i j) as [H|[H|H]]; auto.
  - subst j. rewrite Ei in Ej. subst t. lia.
  - pose proof (subseq_index_order ms index Hsub Hnd j i H Hi) as H'.
    rewrite Ei, Ej in H'. lia.
Qed.

Lemma fallback_rows_all index key s t :
  NoDup index -> In s index -> In t index -> key s = key t ->
  index_of s index < index_of t index ->
  In (s, t, inject_Z 1)
     (concat (map rows (map snd
        (edge_lists (tmp_clone_tree3 (group_members key index)))))).
Proof.
  intros Hnd Hs Ht Hk Hlt.
  pose proof (group_members_of key index s Hnd Hs) as Hg.
  set (ms := filter (fun i => String.eqb (key i) (key s)) index) in *.
  assert (Hsm : In s ms) by (apply filter_In; split; auto; apply String.eqb_refl).
  assert (Htm : In t ms).
  { apply filter_In. split; auto. apply String.eqb_eq. congruence. }
  destruct (member_positions key index (key s) ms s t Hnd Hg Hsm Htm Hlt)
    as (i & j & Hij & Hj & Ei & Ej).
  apply (edge_lists_rows_In _ (key s)
           {| frame_index := ms;
              frame_values :=
                fillna_0 (plus_one (np_tril (nan_frame (length ms)))) |}).
  - unfold tmp_clone_tree3. apply in_map_iff. exists (key s, ms). auto.
  - unfold labelled_edges. apply in_map_iff. exists (i, j, 1%Z). simpl.
    rewrite Ei, Ej. split; [reflexivity|].
    apply placeholder_edges_all; auto.
Qed.

(** *** The merge keeps every key of both sides *)

Lemma unique_keys_keeps k l : In k l -> In k (unique_keys l).
Proof.
  induction l as [|x l IH]; simpl; auto.
  intros [->|Hin].
  - destruct (has_key k l) eqn:E; simpl; auto.
    apply IH. apply has_key_In. exact E.
  - destruct (has_key x l); simpl; auto.
Qed.

Lemma keys_eqb_eq a : forall b, keys_eqb a b = true -> a = b.
Proof.
  induction a as [|p a IH]; intros [|q b]; simpl; try discriminate; auto.
  intros H. apply andb_true_iff in H. destruct H as [H1 H2].
  apply key_eqb_eq in H1. subst. f_equal. apply IH. exact H2.
Qed.

Lemma index_union_In k a b : In k (index_union a b) <-> In k a \/ In k b.
Proof.
  assert (U : forall l, In k (unique_keys l) <-> In k l).
  { intros l. split; [apply unique_keys_In|apply unique_keys_keeps]. }
  unfold index_union. destruct a as [|x a].
  - rewrite U. simpl. tauto.
  - destruct b as [|y b].
    + rewrite U. simpl. tauto.
    + destruct (keys_eqb (x :: a) (y :: b)) eqn:E.
      * apply keys_eqb_eq in E. rewrite <- E, U. tauto.
      * split.
        -- intros H.
           apply (Permutation_in _ (Permutation_sym (sort_by_perm key_leb _))) in H.
           apply (proj1 (U _)) in H. apply in_app_or in H. exact H.
        -- intros H. apply (Permutation_in _ (sort_by_perm key_leb _)).
           apply (proj2 (U _)). apply in_or_app. exact H.
Qed.

Lemma row_at_found k rs : In k (map fst rs) -> exists r, row_at k rs = Some r.
Proof.
  intros Hin. unfold row_at.
  destruct (List.find (fun r => key_eqb (fst r) k) rs) as [r|] eqn:E.
  - exists r. reflexivity.
  - exfalso. apply in_map_iff in Hin. destruct Hin as [r [Hk Hr]].
    pose proof (find_none _ _ E r Hr) as H. simpl in H.
    rewrite <- Hk in H. rewrite (proj2 (key_eqb_eq (fst r) (fst r)) eq_refl) in H.
    discriminate.
Qed.

Lemma combine_first_has_key A B k :
  In k (map fst (rows A)) \/ In k (map fst (rows B)) ->
  exists r, In r (rows (combine_first A B)) /\ fst r = k.
Proof.
  intros H. unfold combine_first. simpl.
  assert (Hu : In k (index_union (map fst (rows A)) (map fst (rows B)))).
  { apply index_union_In. exact H. }
  destruct (row_at k (rows A)) as [ra|] eqn:EA.
  - exists ra. split; [|apply (row_at_Some k _ _ EA)].
    apply in_flat_map. exists k. split; auto. rewrite EA. simpl. auto.
  - destruct H as [H|H].
    + destruct (row_at_found k (rows A) H) as [r Hr]. congruence.
    + destruct (row_at_found k (rows B) H) as [rb EB].
      exists rb. split; [|apply (row_at_Some k _ _ EB)].
      apply in_flat_map. exists k. split; auto. rewrite EA, EB. simpl. auto.
Qed.

Lemma pd_concat_ok frames : frames <> [] -> exists A, pd_concat frames = Ok A.
Proof.
  destruct frames; [congruence|]. intros _. eexists. reflexivity.
Qed.

(** With one cluster of two members or more the [try] block runs to its
    end. *)
Lemma edge_list_final_merged total index el tel :
  el <> [] -> tel <> [] ->
  exists A B,
    rows A = concat (map rows (map snd el)) /\
    rows B = concat (map rows (map snd tel)) /\
    edge_list_final total index el tel
    = set_weights total index (combine_first A B).
Proof.
  intros He Ht. unfold edge_list_final.
  destruct (pd_concat_ok (map snd el)) as [A EA].
  { destruct el; [congruence|discriminate]. }
  destruct (pd_concat_ok (map snd tel)) as [B EB].
  { destruct tel; [congruence|discriminate]. }
  rewrite EA, EB. simpl. exists A, B.
  repeat split; auto using pd_concat_rows.
Qed.

Lemma cluster_dist_nonempty total index key u v :
  NoDup index -> In u index -> In v index -> u <> v -> key u = key v ->
  cluster_dist total index (group_members key index) <> [].
Proof.
  intros Hnd Hu Hv Hne Hk.
  pose proof (group_members_of key index u Hnd Hu) as Hg.
  set (ms := filter (fun i => String.eqb (key i) (key u)) index) in *.
  assert (Hlen : 2 <= length ms).
  { apply (NoDup_two_members ms u v); auto.
    - apply filter_In. split; auto. apply String.eqb_refl.
    - apply filter_In. split; auto. apply String.eqb_eq. congruence. }
  intros E.
  assert (Hin : In (key u, {| frame_index := ms;
                              frame_values := loc_sub total index ms |})
                   (cluster_dist total index (group_members key index))).
  { unfold cluster_dist. apply in_flat_map. exists (key u, ms). split; auto.
    cbn [fst snd].
    replace (length (loc_sub total index ms)) with (length ms)
      by (unfold loc_sub; rewrite length_map; reflexivity).
    destruct (Nat.ltb_spec 1 (length ms)); [|lia]. simpl. auto. }
  rewrite E in Hin. exact Hin.
Qed.

(** Every pair of one clone is a row, as soon as one cluster has two
    members. *)
Lemma network_edges_clone_pairs total index cluster_key clone_key s t :
  NoDup index ->
  cluster_dist total index (group_members cluster_key index) <> [] ->
  In s index -> In t index -> clone_key s = clone_key t ->
  index_of s index < index_of t index ->
  In (s, t, loc total index s t)
     (rows (network_edges total index cluster_key clone_key)).
Proof.
  intros Hnd Hc Hs Ht Hk Hlt. unfold network_edges.
  pose proof (fallback_rows_all index clone_key s t Hnd Hs Ht Hk Hlt) as HB.
  destruct (edge_list_final_merged total index
              (edge_lists (mst (cluster_dist total index
                                   (group_members cluster_key index))))
              (edge_lists (tmp_clone_tree3 (group_members clone_key index))))
    as (A & B & HA & HBr & E).
  - unfold edge_lists, mst.
    destruct (cluster_dist total index (group_members cluster_key index));
      [congruence|discriminate].
  - intros E. rewrite E in HB. exact HB.
  - rewrite E. unfold set_weights. simpl rows.
    destruct (combine_first_has_key A B (s, t)) as [r [Hr Hfst]].
    { right. rewrite HBr. apply in_map_iff.
      exists (s, t, inject_Z 1). auto. }
    apply in_map_iff. exists r. split; auto.
    destruct r as [[s' t'] w]. simpl in Hfst. inversion Hfst; subst.
    reflexivity.
Qed.

(** A row of the spanning trees joins two members of one cluster, a row of
    the fallback two members of one clone. *)
Lemma labelled_edges_members df r :
  (forall i j z, In (i, j, z) (adjacency_edges (frame_values df)) ->
                 i < j /\ j < length (frame_index df)) ->
  In r (labelled_edges df) ->
  In (source r) (frame_index df) /\ In (target r) (frame_index df).
Proof.
  intros Hup Hin. unfold labelled_edges in Hin.
  apply in_map_iff in Hin. destruct Hin as [[[i j] z] [<- Hin]].
  destruct (Hup i j z Hin) as [Hij Hj].
  unfold source, target. simpl. split; apply nth_In; lia.
Qed.

Lemma mst_rows_members total index key r :
  NoDup index ->
  In r (concat (map rows (map snd
          (edge_lists (mst (cluster_dist total index
                                         (group_members key index))))))) ->
  In (source r) index /\ In (target r) index /\
  key (source r) = key (target r).
Proof.
  intros Hnd Hin. apply edge_lists_rows in Hin.
  destruct Hin as (c & df & Hdf & Hr).
  unfold mst in Hdf. apply in_map_iff in Hdf.
  destruct Hdf as [[c' d] [E Hd]]. simpl in E. inversion E; subst c' df. clear E.
  apply cluster_dist_In in Hd. destruct Hd as (ms & Hms & ->).
  apply labelled_edges_members in Hr.
  - simpl in Hr. destruct Hr as [H1 H2].
    destruct (member_key key index c ms _ Hnd Hms H1) as [I1 K1].
    destruct (member_key key index c ms _ Hnd Hms H2) as [I2 K2].
    repeat split; auto. congruence.
  - simpl. intros i j z Hz.
    apply (mst_adjacency_edges_upper (length ms) (loc_sub total index ms) i j z);
      auto.
    apply loc_sub_square.
Qed.

Lemma fallback_rows_members index key r :
  NoDup index ->
  In r (concat (map rows (map snd
          (edge_lists (tmp_clone_tree3 (group_members key index)))))) ->
  In (source r) index /\ In (target r) index /\
  key (source r) = key (target r).
Proof.
  intros Hnd Hin. apply edge_lists_rows in Hin.
  destruct Hin as (c & df & Hdf & Hr).
  unfold tmp_clone_tree3 in Hdf. apply in_map_iff in Hdf.
  destruct Hdf as [[c' ms] [E Hms]]. simpl in E. inversion E; subst c' df. clear E.
  apply labelled_edges_members in Hr.
  - simpl in Hr. destruct Hr as [H1 H2].
    destruct (member_key key index c ms _ Hnd Hms H1) as [I1 K1].
    destruct (member_key key index c ms _ Hnd Hms H2) as [I2 K2].
    repeat split; auto. congruence.
  - simpl. intros i j z Hz. apply (placeholder_edges _ i j z Hz).
Qed.

Lemma network_edges_rows_within total index cluster_key clone_key r :
  NoDup index ->
  In r (rows (network_edges total index cluster_key clone_key)) ->
  In (source r) index /\ In (target r) index /\
  (cluster_key (source r) = cluster_key (target r) \/
   clone_key (source r) = clone_key (target r)).
Proof.
  intros Hnd. unfold network_edges.
  destruct (edge_list_final_cases total index
              (edge_lists (mst (cluster_dist total index
                                   (group_members cluster_key index))))
              (edge_lists (tmp_clone_tree3 (group_members clone_key index))))
    as [E|(A & B & HA & HB & E)]; rewrite E.
  - simpl. tauto.
  - unfold set_weights. simpl rows. intros Hr.
    apply in_map_iff in Hr. destruct Hr as [r0 [<- Hr0]].
    unfold source at 1 3 5, target at 1 3 5. simpl.
    apply combine_first_rows in Hr0. destruct Hr0 as [Hr0|Hr0].
    + rewrite HA in Hr0.
      destruct (mst_rows_members total index cluster_key r0 Hnd Hr0)
        as (H1 & H2 & H3).
      auto.
    + rewrite HB in Hr0.
      destruct (fallback_rows_members index clone_key r0 Hnd Hr0)
        as (H1 & H2 & H3).
      auto.
Qed.

(** X1.  With the clusters read from the clone column (the default,
    [constructbygroup = False]) and an index without repeated label, the
    merged edge list holds exactly one row for every pair of distinct
    entities of one clone, from the entity that comes first in the index to
    the other one, weighted by their total distance: the rows (source,
    target, weight) are characterised without reference to the spanning
    trees. *)
Theorem network_edges_default_cliques
    (total : matrix Q) (index : list string) (key : string -> string)
    (s t : string) (w : Q) :
  NoDup index ->
  (In (s, t, w) (rows (network_edges total index key key)) <->
   In s index /\ In t index /\ key s = key t /\
   index_of s index < index_of t index /\ w = loc total index s t).
Proof.
  intros Hnd. split.
  - intros Hin.
    destruct (network_edges_rows total index key key Hnd) as (_ & Hor & Hw).
    destruct (network_edges_rows_within total index key key _ Hnd Hin)
      as (H1 & H2 & H3).
    pose proof (Hor _ Hin) as Ho. pose proof (Hw _ Hin) as Hwe.
    unfold oriented, source, target, weight in *. simpl in *.
    repeat split; auto. tauto.
  - intros (Hs & Ht & Hk & Hlt & ->).
    apply network_edges_clone_pairs; auto.
    apply (cluster_dist_nonempty total index key s t); auto.
    intros ->. lia.
Qed.

Lemma network_edges_default_cliques_witness :
  In ("b", "c", 3%Q)%string
     (rows (network_edges example_total example_index example_clone
                          example_clone)) <->
  In "b"%string example_index /\ In "c"%string example_index /\
  example_clone "b" = example_clone "c" /\
  index_of "b" example_index < index_of "c" example_index /\
  3%Q = loc example_total example_index "b" "c".
Proof.
  apply (network_edges_default_cliques example_total example_index
           example_clone "b" "c" 3%Q)%string.
  unfold example_index.
  repeat (constructor; [simpl; intuition discriminate|]). constructor.
Defined.

(** X2.  Whatever column the clusters are read from ([constructbygroup]
    set or not): every row of the merged edge list joins two entities of
    the index that share their cluster or their clone; and as soon as two
    distinct entities share a cluster, every pair of distinct entities of
    one clone is a row, weighted by their total distance. *)
Theorem network_edges_links_clones
    (total : matrix Q) (index : list string)
    (cluster_key clone_key : string -> string) :
  NoDup index ->
  let R := rows (network_edges total index cluster_key clone_key) in
  (forall r, In r R ->
     In (source r) index /\ In (target r) index /\
     (cluster_key (source r) = cluster_key (target r) \/
      clone_key (source r) = clone_key (target r))) /\
  ((exists u v, In u index /\ In v index /\ u <> v /\
                cluster_key u = cluster_key v) ->
   forall s t, In s index -> In t index -> clone_key s = clone_key t ->
     index_of s index < index_of t index ->
     In (s, t, loc total index s t) R).
Proof.
  intros Hnd. cbv zeta. split.
  - intros r Hr.
    apply (network_edges_rows_within total index cluster_key clone_key r Hnd Hr).
  - intros (u & v & Hu & Hv & Hne & Hk) s t Hs Ht Hc Hlt.
    apply network_edges_clone_pairs; auto.
    apply (cluster_dist_nonempty total index cluster_key u v); auto.
Qed.

Lemma network_edges_links_clones_witness :
  let R := rows (network_edges example_total example_index
                               example_group example_clone) in
  (forall r, In r R ->
     In (source r) example_index /\ In (target r) example_index /\
     (example_group (source r) = example_group (target r) \/
      example_clone (source r) = example_clone (target r))) /\
  ((exists u v, In u example_index /\ In v example_index /\ u <> v /\
                example_group u = example_group v) ->
   forall s t, In s example_index -> In t example_index ->
     example_clone s = example_clone t ->
     index_of s example_index < index_of t example_index ->
     In (s, t, loc example_total example_index s t) R).
Proof.
  apply (network_edges_links_clones example_total example_index
           example_group example_clone).
  unfold example_index.
  repeat (constructor; [simpl; intuition discriminate|]). constructor.
Defined.

End EdgeListFacts.

(** ** What clone_degree stores *)

Module SelfLoopFacts.
Import Numeric Errors Dict Nx SpanningTree Distance Network.
Import NxFacts DictFacts.

Lemma zip3_same {A C} (a : list A) : forall (c : list C),
  zip3 a a c = map (fun p => (fst p, fst p, snd p)) (combine a c).
Proof.
  induction a as [|x a IH]; intros [|z c]; simpl; auto.
  rewrite IH. reflexivity.
Qed.

Lemma mem_app_new {V} k (d : dict V) v : mem k (d ++ [(k, v)]) = true.
Proof.
  apply mem_keys. unfold keys. rewrite map_app. apply in_or_app. simpl. auto.
Qed.

Lemma get_app_new {V} k (d : dict V) v :
  ~ In k (keys d) -> get k (d ++ [(k, v)]) = Some v.
Proof.
  induction d as [|[k' v'] d IH]; simpl; intros H.
  - rewrite String.eqb_refl. reflexivity.
  - destruct (String.eqb_spec k' k) as [->|Hne]; [tauto|]. apply IH. tauto.
Qed.

Lemma set_app_new {V} k (d : dict V) v v' :
  ~ In k (keys d) -> set k v' (d ++ [(k, v)]) = d ++ [(k, v')].
Proof.
  induction d as [|[k0 v0] d IH]; simpl; intros H.
  - rewrite String.eqb_refl. reflexivity.
  - destruct (String.eqb_spec k0 k) as [->|Hne]; [tauto|].
    rewrite IH by tauto. reflexivity.
Qed.

(** A self-loop on a new node appends the node with itself as its only
    neighbour. *)
Lemma add_self_loop u w G :
  ~ In u (nodes G) -> add_edge u u w G = G ++ [(u, [(u, w)])].
Proof.
  intros Hu. unfold add_edge, add_node, neighbors, nodes in *.
  assert (Hm : mem u G = false).
  { destruct (mem u G) eqn:E; auto. apply mem_keys in E. contradiction. }
  rewrite Hm, mem_app_new. unfold get_default.
  rewrite get_app_new by exact Hu. simpl.
  rewrite set_app_new by exact Hu.
  rewrite get_app_new by exact Hu. simpl. rewrite String.eqb_refl.
  rewrite set_app_new by exact Hu. reflexivity.
Qed.

Lemma add_self_loops (l : list (string * Q)) : forall G,
  NoDup (map fst l) -> (forall u, In u (map fst l) -> ~ In u (nodes G)) ->
  add_weighted_edges_from (map (fun p => (fst p, fst p, snd p)) l) G
  = G ++ map (fun p => (fst p, [(fst p, snd p)])) l.
Proof.
  unfold add_weighted_edges_from.
  induction l as [|[u w] l IH]; intros G Hnd Hfresh; simpl.
  - rewrite app_nil_r. reflexivity.
  - inversion Hnd as [|? ? Hu Hnd']; subst.
    rewrite add_self_loop by (apply Hfresh; simpl; auto).
    rewrite IH; auto.
    + rewrite <- app_assoc. reflexivity.
    + intros v Hv Hin. unfold nodes, keys in Hin. rewrite map_app in Hin.
      apply in_app_or in Hin. destruct Hin as [Hin|[<-|[]]].
      * apply (Hfresh v); simpl; auto.
      * contradiction.
Qed.

Lemma NoDup_combine_fst {A B} (a : list A) : forall (b : list B),
  NoDup a -> NoDup (map fst (combine a b)).
Proof.
  induction a as [|x a IH]; intros [|y b] H; simpl; try constructor.
  - inversion H as [|? ? Hx Ha]; subst. intros Hin. apply Hx.
    apply in_map_iff in Hin. destruct Hin as [[x' y'] [E Hin]].
    simpl in E. subst. apply (in_combine_l _ _ _ _ Hin).
  - inversion H; subst. apply IH. auto.
Qed.

(** The graph [clone_degree] builds. *)
Lemma self_loop_graph (index : list string) (data : list Q) :
  NoDup index ->
  add_weighted_edges_from (zip3 index index data) empty_graph
  = map (fun p => (fst p, [(fst p, snd p)])) (combine index data).
Proof.
  intros Hnd. rewrite zip3_same. rewrite add_self_loops.
  - reflexivity.
  - apply NoDup_combine_fst. exact Hnd.
  - intros u _ [].
Qed.

Lemma self_loop_get (index : list string) : forall (data : list Q) k,
  NoDup index -> k < length index ->
  get (nth k index ""%string)
      (map (fun p => (fst p, [(fst p, snd p)])) (combine index data))
  = match nth_error data k with
    | Some d => Some [(nth k index ""%string, d)]
    | None => None
    end.
Proof.
  induction index as [|x index IH]; intros data k Hnd Hk; simpl in Hk; [lia|].
  inversion Hnd as [|? ? Hx Hnd']; subst.
  destruct data as [|d data].
  - simpl. destruct k; reflexivity.
  - destruct k as [|k]; simpl.
    + rewrite String.eqb_refl. reflexivity.
    + destruct (String.eqb_spec x (nth k index ""%string)) as [E|Hne].
      * exfalso. apply Hx. rewrite E. apply nth_In. lia.
      * apply IH; auto. lia.
Qed.

End SelfLoopFacts.

Module CloneDegreeGeneral.
Import Numeric Errors Dict Nx SpanningTree Distance Network.
Import NxFacts DictFacts SelfLoopFacts.

(** X3.  On an index without repeated label [clone_degree] pairs entity
    number [k] with the [k]-th non-zero cell of the summed distance matrix
    (row-major order) as a self-loop, and stores twice that cell as the
    entity's clone degree; the entities past the number of non-zero cells
    get no value (NaN); without any entity or any non-zero cell the call
    fails with [KeyError] on the empty degree table. *)
Theorem clone_degree_self_loops
    (index : list string) (distance : list (matrix Q)) :
  NoDup index ->
  let data := csr_data (np_sum_axis0 distance) in
  (index = [] \/ data = [] -> clone_degree index distance = Raise KeyError) /\
  (index <> [] -> data <> [] ->
   exists cd,
     clone_degree index distance = Ok cd /\
     map fst cd = index /\
     forall k, k < length index ->
       match nth_error data k with
       | Some d => exists v, nth k (map snd cd) None = Some v /\ (v == 2 * d)%Q
       | None => nth k (map snd cd) None = None
       end).
Proof.
  intros Hnd. cbv zeta. unfold clone_degree.
  rewrite (self_loop_graph index _ Hnd).
  set (data := csr_data (np_sum_axis0 distance)).
  set (G := map (fun p : string * Q => (fst p, [(fst p, snd p)]))
                (combine index data)).
  split.
  - intros [->|E].
    + reflexivity.
    + unfold G. rewrite E. rewrite combine_nil. reflexivity.
  - intros Hi Hd.
    assert (HG : nodes G <> []).
    { unfold G. destruct index as [|x index]; [congruence|].
      destruct data as [|d data]; [congruence|]. discriminate. }
    destruct (nodes G) as [|n0 ns] eqn:En; [congruence|].
    eexists. split; [reflexivity|]. split.
    + rewrite map_map. simpl. apply map_id.
    + intros k Hk. rewrite map_map. simpl.
      rewrite (MatrixFacts.nth_map_in _ index k ""%string None Hk).
      assert (Hget : @get (dict Q) (nth k index ""%string) G
                     = match nth_error data k with
                       | Some d => Some [(nth k index ""%string, d)]
                       | None => None
                       end)
        by exact (self_loop_get index data k Hnd Hk).
      destruct (nth_error data k) as [d|].
      * unfold mem, weighted_degree, neighbors, get_default. rewrite Hget.
        eexists. split; [reflexivity|]. simpl.
        rewrite String.eqb_refl. ring.
      * unfold mem. rewrite Hget. reflexivity.
Qed.

Lemma clone_degree_self_loops_witness :
  let index := ["a"; "b"; "c"]%string in
  let data := csr_data (np_sum_axis0 example_distance) in
  (index = [] \/ data = [] ->
   clone_degree index example_distance = Raise KeyError) /\
  (index <> [] -> data <> [] ->
   exists cd,
     clone_degree index example_distance = Ok cd /\
     map fst cd = index /\
     forall k, k < length index ->
       match nth_error data k with
       | Some d => exists v, nth k (map snd cd) None = Some v /\ (v == 2 * d)%Q
       | None => nth k (map snd cd) None = None
       end).
Proof.
  apply (clone_degree_self_loops ["a"; "b"; "c"]%string example_distance).
  repeat (constructor; [simpl; intuition discriminate|]). constructor.
Defined.

(** Four entities of which the last two are identical: the summed matrix
    has six non-zero cells, the first four of them (1, 2, 2, 1) become the
    self-loops. *)
Example clone_degree_four_entities :
  clone_degree ["a"; "b"; "c"; "d"]%string
    [[[0; 1; 2; 2]; [1; 0; 3; 3]; [2; 3; 0; 0]; [2; 3; 0; 0]]%Q]
  = Ok [("a", Some 2); ("b", Some 4); ("c", Some 4); ("d", Some 2)]%string%Q.
Proof. vm_compute. reflexivity. Qed.

End CloneDegreeGeneral.

(** ** When the layouts are computed *)

Module LayoutReturns.
Import Numeric Errors Dict Nx Distance Layout Network Shapes.
Import NxFacts GenerateLayoutFacts LayoutFacts.

Lemma lcg_row_length dim : forall s, length (fst (lcg_row s dim)) = dim.
Proof.
  induction dim as [|d IH]; intros s; simpl; auto.
  specialize (IH (lcg_next s)). destruct (lcg_row (lcg_next s) d). simpl in *.
  congruence.
Qed.

Lemma lcg_rand_shape : rand_shape lcg_rand.
Proof.
  intros g n dim. revert g.
  induction n as [|k IH]; intros g; simpl.
  - split; auto.
  - pose proof (lcg_row_length dim g) as Hr.
    destruct (lcg_row g dim) as [r s1]. simpl in Hr.
    specialize (IH s1). destruct (lcg_rand s1 k dim) as [m s2]. simpl in *.
    destruct IH as [H1 H2]. split; [congruence|]. constructor; auto.
Qed.

(** *** Shapes through the dense loop *)

Lemma dense_delta_pos_rows A k n fixed pos t d :
  Forall (fun r => length r = d) pos ->
  Forall (fun r => length r = d) (dense_delta_pos A k n fixed pos t).
Proof.
  intros H. unfold dense_delta_pos. rewrite Forall_forall. intros r Hr.
  apply in_map_iff in Hr. destruct Hr as [[i row] [<- Hin]].
  rewrite length_map. simpl. apply in_combine_r in Hin.
  unfold dense_displacement in Hin. apply in_map_iff in Hin.
  destruct Hin as [j [<- Hj]]. rewrite length_map, length_seq.
  apply in_seq in Hj. rewrite Forall_forall in H. apply H. apply nth_In. lia.
Qed.

Lemma add_pos_rows pos delta d :
  Forall (fun r => length r = d) pos -> Forall (fun r => length r = d) delta ->
  Forall (fun r => length r = d) (add_pos pos delta).
Proof.
  intros Hp Hd. unfold add_pos. rewrite Forall_forall. intros r Hr.
  apply in_map_iff in Hr. destruct Hr as [[a b] [<- Hin]].
  rewrite length_map, length_combine. simpl.
  rewrite Forall_forall in Hp, Hd.
  rewrite (Hp a (in_combine_l _ _ _ _ Hin)), (Hd b (in_combine_r _ _ _ _ Hin)).
  apply Nat.min_id.
Qed.

Lemma dense_loop_shape A k n fixed threshold dt d iterations :
  forall pos t, has_shape n d pos ->
    exists q, dense_loop iterations A k n fixed threshold dt pos t = Ok q /\
              has_shape n d q.
Proof.
  induction iterations as [|it IH]; intros pos t [Hl Hr]; simpl.
  - exists pos. split; [reflexivity|split; auto].
  - rewrite Hl, Nat.eqb_refl. simpl.
    assert (Hs : has_shape n d (add_pos pos (dense_delta_pos A k n fixed pos t))).
    { split.
      - rewrite add_pos_length; auto. rewrite dense_delta_pos_length. reflexivity.
      - apply add_pos_rows; auto. apply dense_delta_pos_rows. exact Hr. }
    destruct (PrimFloat.ltb _ threshold).
    + eexists. split; [reflexivity|exact Hs].
    + apply IH. exact Hs.
Qed.

(** *** Shape of the rescaled positions *)

Lemma rescale_layout_shape pos scale n d :
  has_shape n d pos -> 1 <= n -> has_shape n d (_rescale_layout pos scale).
Proof.
  intros [Hl Hr] Hn. unfold _rescale_layout.
  assert (Hs : snd (shape pos) = d).
  { unfold shape. destruct pos as [|r pos]; simpl in *; [lia|].
    inversion Hr; auto. }
  split.
  - rewrite length_map, length_seq. exact Hl.
  - rewrite Forall_forall. intros r Hin. apply in_map_iff in Hin.
    destruct Hin as [i [<- _]]. rewrite length_map.
    match goal with
    | |- length (if ?c then _ else _) = _ => destruct c
    end; rewrite ?length_map; unfold transpose;
      rewrite length_map, length_seq; exact Hs.
Qed.

Lemma keys_combine {V} (ks : list string) : forall (vs : list V),
  length vs = length ks -> keys (combine ks vs) = ks.
Proof.
  unfold keys. induction ks as [|k ks IH]; intros [|v vs] H; simpl in *;
    try lia; auto.
  f_equal. apply IH. lia.
Qed.

Lemma values_combine {V} (P : V -> Prop) (ks : list string) (vs : list V) :
  Forall P vs -> Forall (fun kv => P (snd kv)) (combine ks vs).
Proof.
  intros H. rewrite Forall_forall in *. intros [k v] Hin. simpl.
  apply H. apply (in_combine_r _ _ _ _ Hin).
Qed.

Lemma to_numpy_array_rows G : fst (shape (to_numpy_array G)) = length (nodes G).
Proof. unfold shape, to_numpy_array. simpl. apply length_map. Qed.

Section Generator.
Variable RandomState : Type.
Variable rand : RandomState -> nat -> nat -> farray * RandomState.
Variable seeded : Z -> RandomState.
Hypothesis rand_ok : rand_shape rand.

(** The generator state after the draw of initial positions. *)
Let after_draw (seed : seed_arg) (n : nat) (g : RandomState) : RandomState :=
  match seed with
  | SeedNone => snd (rand g n 2)
  | SeedInt _ => g
  end.

Lemma initial_pos_drawn n seed g :
  exists p, initial_pos rand n 2 None (create_random_state seeded seed) g
            = (Ok p, after_draw seed n g) /\ has_shape n 2 p.
Proof.
  unfold initial_pos, draw, create_random_state, after_draw.
  destruct seed as [|s].
  - pose proof (rand_ok g n 2) as H. destruct (rand g n 2) as [x g1].
    simpl in *. exists x. split; auto.
  - exists (fst (rand (seeded s) n 2)). split; auto. apply rand_ok.
Qed.

Lemma has_shape_nonempty n d (p : farray) : 1 <= n -> has_shape n d p -> p <> [].
Proof. intros Hn [Hl _] ->. simpl in Hl. lia. Qed.

(** The dense routine returns positions of the shape (nnodes, 2). *)
Lemma dense_returns A k fixed iterations threshold seed g :
  1 <= fst (shape A) ->
  exists q,
    _fruchterman_reingold rand seeded A k None fixed iterations threshold 2
                          seed g
    = (Ok q, after_draw seed (fst (shape A)) g) /\
    has_shape (fst (shape A)) 2 q.
Proof.
  intros Hn. unfold _fruchterman_reingold, mbind, lift.
  destruct (initial_pos_drawn (fst (shape A)) seed g) as [p [-> Hp]].
  destruct (temperature_ok p (has_shape_nonempty _ _ p Hn Hp) (proj2 Hp))
    as [t ->].
  destruct (dense_loop_shape A (optimal_distance k (fst (shape A)))
              (fst (shape A)) fixed threshold
              (t / of_nat (iterations + 1))%float 2 iterations p t Hp)
    as [q [-> Hq]].
  exists q. auto.
Qed.

(** From three nodes on the sparse routine raises in its first iteration,
    after the draw of its initial positions. *)
Lemma sparse_raises A k fixed iterations threshold seed g :
  3 <= fst (shape A) -> 1 <= iterations ->
  _sparse_fruchterman_reingold rand seeded A k None fixed iterations threshold
                               2 seed g
  = (Raise ValueError, after_draw seed (fst (shape A)) g).
Proof.
  intros Hn Hit. unfold _sparse_fruchterman_reingold, mbind, lift.
  destruct (initial_pos_drawn (fst (shape A)) seed g) as [p [-> Hp]].
  assert (Hn1 : 1 <= fst (shape A)) by lia.
  destruct (temperature_ok p (has_shape_nonempty _ _ p Hn1 Hp) (proj2 Hp))
    as [t ->].
  destruct iterations as [|it]; [lia|]. cbn [sparse_loop].
  destruct Hp as [Hl Hr]. rewrite Hl, Nat.eqb_refl. simpl negb. cbv iota.
  rewrite (sparse_delta_pos_raises A _ (fst (shape A))) by auto.
  reflexivity.
Qed.

(** The tail of [_fruchterman_reingold_layout] (lines 431-434) applied to
    the positions the dense routine computes. *)
Let finish (G : Graph) (scale : option float) (pos : farray)
  : M RandomState (dict (list float)) :=
  ret (combine (nodes G)
               match scale with
               | Some s => map (map (fun x => (x + 0)%float)) (_rescale_layout pos s)
               | None => pos
               end).

Lemma layout_by_dense G iterations threshold scale seed g :
  2 <= length (nodes G) ->
  (500 <= length (nodes G) -> 1 <= iterations) ->
  _fruchterman_reingold_layout rand seeded G iterations threshold scale seed g
  = mbind (_fruchterman_reingold rand seeded (to_numpy_array G) None None None
                                 iterations threshold 2 seed)
          (finish G scale)
          (if length (nodes G) <? 500 then g
           else after_draw seed (length (nodes G)) g).
Proof.
  intros Hn Hit. unfold _fruchterman_reingold_layout.
  destruct (nodes G) as [|n1 [|n2 ns]] eqn:En; simpl in Hn; try lia.
  rewrite <- En.
  assert (Hlen : length G = length (nodes G)).
  { unfold nodes, keys. rewrite length_map. reflexivity. }
  rewrite Hlen. unfold mbind.
  destruct (Nat.ltb_spec (length (nodes G)) 500) as [Hlt|Hge].
  - unfold raise. reflexivity.
  - rewrite sparse_raises.
    + rewrite to_numpy_array_rows. reflexivity.
    + rewrite to_numpy_array_rows. lia.
    + apply Hit. rewrite <- En. exact Hge.
Qed.

(** The layout function returns one position of two coordinates per node. *)
Lemma layout_returns G iterations threshold scale seed g :
  (500 <= length (nodes G) -> 1 <= iterations) ->
  exists p g',
    _fruchterman_reingold_layout rand seeded G iterations threshold scale seed g
    = (Ok p, g') /\
    keys p = nodes G /\ Forall (fun kv => length (snd kv) = 2) p.
Proof.
  intros Hit.
  destruct (le_lt_dec 2 (length (nodes G))) as [Hn|Hn].
  - rewrite layout_by_dense by auto.
    set (g0 := if length (nodes G) <? 500 then g
               else after_draw seed (length (nodes G)) g).
    unfold mbind.
    destruct (dense_returns (to_numpy_array G) None None iterations threshold
                            seed g0) as [q [-> Hq]].
    { rewrite to_numpy_array_rows. lia. }
    rewrite to_numpy_array_rows in Hq.
    unfold finish, ret. eexists. eexists. split; [reflexivity|].
    assert (Hq' : has_shape (length (nodes G)) 2
                    match scale with
                    | Some s => map (map (fun x => (x + 0)%float)) (_rescale_layout q s)
                    | None => q
                    end).
    { destruct scale as [s|]; auto.
      assert (Hn1 : 1 <= length (nodes G)) by lia.
      destruct (rescale_layout_shape q s _ 2 Hq Hn1) as [H1 H2].
      split.
      - rewrite length_map. exact H1.
      - rewrite Forall_forall in *. intros r Hr. apply in_map_iff in Hr.
        destruct Hr as [r0 [<- Hr0]]. rewrite length_map. auto. }
    destruct Hq' as [H1 H2]. split.
    + apply keys_combine. exact H1.
    + apply (values_combine (fun v => length v = 2)). exact H2.
  - unfold _fruchterman_reingold_layout.
    destruct (nodes G) as [|n1 [|n2 ns]] eqn:En; simpl in Hn; try lia.
    + exists [], g. unfold ret. repeat split; auto.
    + exists [(n1, [0%float; 0%float])], g. unfold ret. repeat split; auto.
Qed.

Lemma generate_layout_total
    (vertices : list string) (edges : DataFrame) (min_size : Z)
    (g : RandomState) :
  (exists r g',
     generate_layout rand seeded vertices edges min_size g = (Ok r, g')) <->
  (edge_triples edges = Ok (rows edges) /\
   Nx.edges (trim (full_graph vertices edges) min_size) <> []).
Proof.
  split.
  - intros (r & g' & H). unfold generate_layout, mbind, lift in H.
    unfold edge_triples in *.
    destruct (forallb _ _); [|discriminate]. split; [reflexivity|].
    fold (full_graph vertices edges) in H. unfold get_edge_attributes in H.
    intros E. rewrite E in H. discriminate.
  - intros [Ht He]. unfold generate_layout, mbind, lift. rewrite Ht.
    fold (full_graph vertices edges). unfold get_edge_attributes.
    destruct (Nx.edges (trim (full_graph vertices edges) min_size))
      as [|e es] eqn:E; [congruence|]. simpl.
    destruct (layout_returns (full_graph vertices edges) 50 0.0001%float
                (Some 1%float) SeedNone g) as (p & g1 & -> & _); [lia|].
    destruct (layout_returns (trim (full_graph vertices edges) min_size) 50
                0.0001%float (Some 1%float) SeedNone g1) as (p' & g2 & -> & _);
      [lia|].
    unfold ret. eexists. eexists. reflexivity.
Qed.

(** X4.  Whatever the vertices, the edge table and [min_size], and given a
    generator whose draws have the requested shape: [generate_layout]
    returns its graphs and layouts exactly when the edge table has the
    columns source, target and weight and the trimmed graph keeps at least
    one edge; nothing else in the two layout computations can fail. *)
Theorem generate_layout_returns_iff
    (vertices : list string) (edges : DataFrame) (min_size : Z)
    (g : RandomState) :
  (exists r g',
     generate_layout rand seeded vertices edges min_size g = (Ok r, g')) <->
  (edge_triples edges = Ok (rows edges) /\
   Nx.edges (trim (full_graph vertices edges) min_size) <> []).
Proof. apply generate_layout_total. Qed.

Lemma generate_layout_shapes
    (vertices : list string) (edges : DataFrame) (min_size : Z)
    (g g' : RandomState) (r : layout_result) :
  generate_layout rand seeded vertices edges min_size g = (Ok r, g') ->
  keys (pos r) = nodes (graph r) /\
  keys (pos_ r) = nodes (trimmed r) /\
  Forall (fun kv => length (snd kv) = 2) (pos r) /\
  Forall (fun kv => length (snd kv) = 2) (pos_ r).
Proof.
  intros H.
  destruct (SeedFacts.generate_layout_calls RandomState rand seeded vertices
              edges min_size g r g' H) as (g1 & H1 & H2).
  destruct (layout_returns (graph r) 50 0.0001%float (Some 1%float) SeedNone g)
    as (p & ga & Ea & Ka & Fa); [lia|].
  destruct (layout_returns (trimmed r) 50 0.0001%float (Some 1%float) SeedNone g1)
    as (p' & gb & Eb & Kb & Fb); [lia|].
  rewrite Ea in H1. rewrite Eb in H2.
  inversion H1; subst. inversion H2; subst. auto.
Qed.

(** X5.  Given a generator whose draws have the requested shape, whenever
    [generate_layout] returns, each of its two layouts holds exactly one
    position per node of its graph, in node order, and every position has
    two coordinates. *)
Theorem generate_layout_positions
    (vertices : list string) (edges : DataFrame) (min_size : Z)
    (g g' : RandomState) (r : layout_result) :
  generate_layout rand seeded vertices edges min_size g = (Ok r, g') ->
  keys (pos r) = nodes (graph r) /\
  keys (pos_ r) = nodes (trimmed r) /\
  Forall (fun kv => length (snd kv) = 2) (pos r) /\
  Forall (fun kv => length (snd kv) = 2) (pos_ r).
Proof. apply generate_layout_shapes. Qed.

(** X6.  On a graph of 500 nodes or more, with at least one iteration and
    a generator whose draws have the requested shape, the sparse solver
    that [_fruchterman_reingold_layout] tries first raises [ValueError]
    after drawing its initial positions, and the layout returned is the one
    of the dense solver, run from the generator state that draw left
    behind: the sparse solver never contributes to a layout. *)
Theorem layout_falls_back_to_dense
    (G : Graph) (iterations : nat) (threshold : float) (scale : option float)
    (seed : seed_arg) (g : RandomState) :
  500 <= length (nodes G) -> 1 <= iterations ->
  let n := length (nodes G) in
  let A := to_numpy_array G in
  let g1 := match seed with
            | SeedNone => snd (rand g n 2)
            | SeedInt _ => g
            end in
  _sparse_fruchterman_reingold rand seeded A None None None iterations
                               threshold 2 seed g
  = (Raise ValueError, g1) /\
  _fruchterman_reingold_layout rand seeded G iterations threshold scale seed g
  = mbind (_fruchterman_reingold rand seeded A None None None iterations
                                 threshold 2 seed)
          (fun pos =>
             ret (combine (nodes G)
                    match scale with
                    | Some s => map (map (fun x => (x + 0)%float))
                                    (_rescale_layout pos s)
                    | None => pos
                    end))
          g1.
Proof.
  intros Hn Hit. cbv zeta. split.
  - rewrite sparse_raises; auto.
    + rewrite to_numpy_array_rows. reflexivity.
    + rewrite to_numpy_array_rows. lia.
  - rewrite layout_by_dense by (auto; lia).
    destruct (Nat.ltb_spec (length (nodes G)) 500); [lia|]. reflexivity.
Qed.

End Generator.

Lemma generate_layout_returns_iff_witness :
  (exists r g',
     generate_layout lcg_rand (fun s => s) ["a"; "b"; "c"]%string
                     example_edges 2 1%Z = (Ok r, g')) <->
  (edge_triples example_edges = Ok (rows example_edges) /\
   Nx.edges (trim (full_graph ["a"; "b"; "c"]%string example_edges) 2) <> []).
Proof.
  apply (generate_layout_returns_iff Z lcg_rand (fun s => s) lcg_rand_shape
           ["a"; "b"; "c"]%string example_edges 2%Z 1%Z).
Defined.

Lemma generate_layout_positions_witness :
  let r := returned no_layout (fst example_layout_run) in
  keys (pos r) = nodes (graph r) /\
  keys (pos_ r) = nodes (trimmed r) /\
  Forall (fun kv => length (snd kv) = 2) (pos r) /\
  Forall (fun kv => length (snd kv) = 2) (pos_ r).
Proof.
  apply (generate_layout_positions Z lcg_rand (fun s => s) lcg_rand_shape
           ["a"; "b"; "c"]%string example_edges 2%Z 1%Z
           (snd example_layout_run)
           (returned no_layout (fst example_layout_run))).
  vm_compute. reflexivity.
Defined.

Lemma layout_falls_back_to_dense_witness :
  let G := large_graph in
  let n := length (nodes G) in
  let A := to_numpy_array G in
  let g1 := snd (lcg_rand 1%Z n 2) in
  _sparse_fruchterman_reingold lcg_rand (fun s => s) A None None None 50
                               0.0001%float 2 SeedNone 1%Z
  = (Raise ValueError, g1) /\
  _fruchterman_reingold_layout lcg_rand (fun s => s) G 50 0.0001%float
                               (Some 1%float) SeedNone 1%Z
  = mbind (_fruchterman_reingold lcg_rand (fun s => s) A None None None 50
                                 0.0001%float 2 SeedNone)
          (fun pos =>
             ret (combine (nodes G)
                    (map (map (fun x => (x + 0)%float))
                         (_rescale_layout pos 1%float))))
          g1.
Proof.
  apply (layout_falls_back_to_dense Z lcg_rand (fun s => s) lcg_rand_shape
           large_graph 50 0.0001%float (Some 1%float) SeedNone 1%Z).
  - unfold large_graph, nodes, keys. rewrite !length_map, length_seq. lia.
  - lia.
Defined.

End LayoutReturns.

(** ** Graphs built edge by edge *)

Module GraphFacts.
Import Numeric Errors Dict Nx GraphNotions Network.
Import NxFacts DictFacts GenerateLayoutFacts.

(** *** Neighbours after each operation *)

Lemma neighbors_set k (v : dict Q) G x :
  neighbors (set k v G) x = if String.eqb k x then v else neighbors G x.
Proof. unfold neighbors. apply get_default_set. Qed.

Lemma get_app_old {V} k (d : dict V) k' v :
  k <> k' -> get k (d ++ [(k', v)]) = get k d.
Proof.
  intros Hne. induction d as [|[k0 v0] d IH]; simpl.
  - destruct (String.eqb_spec k' k); [congruence|reflexivity].
  - destruct (String.eqb k0 k); auto.
Qed.

Lemma mem_false_get {V} k (d : dict V) : mem k d = false -> get k d = None.
Proof. unfold mem. destruct (get k d); [discriminate|reflexivity]. Qed.

Lemma mem_true_get {V} k (d : dict V) : mem k d = true -> exists v, get k d = Some v.
Proof. unfold mem. destruct (get k d) as [v|]; [eauto|discriminate]. Qed.

Lemma neighbors_add_node n G x : neighbors (add_node n G) x = neighbors G x.
Proof.
  unfold add_node. destruct (mem n G) eqn:E; auto.
  unfold neighbors, get_default.
  destruct (String.eqb_spec x n) as [->|Hne].
  - rewrite SelfLoopFacts.get_app_new.
    + rewrite (mem_false_get _ _ E). reflexivity.
    + intros Hin. apply mem_keys in Hin. congruence.
  - rewrite get_app_old by exact Hne. reflexivity.
Qed.

Lemma get_set {V} k y (w : V) d :
  get y (set k w d) = if String.eqb k y then Some w else get y d.
Proof.
  destruct (String.eqb_spec k y) as [->|Hne].
  - apply get_set_same.
  - apply get_set_other. exact Hne.
Qed.

(** The weight recorded between [x] and [y] after [add_edge u v w]. *)
Lemma get_add_edge u v w G x y :
  get y (neighbors (add_edge u v w G) x)
  = if (String.eqb x u && String.eqb y v) || (String.eqb x v && String.eqb y u)
    then Some w else get y (neighbors G x).
Proof.
  unfold add_edge. rewrite !neighbors_set, !neighbors_add_node.
  destruct (String.eqb_spec v x) as [->|Hvx].
  - rewrite String.eqb_refl. rewrite get_set.
    destruct (String.eqb_spec u y) as [->|Huy].
    + rewrite String.eqb_refl, andb_true_r, orb_true_r. reflexivity.
    + rewrite (proj2 (String.eqb_neq y u)) by congruence.
      rewrite andb_false_r, orb_false_r.
      destruct (String.eqb_spec u x) as [->|Hux].
      * rewrite String.eqb_refl. simpl. rewrite get_set.
        destruct (String.eqb_spec x y) as [->|Hxy]; [congruence|].
        rewrite (proj2 (String.eqb_neq y x)) by congruence. reflexivity.
      * rewrite (proj2 (String.eqb_neq x u)) by congruence. reflexivity.
  - rewrite (proj2 (String.eqb_neq x v)) by congruence. rewrite andb_false_l, orb_false_r.
    destruct (String.eqb_spec u x) as [->|Hux].
    + rewrite String.eqb_refl. simpl. rewrite get_set.
      rewrite (String.eqb_sym y v). reflexivity.
    + rewrite (proj2 (String.eqb_neq x u)) by congruence. reflexivity.
Qed.



(** *** The invariants *)

Lemma symmetric_add_node n G : symmetric G -> symmetric (add_node n G).
Proof.
  intros H u v w. rewrite !neighbors_add_node. apply H.
Qed.

Lemma symmetric_add_edge u v w G : symmetric G -> symmetric (add_edge u v w G).
Proof.
  intros H x y c. rewrite !get_add_edge.
  rewrite (orb_comm (String.eqb y u && String.eqb x v)).
  rewrite (andb_comm (String.eqb y v)), (andb_comm (String.eqb y u)).
  destruct (_ || _); auto.
Qed.

Lemma symmetric_empty : symmetric empty_graph.
Proof. intros u v w. unfold neighbors. simpl. discriminate. Qed.

Lemma symmetric_add_nodes_from ns : forall G,
  symmetric G -> symmetric (add_nodes_from ns G).
Proof.
  unfold add_nodes_from. induction ns as [|n ns IH]; intros G H; simpl; auto.
  apply IH. apply symmetric_add_node. exact H.
Qed.

Lemma symmetric_add_edges es : forall G,
  symmetric G -> symmetric (add_weighted_edges_from es G).
Proof.
  unfold add_weighted_edges_from.
  induction es as [|[[u v] w] es IH]; intros G H; simpl; auto.
  apply IH. apply symmetric_add_edge. exact H.
Qed.

Lemma symmetric_full_graph vertices edges : symmetric (full_graph vertices edges).
Proof.
  unfold full_graph. apply symmetric_add_edges. apply symmetric_add_nodes_from.
  apply symmetric_empty.
Qed.

Lemma set_entries {V} k (x : V) d kv :
  In kv (set k x d) -> kv = (k, x) \/ In kv d.
Proof.
  induction d as [|[k' v'] d IH]; simpl.
  - intros [E|[]]. auto.
  - destruct (String.eqb k' k).
    + intros [E|H]; auto.
    + intros [E|H]; [auto|]. destruct (IH H); auto.
Qed.

Lemma neighbors_entry G x :
  neighbors G x = [] \/ In (x, neighbors G x) G.
Proof.
  unfold neighbors, get_default. destruct (get x G) as [v|] eqn:E; auto.
  right. apply get_Some_In. exact E.
Qed.

Lemma simple_keys_neighbors G x : simple_keys G -> NoDup (keys (neighbors G x)).
Proof.
  intros [_ H]. destruct (neighbors_entry G x) as [E|E].
  - rewrite E. constructor.
  - rewrite Forall_forall in H. apply (H _ E).
Qed.

Lemma simple_keys_set k v G :
  simple_keys G -> NoDup (keys v) -> simple_keys (set k v G).
Proof.
  intros [H1 H2] Hv. split.
  - apply NoDup_keys_set. exact H1.
  - rewrite Forall_forall in *. intros kv Hin.
    apply set_entries in Hin. destruct Hin as [->|Hin]; auto.
Qed.

Lemma simple_keys_add_node n G : simple_keys G -> simple_keys (add_node n G).
Proof.
  intros [H1 H2]. unfold add_node. destruct (mem n G) eqn:E; [split; auto|].
  split.
  - unfold keys. rewrite map_app. apply NoDup_app; auto.
    + repeat constructor. auto.
    + intros x Hx [<-|[]]. simpl in Hx. apply mem_keys in Hx. congruence.
  - apply Forall_app. split; auto. repeat constructor.
Qed.

Lemma simple_keys_add_edge u v w G : simple_keys G -> simple_keys (add_edge u v w G).
Proof.
  intros H. unfold add_edge.
  assert (H1 : simple_keys (add_node v (add_node u G)))
    by (apply simple_keys_add_node, simple_keys_add_node, H).
  assert (H2 : simple_keys (set u (set v w (neighbors (add_node v (add_node u G)) u))
                                (add_node v (add_node u G)))).
  { apply simple_keys_set; auto. apply NoDup_keys_set.
    apply simple_keys_neighbors. exact H1. }
  apply simple_keys_set; auto. apply NoDup_keys_set.
  apply simple_keys_neighbors. exact H2.
Qed.

Lemma simple_keys_full_graph vertices edges : simple_keys (full_graph vertices edges).
Proof.
  unfold full_graph, add_weighted_edges_from, add_nodes_from.
  assert (H0 : simple_keys empty_graph) by (split; constructor).
  assert (H1 : forall ns G, simple_keys G ->
                 simple_keys (fold_left (fun g n => add_node n g) ns G)).
  { induction ns as [|n ns IH]; intros G H; simpl; auto.
    apply IH. apply simple_keys_add_node. exact H. }
  assert (H2 : forall es G, simple_keys G ->
                 simple_keys (fold_left
                   (fun g e => add_edge (fst (fst e)) (snd (fst e)) (snd e) g) es G)).
  { induction es as [|e es IH]; intros G H; simpl; auto.
    apply IH. apply simple_keys_add_edge. exact H. }
  apply H2. apply H1. exact H0.
Qed.

(** *** Removing the isolated nodes *)

Lemma isolated_spec G n : isolated G n = true <-> neighbors G n = [].
Proof.
  unfold isolated. destruct (neighbors G n); split; congruence.
Qed.

Lemma isolated_degree G n : isolated G n = (degree G n =? 0).
Proof.
  unfold isolated, degree. destruct (neighbors G n) as [|kv l]; auto.
Qed.

Lemma del_absent {V} n (G : dict V) : get n G = None -> del n G = G.
Proof.
  intros H. unfold del. apply filter_id. intros [k v] Hin. simpl.
  apply negb_true_iff. apply String.eqb_neq. intros ->.
  apply (get_None_keys n G H). apply (in_map fst _ _ Hin).
Qed.

Lemma remove_isolated n G : neighbors G n = [] -> remove_node n G = del n G.
Proof.
  unfold remove_node, neighbors, get_default.
  destruct (get n G) as [nbrs|] eqn:E.
  - intros ->. reflexivity.
  - intros _. symmetry. apply del_absent. exact E.
Qed.

Lemma get_filter_key {V} (p : string -> bool) (d : dict V) x :
  get x (filter (fun kv => p (fst kv)) d) = if p x then get x d else None.
Proof.
  induction d as [|[k v] d IH]; simpl.
  - destruct (p x); reflexivity.
  - destruct (p k) eqn:Ek; simpl.
    + destruct (String.eqb_spec k x) as [->|Hne].
      * rewrite Ek. reflexivity.
      * exact IH.
    + destruct (String.eqb_spec k x) as [->|Hne].
      * rewrite Ek in *. exact IH.
      * exact IH.
Qed.

Lemma filter_twice {A} (p q : A -> bool) (l : list A) :
  filter p (filter q l) = filter (fun x => q x && p x) l.
Proof.
  induction l as [|a l IH]; simpl; auto.
  destruct (q a); simpl; [|exact IH].
  destruct (p a); rewrite IH; reflexivity.
Qed.

Lemma remove_isolated_nodes ns : forall G,
  (forall n, In n ns -> neighbors G n = []) ->
  remove_nodes_from ns G
  = filter (fun kv => negb (existsb (String.eqb (fst kv)) ns)) G.
Proof.
  unfold remove_nodes_from.
  induction ns as [|n ns IH]; intros G H; simpl.
  - symmetry. apply filter_id. auto.
  - rewrite remove_isolated by (apply H; simpl; auto).
    rewrite IH.
    + unfold del. rewrite filter_twice. apply filter_ext. intros [k v]. simpl.
      rewrite negb_orb. reflexivity.
    + intros m Hm. unfold neighbors, get_default, del.
      rewrite (get_filter_key (fun k => negb (String.eqb k n))).
      destruct (negb (String.eqb m n)); auto. apply H. simpl. auto.
Qed.

(** With [min_size == 2] the trimmed graph is the full graph without the
    entries of the isolated nodes. *)
Lemma trim_isolates G :
  trim G 2 = filter (fun kv => negb (isolated G (fst kv))) G.
Proof.
  unfold trim. simpl. rewrite remove_isolated_nodes.
  - apply filter_ext_in. intros [k v] Hin. simpl. f_equal.
    unfold isolates. rewrite isolated_degree.
    destruct (degree G k =? 0) eqn:E.
    + apply existsb_exists. exists k. split; [|apply String.eqb_refl].
      apply filter_In. split; auto. apply (in_map fst _ _ Hin).
    + destruct (existsb _ _) eqn:E'; auto.
      apply existsb_exists in E'. destruct E' as [y [Hy Ey]].
      apply String.eqb_eq in Ey. subst y. apply filter_In in Hy.
      destruct Hy. congruence.
  - intros n Hn. unfold isolates in Hn. apply filter_In in Hn.
    destruct Hn as [_ Hd]. apply Nat.eqb_eq in Hd. apply degree_zero. exact Hd.
Qed.

Lemma neighbors_trim_isolates G n : neighbors (trim G 2) n = neighbors G n.
Proof.
  rewrite trim_isolates. unfold neighbors at 1. unfold get_default.
  rewrite (get_filter_key (fun k => negb (isolated G k))).
  destruct (isolated G n) eqn:E; simpl.
  - symmetry. apply isolated_spec. exact E.
  - reflexivity.
Qed.

(** *** The edges of a graph *)

Lemma edges_from_skip_isolated (iso : string -> bool) l : forall seen seen',
  (forall kv, In kv l -> iso (fst kv) = true -> snd kv = []) ->
  (forall kv v, In kv l -> In v (keys (snd kv)) -> iso v = false) ->
  (forall v, iso v = false ->
     existsb (String.eqb v) seen = existsb (String.eqb v) seen') ->
  edges_from seen (filter (fun kv => negb (iso (fst kv))) l)
  = edges_from seen' l.
Proof.
  induction l as [|[n nbrs] l IH]; intros seen seen' H1 H2 H3; simpl; auto.
  destruct (iso n) eqn:En; simpl.
  - assert (Hn : nbrs = []) by (apply (H1 (n, nbrs)); simpl; auto).
    subst nbrs. simpl.
    apply IH.
    + intros kv Hin. apply H1. simpl. auto.
    + intros kv v Hin. apply (H2 kv v). simpl. auto.
    + intros v Hv. simpl.
      destruct (String.eqb_spec v n) as [->|Hne]; [congruence|]. apply H3. exact Hv.
  - f_equal.
    + f_equal. apply filter_ext_in. intros [v w] Hin. simpl. f_equal.
      apply H3. apply (H2 (n, nbrs) v); simpl; auto.
      apply (in_map fst _ _ Hin).
    + apply IH.
      * intros kv Hin. apply H1. simpl. auto.
      * intros kv v Hin. apply (H2 kv v). simpl. auto.
      * intros v Hv. simpl. rewrite (H3 v Hv). reflexivity.
Qed.

Lemma entry_neighbors G k nbrs :
  simple_keys G -> In (k, nbrs) G -> neighbors G k = nbrs.
Proof.
  intros [H _] Hin. unfold neighbors, get_default.
  rewrite (In_get k nbrs G H Hin). reflexivity.
Qed.

Lemma neighbor_not_isolated G k nbrs v :
  simple_keys G -> symmetric G -> In (k, nbrs) G -> In v (keys nbrs) ->
  isolated G v = false.
Proof.
  intros Hs Hsym Hin Hv.
  rewrite <- (entry_neighbors G k nbrs Hs Hin) in Hv.
  apply mem_keys in Hv. apply mem_true_get in Hv. destruct Hv as [w Hw].
  apply Hsym in Hw. destruct (isolated G v) eqn:E; auto.
  apply isolated_spec in E. rewrite E in Hw. discriminate.
Qed.

(** Trimming the isolated nodes loses no edge. *)
Lemma edges_trim_isolates G :
  simple_keys G -> symmetric G -> Nx.edges (trim G 2) = Nx.edges G.
Proof.
  intros Hs Hsym. rewrite trim_isolates. unfold Nx.edges.
  apply edges_from_skip_isolated.
  - intros [k nbrs] Hin Hiso. simpl in *.
    rewrite <- (entry_neighbors G k nbrs Hs Hin). apply isolated_spec. exact Hiso.
  - intros [k nbrs] v Hin Hv. simpl in *.
    apply (neighbor_not_isolated G k nbrs v); auto.
  - reflexivity.
Qed.

Lemma edges_nonempty G x :
  simple_keys G -> symmetric G -> neighbors G x <> [] -> Nx.edges G <> [].
Proof.
  intros Hs Hsym Hx. rewrite <- (edges_trim_isolates G Hs Hsym).
  rewrite trim_isolates.
  destruct (neighbors_entry G x) as [E|E]; [congruence|].
  assert (Hin : In (x, neighbors G x)
                   (filter (fun kv => negb (isolated G (fst kv))) G)).
  { apply filter_In. split; auto. simpl.
    destruct (isolated G x) eqn:Ei; auto. apply isolated_spec in Ei. congruence. }
  destruct (filter (fun kv => negb (isolated G (fst kv))) G) as [|[n nbrs] l] eqn:Ef;
    [contradiction|].
  assert (Hn : In (n, nbrs) (filter (fun kv => negb (isolated G (fst kv))) G))
    by (rewrite Ef; simpl; auto).
  apply filter_In in Hn. destruct Hn as [HnG Hni]. simpl in Hni.
  assert (Hne : nbrs <> []).
  { intros ->.
    assert (Hi : isolated G n = true).
    { apply isolated_spec. apply (entry_neighbors G n [] Hs HnG). }
    rewrite Hi in Hni. discriminate. }
  unfold Nx.edges. simpl. destruct nbrs as [|vw nbrs]; [congruence|].
  simpl. discriminate.
Qed.

Lemma edges_empty_no_edges G :
  simple_keys G -> symmetric G -> Nx.edges G = [] -> no_edges G.
Proof.
  intros Hs Hsym He. unfold no_edges. rewrite Forall_forall.
  intros [k nbrs] Hin. simpl. destruct nbrs as [|vw nbrs]; auto.
  exfalso. apply (edges_nonempty G k Hs Hsym); auto.
  rewrite (entry_neighbors G k _ Hs Hin). discriminate.
Qed.

End GraphFacts.

(** ** The graphs and layouts of a generated network *)

Module NetworkGraphFacts.
Import Numeric Errors Dict Nx SpanningTree Distance Layout Network Shapes.
Import GraphNotions EdgeWeights.
Import NxFacts DictFacts GenerateLayoutFacts NetworkFacts EdgeListFacts.
Import GraphFacts LayoutReturns.

(** *** Columns of the merged edge list *)

Lemma union_columns_l a b c : In c a -> In c (union_columns a b).
Proof. intros H. unfold union_columns. apply in_or_app. auto. Qed.

Lemma union_columns_r a b c : In c b -> In c (union_columns a b).
Proof.
  intros H. unfold union_columns. apply in_or_app.
  destruct (existsb (String.eqb c) a) eqn:E.
  - left. apply existsb_eqb_In. exact E.
  - right. apply filter_In. rewrite E. auto.
Qed.

Lemma fold_union_columns_acc cols : forall acc c,
  In c acc -> In c (fold_left union_columns cols acc).
Proof.
  induction cols as [|l cols IH]; intros acc c H; simpl; auto.
  apply IH. apply union_columns_l. exact H.
Qed.

Lemma fold_union_columns_In cols : forall acc c l,
  In l cols -> In c l -> In c (fold_left union_columns cols acc).
Proof.
  induction cols as [|l0 cols IH]; intros acc c l Hl Hc; simpl in *; [tauto|].
  destruct Hl as [->|Hl].
  - apply fold_union_columns_acc. apply union_columns_r. exact Hc.
  - apply (IH _ c l); auto.
Qed.



(** *** Nodes of the full graph *)

Lemma nodes_add_node n G :
  nodes (add_node n G) = if mem n G then nodes G else nodes G ++ [n].
Proof.
  unfold add_node, nodes, keys. destruct (mem n G); auto.
  rewrite map_app. reflexivity.
Qed.

Lemma nodes_add_node_present n G : In n (nodes G) -> nodes (add_node n G) = nodes G.
Proof.
  intros H. rewrite nodes_add_node. apply mem_keys in H. rewrite H. reflexivity.
Qed.

Lemma nodes_set_present k (v : dict Q) G : In k (nodes G) -> nodes (set k v G) = nodes G.
Proof.
  intros H. unfold nodes. rewrite keys_set. apply mem_keys in H. rewrite H.
  reflexivity.
Qed.

Lemma nodes_add_edge_present u v w G :
  In u (nodes G) -> In v (nodes G) -> nodes (add_edge u v w G) = nodes G.
Proof.
  intros Hu Hv. unfold add_edge.
  assert (E1 : nodes (add_node v (add_node u G)) = nodes G).
  { rewrite nodes_add_node_present; rewrite nodes_add_node_present; auto. }
  rewrite nodes_set_present; rewrite nodes_set_present; rewrite ?E1; auto.
Qed.

Lemma nodes_add_edges_present es : forall G,
  (forall r, In r es -> In (source r) (nodes G) /\ In (target r) (nodes G)) ->
  nodes (add_weighted_edges_from es G) = nodes G.
Proof.
  unfold add_weighted_edges_from.
  induction es as [|[[u v] w] es IH]; intros G H; simpl; auto.
  destruct (H (u, v, w)) as [Hu Hv]; simpl; auto.
  rewrite IH.
  - apply nodes_add_edge_present; auto.
  - intros r Hr. rewrite nodes_add_edge_present by auto. apply H. simpl. auto.
Qed.

Lemma nodes_add_nodes_from ns : forall G,
  NoDup ns -> (forall n, In n ns -> ~ In n (nodes G)) ->
  nodes (add_nodes_from ns G) = nodes G ++ ns.
Proof.
  unfold add_nodes_from.
  induction ns as [|n ns IH]; intros G Hnd Hfresh; simpl.
  - rewrite app_nil_r. reflexivity.
  - inversion Hnd as [|? ? Hn Hnd']; subst.
    assert (Hm : mem n G = false).
    { destruct (mem n G) eqn:E; auto. apply mem_keys in E.
      exfalso. apply (Hfresh n); simpl; auto. }
    rewrite IH; auto.
    + rewrite nodes_add_node, Hm, <- app_assoc. reflexivity.
    + intros m Hm' Hin. rewrite nodes_add_node, Hm in Hin.
      apply in_app_or in Hin. destruct Hin as [Hin|[<-|[]]].
      * apply (Hfresh m); simpl; auto.
      * contradiction.
Qed.

(** The graph built from distinct vertices and edges between them has
    exactly the vertices as its nodes, in their order. *)
Lemma nodes_full_graph vertices edges :
  NoDup vertices ->
  (forall r, In r (rows edges) -> In (source r) vertices /\ In (target r) vertices) ->
  nodes (full_graph vertices edges) = vertices.
Proof.
  intros Hnd He. unfold full_graph.
  assert (E : nodes (add_nodes_from vertices empty_graph) = vertices).
  { rewrite nodes_add_nodes_from; auto. }
  rewrite nodes_add_edges_present; auto.
  intros r Hr. rewrite E. apply He. exact Hr.
Qed.



Lemma trimmed_edge_full_edge G min_size :
  simple_keys G -> symmetric G ->
  Nx.edges (trim G min_size) <> [] -> Nx.edges G <> [].
Proof.
  intros Hs Hsym H E. apply H. apply no_edges_edges. apply no_edges_trim.
  apply edges_empty_no_edges; auto.
Qed.


Lemma nodes_trim_incl G min_size : incl (nodes (trim G min_size)) (nodes G).
Proof.
  unfold trim.
  destruct (min_size =? 2)%Z;
    [|destruct (2 <? min_size)%Z];
    try (rewrite nodes_remove_nodes_from; intros x Hx;
         apply filter_In in Hx; tauto).
  intros x Hx. exact Hx.
Qed.


Section Generator.
Variable RandomState : Type.
Variable rand : RandomState -> nat -> nat -> farray * RandomState.
Variable seeded : Z -> RandomState.

(** What a returned [generate_layout] says about its arguments. *)
Lemma generate_layout_ok_edges vertices edges min_size g r g' :
  generate_layout rand seeded vertices edges min_size g = (Ok r, g') ->
  Nx.edges (trim (full_graph vertices edges) min_size) <> [].
Proof.
  intros H E. unfold generate_layout, mbind, lift in H.
  unfold edge_triples in H. destruct (forallb _ _); [|discriminate].
  fold (full_graph vertices edges) in H. unfold get_edge_attributes in H.
  rewrite E in H. discriminate.
Qed.

(** X7.  After any call of [generate_layout] that returned, on the pair of
    graphs it returned, [extract_edge_weights] returns for either value of
    [full_graph]: the weights of the edges of the chosen graph, of which
    there is at least one; and when [min_size] was 2 both calls return the
    same weights. *)
Theorem extract_edge_weights_after_layout
    (vertices : list string) (edges : DataFrame) (min_size : Z)
    (g g' : RandomState) (r : layout_result) :
  generate_layout rand seeded vertices edges min_size g = (Ok r, g') ->
  let graphs := Some (graph r, trimmed r) in
  extract_edge_weights graphs true = Ok (map snd (Nx.edges (graph r))) /\
  extract_edge_weights graphs false = Ok (map snd (Nx.edges (trimmed r))) /\
  Nx.edges (graph r) <> [] /\ Nx.edges (trimmed r) <> [] /\
  (min_size = 2%Z ->
   extract_edge_weights graphs true = extract_edge_weights graphs false).
Proof.
  intros H. cbv zeta.
  pose proof (generate_layout_ok_edges _ _ _ _ _ _ H) as He.
  destruct (generate_layout_graphs RandomState rand seeded _ _ _ _ _ _ H)
    as [EG EG_].
  rewrite EG, EG_.
  assert (HeG : Nx.edges (full_graph vertices edges) <> []).
  { apply (trimmed_edge_full_edge _ min_size); auto.
    - apply simple_keys_full_graph.
    - apply symmetric_full_graph. }
  unfold extract_edge_weights, get_edge_attributes. simpl.
  split; [|split; [|split; [|split]]]; auto.
  - destruct (Nx.edges (full_graph vertices edges)); [congruence|reflexivity].
  - destruct (Nx.edges (trim (full_graph vertices edges) min_size));
      [congruence|reflexivity].
  - intros ->. rewrite edges_trim_isolates; auto.
    + apply simple_keys_full_graph.
    + apply symmetric_full_graph.
Qed.

Hypothesis rand_ok : rand_shape rand.



(** X9.  Whenever [generate_network] returns on an index without repeated
    label (whatever the grouping and [min_size]): the full graph has
    exactly the entities as its nodes, in index order, and the first layout
    gives every entity one position of two coordinates, in that order; the
    second layout does so for the nodes of the trimmed graph. *)
Theorem generate_network_positions
    (dist_mat_list : list (matrix Q)) (index : list string)
    (clone_id clone_id_group : string -> string)
    (distance_mode : string) (min_size : Z) (constructbygroup : bool)
    (weights : option (list Q)) (g g' : RandomState) (net : network) :
  NoDup index ->
  generate_network rand seeded dist_mat_list index clone_id clone_id_group
                   distance_mode min_size constructbygroup weights g
  = (Ok net, g') ->
  nodes (graph (layout net)) = index /\
  keys (pos (layout net)) = index /\
  keys (pos_ (layout net)) = nodes (trimmed (layout net)) /\
  incl (nodes (trimmed (layout net))) index /\
  Forall (fun kv => length (snd kv) = 2) (pos (layout net)) /\
  Forall (fun kv => length (snd kv) = 2) (pos_ (layout net)).
Proof.
  intros Hnd H. unfold generate_network, mbind, lift, ret in H.
  destruct (total_dist distance_mode weights dist_mat_list) as [total|e];
    [|discriminate].
  set (E := network_edges total index
              (if constructbygroup then clone_id_group else clone_id) clone_id)
    in *.
  destruct (generate_layout rand seeded index E min_size g) as [[l|e] g1] eqn:EL;
    [|discriminate].
  inversion H; subst. clear H. cbn [layout].
  destruct (generate_layout_shapes RandomState rand seeded rand_ok _ _ _ _ _ _ EL)
    as (K1 & K2 & F1 & F2).
  destruct (generate_layout_graphs RandomState rand seeded _ _ _ _ _ _ EL)
    as [EG EG_].
  assert (HN : nodes (graph l) = index).
  { rewrite EG. apply nodes_full_graph; auto.
    intros r Hr. unfold E in Hr.
    destruct (network_edges_rows_within total index _ clone_id r Hnd Hr)
      as (H1 & H2 & _).
    auto. }
  repeat split; auto.
  - congruence.
  - rewrite EG_. rewrite EG in HN. rewrite <- HN at 2. apply nodes_trim_incl.
Qed.

End Generator.

(** X10.  For every vertex list and edge table, trimming with
    [min_size == 2] loses no edge: the trimmed graph has the edges of the
    full graph, every node keeps its neighbours, and no node left in the
    trimmed graph is without an edge. *)
Theorem trim_isolates_keeps_edges (vertices : list string) (edges : DataFrame) :
  let G := full_graph vertices edges in
  let G_ := trim G 2 in
  Nx.edges G_ = Nx.edges G /\
  (forall n, neighbors G_ n = neighbors G n) /\
  (forall n, In n (nodes G_) -> 1 <= degree G_ n).
Proof.
  cbv zeta. split; [|split].
  - apply edges_trim_isolates.
    + apply simple_keys_full_graph.
    + apply symmetric_full_graph.
  - intros n. apply neighbors_trim_isolates.
  - intros n Hn. rewrite nodes_trim_isolates in Hn. apply filter_In in Hn.
    destruct Hn as [_ Hd]. apply negb_true_iff, Nat.eqb_neq in Hd.
    unfold degree in *. rewrite neighbors_trim_isolates. lia.
Qed.

Lemma extract_edge_weights_after_layout_witness :
  let r := returned no_layout (fst example_layout_run) in
  let graphs := Some (graph r, trimmed r) in
  extract_edge_weights graphs true = Ok (map snd (Nx.edges (graph r))) /\
  extract_edge_weights graphs false = Ok (map snd (Nx.edges (trimmed r))) /\
  Nx.edges (graph r) <> [] /\ Nx.edges (trimmed r) <> [] /\
  (2%Z = 2%Z ->
   extract_edge_weights graphs true = extract_edge_weights graphs false).
Proof.
  apply (extract_edge_weights_after_layout Z lcg_rand (fun s => s)
           ["a"; "b"; "c"]%string example_edges 2%Z 1%Z
           (snd example_layout_run)
           (returned no_layout (fst example_layout_run))).
  vm_compute. reflexivity.
Defined.


Lemma generate_network_positions_witness :
  let net := returned {| edges := empty_edge_list; layout := no_layout |}
                      (fst example_network_run) in
  nodes (graph (layout net)) = example_index /\
  keys (pos (layout net)) = example_index /\
  keys (pos_ (layout net)) = nodes (trimmed (layout net)) /\
  incl (nodes (trimmed (layout net))) example_index /\
  Forall (fun kv => length (snd kv) = 2) (pos (layout net)) /\
  Forall (fun kv => length (snd kv) = 2) (pos_ (layout net)).
Proof.
  apply (generate_network_positions Z lcg_rand (fun s => s) lcg_rand_shape
           [example_total] example_index example_clone example_group
           "simple" 2%Z false None 1%Z (snd example_network_run)
           (returned {| edges := empty_edge_list; layout := no_layout |}
                     (fst example_network_run))).
  - unfold example_index.
    repeat (constructor; [simpl; intuition discriminate|]). constructor.
  - vm_compute. reflexivity.
Defined.

End NetworkGraphFacts.

(** ** The adjacency of any cluster *)

Module MstForest.
Import Numeric SpanningTree ListFacts MatrixFacts UnionFindFacts KruskalFacts.
Import MstFacts AdjacencyFacts.

Lemma kruskal_kept_count n es : forall lab cnt,
  cnt <= n - 1 -> length (kept (kruskal n lab cnt es)) + cnt <= n - 1.
Proof.
  induction es as [|e es IH]; intros lab cnt Hc; simpl; auto.
  destruct (Nat.ltb_spec cnt (n - 1)) as [Hlt|Hge].
  - destruct (find lab (row e) =? find lab (col e)).
    + unfold kept. simpl. apply IH. exact Hc.
    + unfold kept. simpl.
      pose proof (IH (union lab (row e) (col e)) (S cnt) Hlt) as H.
      unfold kept in H. lia.
  - change ((e, false) :: map (fun e' => (e', false)) es)
      with (map (fun e' : entry => (e', false)) (e :: es)).
    rewrite kept_all_false. simpl. exact Hc.
Qed.

Lemma tree_entries_count_le m :
  length (minimum_spanning_tree m) <= length m - 1.
Proof.
  unfold minimum_spanning_tree.
  pose proof (kruskal_kept_count (length m) (argsort (csr_entries m))
                (init_labels (length m)) 0) as H.
  lia.
Qed.

Lemma mst_adjacency_square n m : square n m -> square n (mst_adjacency m).
Proof.
  intros [Hl Hr]. split.
  - rewrite mst_shape. exact Hl.
  - rewrite Forall_forall. intros r Hin.
    destruct (In_nth _ _ [] Hin) as (i & Hi & <-).
    rewrite mst_shape in Hi. rewrite mst_row_length; auto.
Qed.

(** A non-zero cell of the adjacency is a kept entry. *)
Lemma adjacency_edge_entry n m i j z :
  square n m -> In (i, j, z) (adjacency_edges (mst_adjacency m)) ->
  exists e, In e (minimum_spanning_tree (triu m)) /\ row e = i /\ col e = j /\
            z = astype_int (data e) /\ z <> 0%Z.
Proof.
  intros Hsq Hin. unfold adjacency_edges in Hin. apply cells_where_In in Hin.
  destruct Hin as (Hi & Hj & Hz & Hp).
  rewrite mst_shape in Hi. rewrite mst_row_length in Hj by exact Hi.
  fold (zcell (mst_adjacency m) i j) in Hz. rewrite mst_cell in Hz by auto.
  assert (Hnz : z <> 0%Z).
  { intros ->. discriminate Hp. }
  destruct (lookup_entry_cases (minimum_spanning_tree (triu m)) i j)
    as [(e & He & Hr & Hc & Hd)|H0].
  - exists e. rewrite <- Hd. auto.
  - exfalso. apply Hnz. rewrite Hz, H0. reflexivity.
Qed.

Lemma adjacency_edges_count n m :
  square n m -> length (adjacency_edges (mst_adjacency m)) <= n - 1.
Proof.
  intros Hsq.
  assert (Hl : length (minimum_spanning_tree (triu m)) <= n - 1).
  { pose proof (tree_entries_count_le (triu m)) as H.
    rewrite triu_length in H. destruct Hsq as [Hn _]. lia. }
  assert (Hle : length (map fst (adjacency_edges (mst_adjacency m)))
                <= length (map ends (minimum_spanning_tree (triu m)))).
  { apply NoDup_incl_length.
    - apply cells_where_NoDup.
    - intros [i j] Hin. apply in_map_iff in Hin.
      destruct Hin as [[[i' j'] z] [E Hin]]. simpl in E. inversion E; subst.
      destruct (adjacency_edge_entry n m i j z Hsq Hin)
        as (e & He & Hr & Hc & _).
      apply in_map_iff. exists e. split; auto.
      destruct e as [[a b] w]. unfold row, col, ends in *. simpl in *.
      congruence. }
  rewrite !length_map in Hle. lia.
Qed.

Lemma mst_keys {key : Type} (mat : list (key * frame Q)) :
  map fst (mst mat) = map fst mat.
Proof. unfold mst. rewrite map_map. reflexivity. Qed.

(** X11.  For every cluster handed to [mst] whose sub-matrix is square of
    size [n] (connected or not): the returned dictionary keeps the keys and
    their order, the adjacency of the cluster keeps the labels and the shape
    of the sub-matrix, it has at most [n - 1] non-zero cells, and every
    non-zero cell lies strictly above the diagonal and holds the cell of the
    sub-matrix at that place, truncated toward zero. *)
Theorem mst_adjacency_structure
    {key : Type} (mat : list (key * frame Q)) (c : key) (d : frame Q) (n : nat) :
  In (c, d) mat -> square n (frame_values d) ->
  let a := mst_adjacency (frame_values d) in
  map fst (mst mat) = map fst mat /\
  In (c, {| frame_index := frame_index d; frame_values := a |}) (mst mat) /\
  square n a /\
  length (adjacency_edges a) <= n - 1 /\
  (forall i j z, In (i, j, z) (adjacency_edges a) ->
     i < j /\ j < n /\ z <> 0%Z /\
     z = astype_int (qcell (frame_values d) i j)).
Proof.
  intros Hin Hsq. cbv zeta. split; [apply mst_keys|]. split; [|split; [|split]].
  - unfold mst. apply in_map_iff. exists (c, d). auto.
  - apply mst_adjacency_square. exact Hsq.
  - apply adjacency_edges_count. exact Hsq.
  - intros i j z Hz.
    destruct (mst_adjacency_edges_upper n _ i j z Hsq Hz) as [Hij Hj].
    destruct (adjacency_edge_entry n _ i j z Hsq Hz)
      as (e & He & Hr & Hc & Hd & Hnz).
    repeat split; auto.
    apply (tree_entries_incl n _ Hsq) in He.
    destruct (csr_triu_In n _ e Hsq He) as (_ & _ & Hdata & _).
    rewrite Hd, Hdata, Hr, Hc. reflexivity.
Qed.

Lemma mst_adjacency_structure_witness :
  let mat := [("c1"%string, {| frame_index := ["a"; "b"; "c"; "d"]%string;
                               frame_values := m_pairs |})] in
  let a := mst_adjacency m_pairs in
  map fst (mst mat) = map fst mat /\
  In ("c1"%string,
      {| frame_index := ["a"; "b"; "c"; "d"]%string; frame_values := a |})
     (mst mat) /\
  square 4 a /\
  length (adjacency_edges a) <= 4 - 1 /\
  (forall i j z, In (i, j, z) (adjacency_edges a) ->
     i < j /\ j < 4 /\ z <> 0%Z /\ z = astype_int (qcell m_pairs i j)).
Proof.
  apply (mst_adjacency_structure
           [("c1"%string, {| frame_index := ["a"; "b"; "c"; "d"]%string;
                             frame_values := m_pairs |})]
           "c1"%string
           {| frame_index := ["a"; "b"; "c"; "d"]%string;
              frame_values := m_pairs |} 4).
  - simpl. auto.
  - split; [reflexivity|repeat constructor].
Defined.

(** *** The adjacency links what the distance graph links *)

Lemma ends_pair (e : entry) : (row e, col e) = ends e.
Proof. destruct e as [[a b] w]. reflexivity. Qed.

Lemma joined_perm E E' u v : Permutation E E' -> joined E u v -> joined E' u v.
Proof.
  intros HP. apply joined_incl. intros p Hp. apply (Permutation_in _ HP Hp).
Qed.

Lemma forest_links n m u v :
  square n m -> u < n -> v < n ->
  joined (graph_edges m) u v ->
  joined (map ends (minimum_spanning_tree (triu m))) u v.
Proof.
  intros Hsq Hu Hv Hj.
  set (es := argsort (csr_entries (triu m))).
  set (K := minimum_spanning_tree (triu m)).
  set (final := run (init_labels n) (map ends es)).
  assert (Hlen : length (init_labels n) = n) by apply length_seq.
  assert (Hvalid : Forall (valid n) (map ends es)) by (apply es_valid; exact Hsq).
  assert (Hlinked : linked n final (map ends K)).
  { apply run_linked; auto.
    - unfold kept_pos. unfold K. rewrite (tree_entries_flags n m Hsq).
      rewrite kept_ends. apply incl_refl.
    - apply init_linked. }
  apply Hlinked; auto.
  apply (joined_same_label (find final) (graph_edges m)); auto.
  intros p Hp. unfold final. apply run_respects.
  - rewrite Hlen. exact Hvalid.
  - unfold graph_edges in Hp. apply in_map_iff in Hp.
    destruct Hp as [e [<- He]]. apply in_map.
    apply (Permutation_in _ (es_perm m) He).
Qed.

(** *** The adjacency has no cycle *)

Lemma without_In p T q : In q (without p T) <-> In q T /\ q <> p.
Proof.
  unfold without. rewrite filter_In. destruct q as [a b], p as [c d]. simpl.
  split.
  - intros [H E]. split; auto. intros X. inversion X; subst.
    rewrite !Nat.eqb_refl in E. discriminate.
  - intros [H N]. split; auto.
    destruct (Nat.eqb_spec a c), (Nat.eqb_spec b d); simpl; auto.
Qed.

Lemma without_incl p T : incl (without p T) T.
Proof. intros q H. apply without_In in H. tauto. Qed.

Lemma joined_nil u v : joined [] u v -> u = v.
Proof.
  induction 1; auto; try congruence. contradiction.
Qed.

(** A chain through the edges of [S] and the edge [(a, b)] either avoids
    that edge or crosses it. *)
Lemma joined_add S a b T u v :
  (forall q, In q T -> q = (a, b) \/ In q S) ->
  joined T u v ->
  joined S u v \/ (joined S u a /\ joined S b v) \/ (joined S u b /\ joined S a v).
Proof.
  intros HT. induction 1 as [u|u v Hin|u v _ IH|u v w _ IH1 _ IH2].
  - left. apply joined_refl.
  - destruct (HT _ Hin) as [E|HS].
    + inversion E; subst. right. left. split; apply joined_refl.
    + left. apply joined_edge. exact HS.
  - destruct IH as [H|[[H1 H2]|[H1 H2]]].
    + left. apply joined_sym. exact H.
    + right. right. split; apply joined_sym; assumption.
    + right. left. split; apply joined_sym; assumption.
  - destruct IH1 as [H|[[H1 H2]|[H1 H2]]];
      destruct IH2 as [K|[[K1 K2]|[K1 K2]]].
    + left. eapply joined_trans; eauto.
    + right. left. split; auto. eapply joined_trans; eauto.
    + right. right. split; auto. eapply joined_trans; eauto.
    + right. left. split; auto. eapply joined_trans; eauto.
    + right. left. split; auto.
    + left. eapply joined_trans; eauto.
    + right. right. split; auto. eapply joined_trans; eauto.
    + left. eapply joined_trans; eauto.
    + right. right. split; auto.
Qed.

Lemma bridges_same E E' :
  (forall q, In q E <-> In q E') -> bridges E -> bridges E'.
Proof.
  intros HE HB p Hp Hj. apply (HB p); [apply HE; exact Hp|].
  apply (joined_incl (without p E')); auto.
  intros q Hq. apply without_In in Hq. apply without_In.
  destruct Hq as [H1 H2]. split; auto. apply HE. exact H1.
Qed.

(** An edge between two vertices that are not linked yet closes no cycle,
    and leaves every earlier edge a bridge. *)
Lemma bridges_add E a b :
  bridges E -> ~ joined E a b -> bridges (E ++ [(a, b)]).
Proof.
  intros HB Hab p Hp Hj. apply in_app_or in Hp.
  assert (Hnew : In p E -> p <> (a, b)).
  { intros Hin ->. apply Hab. apply joined_edge. exact Hin. }
  destruct Hp as [Hp|[<-|[]]].
  - pose proof (Hnew Hp) as Hne.
    assert (HT : forall q, In q (without p (E ++ [(a, b)])) ->
                           q = (a, b) \/ In q (without p E)).
    { intros q Hq. apply without_In in Hq. destruct Hq as [Hin Hqp].
      apply in_app_or in Hin. destruct Hin as [Hin|[Eq|[]]].
      - right. apply without_In. auto.
      - left. auto. }
    destruct (joined_add (without p E) a b _ _ _ HT Hj)
      as [H|[[H1 H2]|[H1 H2]]].
    + apply (HB p Hp H).
    + apply Hab.
      apply (joined_incl _ E _ _ (without_incl p E)) in H1.
      apply (joined_incl _ E _ _ (without_incl p E)) in H2.
      apply joined_trans with (v := fst p); [apply joined_sym; exact H1|].
      apply joined_trans with (v := snd p); [|apply joined_sym; exact H2].
      apply joined_edge. destruct p. exact Hp.
    + apply Hab.
      apply (joined_incl _ E _ _ (without_incl p E)) in H1.
      apply (joined_incl _ E _ _ (without_incl p E)) in H2.
      apply joined_trans with (v := snd p); [exact H2|].
      apply joined_trans with (v := fst p); [|exact H1].
      apply joined_sym. apply joined_edge. destruct p. exact Hp.
  - simpl in Hj. apply Hab. apply (joined_incl (without (a, b) (E ++ [(a, b)]))); auto.
    intros q Hq. apply without_In in Hq. destruct Hq as [Hin Hne].
    apply in_app_or in Hin. destruct Hin as [Hin|[Eq|[]]]; auto.
    congruence.
Qed.

Lemma labels_joined_init n : labels_joined n (init_labels n) [].
Proof.
  intros u v Hu Hv. rewrite !find_init. split.
  - intros ->. apply joined_refl.
  - apply joined_nil.
Qed.

Lemma labels_joined_step n lab E p :
  length lab = n -> valid n p -> Forall (valid n) E ->
  labels_joined n lab E ->
  find lab (fst p) <> find lab (snd p) ->
  labels_joined n (step lab p) (E ++ [p]).
Proof.
  intros Hlen Hp HE HL Hne u v Hu Hv. split.
  - apply (step_linked n lab (E ++ [p]) p Hlen Hp); auto.
    + intros _. apply in_or_app. simpl. auto.
    + intros x y Hx Hy Hxy. apply (joined_incl E); [apply incl_appl, incl_refl|].
      apply HL; auto.
  - apply (joined_same_label (find (step lab p))).
    intros q Hq. apply in_app_or in Hq. destruct Hq as [Hq|[<-|[]]].
    + rewrite Forall_forall in HE. destruct (HE q Hq) as [Hq1 Hq2].
      apply step_mono; try lia.
      apply HL; auto. apply joined_edge. destruct q. exact Hq.
    + apply step_joins. rewrite Hlen. exact Hp.
Qed.

Lemma kept_pos_cons lab p r :
  kept_pos lab (p :: r)
  = if find lab (fst p) =? find lab (snd p) then kept_pos lab r
    else p :: kept_pos (step lab p) r.
Proof.
  unfold kept_pos. simpl. unfold step.
  destruct (find lab (fst p) =? find lab (snd p)); reflexivity.
Qed.

(** The merging loop only keeps edges that close no cycle. *)
Lemma kept_pos_bridges n ps : forall lab E,
  length lab = n -> Forall (valid n) ps -> Forall (valid n) E ->
  labels_joined n lab E -> bridges E ->
  bridges (E ++ kept_pos lab ps).
Proof.
  induction ps as [|p r IH]; intros lab E Hlen Hps HE HL HB.
  - unfold kept_pos. simpl. rewrite app_nil_r. exact HB.
  - inversion Hps as [|? ? Hp Hr]; subst. rewrite kept_pos_cons.
    destruct (Nat.eqb_spec (find lab (fst p)) (find lab (snd p))) as [Heq|Hne].
    + apply IH; auto.
    + change (p :: kept_pos (step lab p) r)
        with ([p] ++ kept_pos (step lab p) r).
      rewrite app_assoc. apply IH; auto.
      * rewrite step_length. reflexivity.
      * apply Forall_app. split; auto.
      * apply labels_joined_step; auto.
      * destruct p as [a b]. apply bridges_add; auto.
        intros Hj. apply Hne. destruct Hp as [Ha Hb]. simpl in *.
        apply HL; auto.
Qed.

Lemma tree_entries_acyclic n m :
  square n m -> bridges (map ends (minimum_spanning_tree (triu m))).
Proof.
  intros Hsq.
  assert (E : map ends (minimum_spanning_tree (triu m))
              = kept_pos (init_labels n) (map ends (argsort (csr_entries (triu m))))).
  { unfold kept_pos. rewrite (tree_entries_flags n m Hsq).
    rewrite kept_ends. reflexivity. }
  rewrite E.
  apply (kept_pos_bridges n _ (init_labels n) []).
  - apply length_seq.
  - apply es_valid. exact Hsq.
  - constructor.
  - apply labels_joined_init.
  - intros p [].
Qed.

(** X12.  For every square sub-matrix whose non-zero cells on and above the
    diagonal are at least 1 (connected or not), the adjacency built by [mst]
    is a spanning forest of the distance graph: its edges are edges of the
    distance graph, none is listed twice and none closes a cycle (the ends
    of an edge are not linked by the other edges of the adjacency), and two
    entities are linked by a chain of edges of the adjacency exactly when
    they are linked by a chain of edges of the distance graph. *)
Theorem mst_spanning_forest (n : nat) (m : matrix Q) :
  square n m ->
  (forall i j, i <= j -> j < n ->
     qnonzero (qcell m i j) = true -> (1 <= qcell m i j)%Q) ->
  let T := map fst (adjacency_edges (mst_adjacency m)) in
  incl T (graph_edges m) /\
  acyclic T /\
  (forall u v, u < n -> v < n -> (joined T u v <-> joined (graph_edges m) u v)).
Proof.
  intros Hsq Hge. cbv zeta.
  set (K := minimum_spanning_tree (triu m)).
  assert (HK : incl K (csr_entries (triu m))) by (apply (tree_entries_incl n); auto).
  assert (HP : Permutation (map fst (adjacency_edges (mst_adjacency m)))
                           (map ends K)).
  { assert (HP0 := adjacency_edges_perm n m Hsq). cbv zeta in HP0.
    fold K in HP0.
    assert (HP1 : Permutation (adjacency_edges (mst_adjacency m))
                    (map (fun e => (row e, col e, astype_int (data e))) K)).
    { apply HP0.
      - apply (tree_entries_nodup n); auto.
      - apply (tree_entries_valid n); auto.
      - intros e He.
        pose proof (tree_weights_ge_1 n m Hsq Hge e (HK e He)) as H1.
        pose proof (astype_int_ge_1 _ H1). lia. }
    apply (Permutation_map fst) in HP1. rewrite map_map in HP1.
    erewrite (map_ext _ ends) in HP1; [exact HP1|].
    intros e. simpl. apply ends_pair. }
  assert (Hincl : incl (map ends K) (graph_edges m)).
  { intros p Hp. apply in_map_iff in Hp. destruct Hp as [e [<- He]].
    unfold graph_edges. apply in_map. apply HK. exact He. }
  split; [|split].
  - intros p Hp. apply Hincl. apply (Permutation_in _ HP Hp).
  - split.
    + unfold adjacency_edges. apply cells_where_NoDup.
    + apply (bridges_same (map ends K)).
      * intros q. split; intros Hq.
        -- apply (Permutation_in _ (Permutation_sym HP) Hq).
        -- apply (Permutation_in _ HP Hq).
      * apply (tree_entries_acyclic n m Hsq).
  - intros u v Hu Hv. split.
    + intros Hj. apply (joined_incl _ _ u v Hincl).
      apply (joined_perm _ _ u v HP Hj).
    + intros Hj. apply (joined_perm _ _ u v (Permutation_sym HP)).
      apply (forest_links n m u v Hsq Hu Hv Hj).
Qed.

Lemma mst_spanning_forest_witness :
  let T := map fst (adjacency_edges (mst_adjacency m_pairs)) in
  incl T (graph_edges m_pairs) /\
  acyclic T /\
  (forall u v, u < 4 -> v < 4 ->
     (joined T u v <-> joined (graph_edges m_pairs) u v)).
Proof.
  apply (mst_spanning_forest 4 m_pairs).
  - split; [reflexivity|repeat constructor].
  - intros i j Hij Hj Hnz.
    destruct i as [|[|[|[|i]]]]; destruct j as [|[|[|[|j]]]];
      try lia; vm_compute in Hnz; try discriminate;
      unfold Qle; simpl; lia.
Defined.

(** The three edges of the distance graph of [m3] form a cycle; the
    adjacency keeps two of them. *)
Example triangle_is_not_acyclic :
  graph_edges m3 = [(0, 1); (0, 2); (1, 2)] /\
  ~ acyclic (graph_edges m3) /\
  map fst (adjacency_edges (mst_adjacency m3)) = [(0, 1); (1, 2)].
Proof.
  split; [vm_compute; reflexivity|]. split; [|vm_compute; reflexivity].
  intros [_ HB]. apply (HB (0, 1)).
  - vm_compute. auto.
  - change (joined [(0, 2); (1, 2)] 0 1).
    apply joined_trans with (v := 2).
    + apply joined_edge. simpl. auto.
    + apply joined_sym. apply joined_edge. simpl. auto.
Qed.

(** The adjacency of the two pairs: one edge in each pair, none between
    them. *)
Example mst_two_pairs :
  adjacency_edges (mst_adjacency m_pairs) = [(0, 1, 1%Z); (2, 3, 2%Z)].
Proof. vm_compute. reflexivity. Qed.

(** *** Only the upper triangle is read *)

Lemma triu_ext n m m' :
  square n m -> square n m' ->
  (forall i j, i <= j -> j < n -> qcell m i j = qcell m' i j) ->
  triu m = triu m'.
Proof.
  intros Hsq Hsq' H. unfold triu.
  destruct Hsq as [Hl Hr]. destruct Hsq' as [Hl' Hr'].
  rewrite Hl, Hl'. apply map_ext_in. intros i Hi. apply in_seq in Hi.
  rewrite (square_row_length n m i (conj Hl Hr)) by lia.
  rewrite (square_row_length n m' i (conj Hl' Hr')) by lia.
  apply map_ext_in. intros j Hj. apply in_seq in Hj.
  destruct (Nat.ltb_spec j i); auto. apply H; lia.
Qed.

(** X13.  [mst] reads the cells on and above the diagonal only: two square
    sub-matrices of one size that agree there get the same adjacency,
    whatever their lower triangles hold. *)
Theorem mst_reads_upper_triangle (n : nat) (m m' : matrix Q) :
  square n m -> square n m' ->
  (forall i j, i <= j -> j < n -> qcell m i j = qcell m' i j) ->
  mst_adjacency m = mst_adjacency m'.
Proof.
  intros Hsq Hsq' H. unfold mst_adjacency.
  rewrite (triu_ext n m m' Hsq Hsq' H).
  destruct Hsq as [-> _]. destruct Hsq' as [-> _]. reflexivity.
Qed.

Lemma mst_reads_upper_triangle_witness :
  mst_adjacency m3 = mst_adjacency m3_lower.
Proof.
  apply (mst_reads_upper_triangle 3 m3 m3_lower).
  - split; [reflexivity|repeat constructor].
  - split; [reflexivity|repeat constructor].
  - intros i j Hij Hj.
    destruct i as [|[|[|i]]]; destruct j as [|[|[|j]]]; try lia; reflexivity.
Defined.

End MstForest.

(** ** Shape, symmetry and diagonal of the combined distance matrix *)

Module TotalDistFacts.
Import Numeric Errors Distance Layers MatrixFacts DistanceFacts.

Lemma fold_madd_square n r : forall m,
  square n m -> Forall (square n) r -> square n (fold_left madd r m).
Proof.
  induction r as [|a r IH]; intros m Hm Hr; simpl; auto.
  inversion Hr; subst. apply IH; auto. apply madd_square; auto.
Qed.

(** The cell of a sum of arrays, as the additions are carried out. *)
Lemma fold_madd_cell_eq n r : forall m i j,
  square n m -> Forall (square n) r -> i < n -> j < n ->
  qcell (fold_left madd r m) i j
  = fold_left Qplus (map (fun x => qcell x i j) r) (qcell m i j).
Proof.
  induction r as [|a r IH]; intros m i j Hm Hr Hi Hj; simpl; auto.
  inversion Hr; subst. rewrite IH; auto.
  - rewrite (madd_cell n); auto.
  - apply madd_square; auto.
Qed.

Lemma np_sum_axis0_square n l :
  l <> [] -> Forall (square n) l -> square n (np_sum_axis0 l).
Proof.
  intros Hne H. destruct l as [|m r]; [congruence|]. inversion H; subst.
  simpl. apply fold_madd_square; auto.
Qed.

Lemma py_sum_square n l :
  l <> [] -> Forall (square n) l -> square n (py_sum l).
Proof.
  intros Hne H. destruct l as [|m r]; [congruence|]. inversion H; subst.
  simpl. apply fold_madd_square; auto. apply map_map_square. auto.
Qed.

Lemma fold_plus_zero (l : list Q) : forall a,
  (a == 0)%Q -> Forall (fun x => (x == 0)%Q) l -> (fold_left Qplus l a == 0)%Q.
Proof.
  induction l as [|x l IH]; intros a Ha Hl; simpl; auto.
  inversion Hl; subst. apply IH; auto. rewrite Ha, H1. reflexivity.
Qed.

Lemma fold_plus_natural (l : list Q) : forall a,
  (exists d : nat, (a == inject_Z (Z.of_nat d))%Q) ->
  Forall (fun x => exists d : nat, (x == inject_Z (Z.of_nat d))%Q) l ->
  exists d : nat, (fold_left Qplus l a == inject_Z (Z.of_nat d))%Q.
Proof.
  induction l as [|x l IH]; intros a Ha Hl; simpl; auto.
  inversion Hl as [|? ? [d2 H2] Hl']; subst. destruct Ha as [d1 H1].
  apply IH; auto. exists (d1 + d2). rewrite H1, H2.
  rewrite Nat2Z.inj_add, inject_Z_plus. reflexivity.
Qed.

(** What is preserved by either way of adding the layers up. *)
Lemma np_sum_axis0_symmetric n l :
  l <> [] -> Forall (square n) l -> Forall (symmetric_matrix n) l ->
  symmetric_matrix n (np_sum_axis0 l).
Proof.
  intros Hne Hsq Hsym i j Hi Hj. destruct l as [|m r]; [congruence|].
  inversion Hsq; subst. inversion Hsym as [|? ? Hm Hr]; subst. simpl.
  rewrite !(fold_madd_cell_eq n) by auto.
  rewrite (Hm i j Hi Hj). f_equal. apply map_ext_in. intros a Ha.
  rewrite Forall_forall in Hr. apply (Hr a Ha); auto.
Qed.

Lemma py_sum_symmetric n l :
  l <> [] -> Forall (square n) l -> Forall (symmetric_matrix n) l ->
  symmetric_matrix n (py_sum l).
Proof.
  intros Hne Hsq Hsym i j Hi Hj. destruct l as [|m r]; [congruence|].
  inversion Hsq; subst. inversion Hsym as [|? ? Hm Hr]; subst. simpl.
  rewrite !(fold_madd_cell_eq n) by (auto; apply map_map_square; auto).
  rewrite !(map_map_cell n) by auto.
  rewrite (Hm i j Hi Hj). f_equal. apply map_ext_in. intros a Ha.
  rewrite Forall_forall in Hr. apply (Hr a Ha); auto.
Qed.

Lemma np_sum_axis0_diagonal n l :
  l <> [] -> Forall (square n) l -> Forall (zero_diagonal n) l ->
  zero_diagonal n (np_sum_axis0 l).
Proof.
  intros Hne Hsq Hz i Hi. destruct l as [|m r]; [congruence|].
  inversion Hsq; subst. inversion Hz as [|? ? Hm Hr]; subst. simpl.
  rewrite (fold_madd_cell_eq n) by auto.
  apply fold_plus_zero; [apply Hm; auto|].
  rewrite Forall_forall in *. intros x Hx. apply in_map_iff in Hx.
  destruct Hx as [a [<- Ha]]. apply (Hr a Ha). exact Hi.
Qed.

Lemma py_sum_diagonal n l :
  l <> [] -> Forall (square n) l -> Forall (zero_diagonal n) l ->
  zero_diagonal n (py_sum l).
Proof.
  intros Hne Hsq Hz i Hi. destruct l as [|m r]; [congruence|].
  inversion Hsq; subst. inversion Hz as [|? ? Hm Hr]; subst. simpl.
  rewrite (fold_madd_cell_eq n) by (auto; apply map_map_square; auto).
  rewrite (map_map_cell n) by auto.
  apply fold_plus_zero.
  - rewrite (Hm i Hi). reflexivity.
  - rewrite Forall_forall in *. intros x Hx. apply in_map_iff in Hx.
    destruct Hx as [a [<- Ha]]. apply (Hr a Ha). exact Hi.
Qed.

Lemma np_sum_axis0_natural n l :
  l <> [] -> Forall (square n) l -> Forall (natural_cells n) l ->
  natural_cells n (np_sum_axis0 l).
Proof.
  intros Hne Hsq Hz i j Hi Hj. destruct l as [|m r]; [congruence|].
  inversion Hsq; subst. inversion Hz as [|? ? Hm Hr]; subst. simpl.
  rewrite (fold_madd_cell_eq n) by auto.
  apply fold_plus_natural; [apply Hm; auto|].
  rewrite Forall_forall in *. intros x Hx. apply in_map_iff in Hx.
  destruct Hx as [a [<- Ha]]. apply (Hr a Ha); auto.
Qed.

Lemma mscale_square n w a : square n a -> square n (mscale w a).
Proof. apply map_map_square. Qed.

Lemma mscale_symmetric n w a :
  square n a -> symmetric_matrix n a -> symmetric_matrix n (mscale w a).
Proof.
  intros Hsq H i j Hi Hj. rewrite !(mscale_cell n) by auto.
  rewrite (H i j Hi Hj). reflexivity.
Qed.

Lemma mscale_diagonal n w a :
  square n a -> zero_diagonal n a -> zero_diagonal n (mscale w a).
Proof.
  intros Hsq H i Hi. rewrite (mscale_cell n) by auto.
  rewrite (H i Hi). ring.
Qed.

(** The scaled layers of the weighted mode. *)
Lemma scaled_layers n (P : matrix Q -> Prop) (ws : list Q) (l : list (matrix Q)) :
  (forall w a, square n a -> P a -> P (mscale w a)) ->
  Forall (square n) l -> Forall P l ->
  Forall P (map (fun wm => mscale (fst wm) (snd wm)) (combine ws l)).
Proof.
  intros HP Hsq Hl. rewrite Forall_forall in *. intros x Hx.
  apply in_map_iff in Hx. destruct Hx as [[w a] [<- Hin]]. simpl.
  apply in_combine_r in Hin. apply HP; auto.
Qed.

Lemma uniform_layers n (P : matrix Q -> Prop) (w : Q) (l : list (matrix Q)) :
  (forall w a, square n a -> P a -> P (mscale w a)) ->
  Forall (square n) l -> Forall P l ->
  Forall P (map (fun m => mscale w m) l).
Proof.
  intros HP Hsq Hl. rewrite Forall_forall in *. intros x Hx.
  apply in_map_iff in Hx. destruct Hx as [a [<- Hin]]. apply HP; auto.
Qed.

Lemma total_dist_cases distance_mode weights layers T :
  total_dist distance_mode weights layers = Ok T ->
  T = np_sum_axis0 layers \/
  T = py_sum (map (fun m => mscale (1 / inject_Z (Z.of_nat (length layers)))%Q m)
                  layers) \/
  exists ws, length ws = length layers /\
    T = py_sum (map (fun wm => mscale (fst wm) (snd wm)) (combine ws layers)).
Proof.
  unfold total_dist.
  destruct (String.eqb distance_mode "simple").
  - intros E. inversion E. auto.
  - destruct (String.eqb distance_mode "weighted"); [|discriminate].
    destruct weights as [ws|].
    + destruct (Nat.eqb_spec (length ws) (length layers)); [|discriminate].
      intros E. inversion E. right. right. exists ws. auto.
    + intros E. inversion E. auto.
Qed.

Lemma combine_nonempty {A B} (a : list A) (b : list B) :
  length a = length b -> b <> [] -> combine a b <> [].
Proof.
  destruct a, b; simpl; intros; try congruence; try discriminate.
Qed.

Lemma total_dist_keeps n (P : matrix Q -> Prop) distance_mode weights layers T :
  (forall l, l <> [] -> Forall (square n) l -> Forall P l -> P (np_sum_axis0 l)) ->
  (forall l, l <> [] -> Forall (square n) l -> Forall P l -> P (py_sum l)) ->
  (forall w a, square n a -> P a -> P (mscale w a)) ->
  layers <> [] -> Forall (square n) layers -> Forall P layers ->
  total_dist distance_mode weights layers = Ok T -> P T.
Proof.
  intros Hnp Hpy Hsc Hne Hsq HP HT.
  destruct (total_dist_cases _ _ _ _ HT) as [->|[->|(ws & Hlen & ->)]].
  - apply Hnp; auto.
  - apply Hpy.
    + destruct layers; [congruence|discriminate].
    + apply (uniform_layers n (square n)); auto. intros. apply mscale_square. auto.
    + apply (uniform_layers n P); auto.
  - apply Hpy.
    + intros E. apply map_eq_nil in E. revert E. apply combine_nonempty; auto.
    + apply (scaled_layers n (square n)); auto. intros. apply mscale_square. auto.
    + apply (scaled_layers n P); auto.
Qed.

(** X14.  With at least one layer, all layers square of one size: whenever
    the combination of the layers succeeds (simple mode, weighted mode with
    or without weights), the combined matrix has the shape of the layers; it
    is symmetric when every layer is, and has a zero diagonal when every
    layer has. *)
Theorem total_dist_invariants
    (n : nat) (distance_mode : string) (weights : option (list Q))
    (layers : list (matrix Q)) (T : matrix Q) :
  layers <> [] -> Forall (square n) layers ->
  total_dist distance_mode weights layers = Ok T ->
  square n T /\
  (Forall (symmetric_matrix n) layers -> symmetric_matrix n T) /\
  (Forall (zero_diagonal n) layers -> zero_diagonal n T).
Proof.
  intros Hne Hsq HT. split; [|split].
  - apply (total_dist_keeps n (square n) distance_mode weights layers T); auto.
    + intros l H1 H2 _. apply np_sum_axis0_square; auto.
    + intros l H1 H2 _. apply py_sum_square; auto.
    + intros w a H _. apply mscale_square. exact H.
  - intros Hsym.
    apply (total_dist_keeps n (symmetric_matrix n) distance_mode weights layers T);
      auto.
    + apply np_sum_axis0_symmetric.
    + apply py_sum_symmetric.
    + apply mscale_symmetric.
  - intros Hz.
    apply (total_dist_keeps n (zero_diagonal n) distance_mode weights layers T);
      auto.
    + apply np_sum_axis0_diagonal.
    + apply py_sum_diagonal.
    + apply mscale_diagonal.
Qed.

Lemma total_dist_invariants_witness :
  let T := returned [] (total_dist "weighted" (Some [3 # 10; 7 # 10]%Q) layers2) in
  square 2 T /\
  (Forall (symmetric_matrix 2) layers2 -> symmetric_matrix 2 T) /\
  (Forall (zero_diagonal 2) layers2 -> zero_diagonal 2 T).
Proof.
  apply (total_dist_invariants 2 "weighted" (Some [3 # 10; 7 # 10]%Q) layers2).
  - discriminate.
  - repeat constructor.
  - reflexivity.
Defined.

End TotalDistFacts.

(** ** The layers computed from the sequences *)

Module LayerFacts.
Import Numeric Errors Dict SpanningTree Distance Layers Network.
Import MatrixFacts MstFacts DistanceFacts TotalDistFacts NetworkFacts.

Section Metric.
Variable levenshtein : string -> string -> nat.

Lemma tabulate_square {A} n (f : nat -> nat -> A) : square n (tabulate n f).
Proof.
  split; [apply tabulate_length|].
  rewrite Forall_forall. intros r Hr. unfold tabulate in Hr.
  apply in_map_iff in Hr. destruct Hr as [i [<- _]].
  rewrite length_map, length_seq. reflexivity.
Qed.

Lemma squareform_pdist_square seq_list :
  square (length seq_list) (squareform_pdist levenshtein seq_list).
Proof. apply tabulate_square. Qed.

Lemma squareform_pdist_symmetric seq_list :
  symmetric_matrix (length seq_list) (squareform_pdist levenshtein seq_list).
Proof.
  intros i j Hi Hj. unfold squareform_pdist, qcell.
  rewrite !cell_tabulate by auto.
  rewrite (Nat.eqb_sym j i), (Nat.min_comm j i), (Nat.max_comm j i).
  reflexivity.
Qed.

Lemma squareform_pdist_diagonal seq_list :
  zero_diagonal (length seq_list) (squareform_pdist levenshtein seq_list).
Proof.
  intros i Hi. unfold squareform_pdist, qcell.
  rewrite cell_tabulate by auto. rewrite Nat.eqb_refl. reflexivity.
Qed.

Lemma squareform_pdist_natural seq_list :
  natural_cells (length seq_list) (squareform_pdist levenshtein seq_list).
Proof.
  intros i j Hi Hj. unfold squareform_pdist, qcell.
  rewrite cell_tabulate by auto. destruct (i =? j).
  - exists 0. reflexivity.
  - eexists. reflexivity.
Qed.

Lemma layers_all (P : nat -> matrix Q -> Prop) n dat_seq :
  (forall seq_list, P (length seq_list) (squareform_pdist levenshtein seq_list)) ->
  Forall (fun column => length (snd column) = n) dat_seq ->
  Forall (P n) (dist_mat_list levenshtein dat_seq).
Proof.
  intros HP Hn. unfold dist_mat_list. rewrite Forall_forall in *.
  intros m Hm. apply in_map_iff in Hm. destruct Hm as [col [<- Hc]].
  rewrite <- (Hn col Hc). apply HP.
Qed.

(** A cell that is a natural number is zero or at least 1. *)
Lemma natural_cell_ge_1 (x : Q) :
  (exists d : nat, (x == inject_Z (Z.of_nat d))%Q) ->
  qnonzero x = true -> (1 <= x)%Q.
Proof.
  intros [d Hd] Hnz. apply qnonzero_spec in Hnz.
  destruct d as [|d].
  - exfalso. apply Hnz. rewrite Hd. reflexivity.
  - rewrite Hd. change 1%Q with (inject_Z 1). rewrite <- Zle_Qle. lia.
Qed.

Lemma natural_matrix_ge_1 n T :
  square n T -> natural_cells n T ->
  forall a b, qnonzero (qcell T a b) = true -> (1 <= qcell T a b)%Q.
Proof.
  intros [Hl Hr] Hnat a b Hnz.
  destruct (Nat.lt_ge_cases a n) as [Ha|Ha].
  - destruct (Nat.lt_ge_cases b n) as [Hb|Hb].
    + apply natural_cell_ge_1; auto.
    + exfalso. unfold qcell, cell in Hnz.
      rewrite (nth_overflow (nth a T [])) in Hnz; [discriminate|].
      rewrite (square_row_length n T a (conj Hl Hr) Ha). exact Hb.
  - exfalso. unfold qcell, cell in Hnz.
    rewrite (nth_overflow T) in Hnz by lia. destruct b; discriminate.
Qed.

Lemma loc_sub_cell total index ms i j :
  qcell (loc_sub total index ms) i j = 0%Q \/
  exists a b, qcell (loc_sub total index ms) i j = qcell total a b.
Proof.
  destruct (Nat.lt_ge_cases i (length ms)) as [Hi|Hi].
  - destruct (Nat.lt_ge_cases j (length ms)) as [Hj|Hj].
    + right. unfold loc_sub, qcell, cell.
      rewrite (nth_map_in _ ms i EmptyString []) by exact Hi.
      rewrite (nth_map_in _ ms j EmptyString 0%Q) by exact Hj.
      unfold loc, qcell, cell. eexists. eexists. reflexivity.
    + left. unfold loc_sub, qcell, cell.
      rewrite (nth_map_in _ ms i EmptyString []) by exact Hi.
      apply nth_overflow. rewrite length_map. exact Hj.
  - left. unfold loc_sub, qcell, cell.
    rewrite (nth_overflow (map _ ms)) by (rewrite length_map; exact Hi).
    destruct j; reflexivity.
Qed.

(** X15.  The layers computed from the columns of sequences (every column
    of [n >= 1] rows), whatever the metric: every layer is an [n] x [n]
    symmetric matrix with a zero diagonal and natural numbers as cells; in
    simple mode so is their combination; and, for an index of [n] labels,
    every cluster sub-matrix then handed to [mst] is square, of size 2 or more, with every non-zero cell
    at least 1. *)
Theorem simple_mode_distances
    (n : nat) (dat_seq : list (string * list string))
    (weights : option (list Q)) :
  dat_seq <> [] -> 1 <= n ->
  Forall (fun column => length (snd column) = n) dat_seq ->
  let layers := dist_mat_list levenshtein dat_seq in
  Forall (square n) layers /\
  Forall (symmetric_matrix n) layers /\
  Forall (zero_diagonal n) layers /\
  Forall (natural_cells n) layers /\
  exists T,
    total_dist "simple" weights layers = Ok T /\
    square n T /\ symmetric_matrix n T /\ zero_diagonal n T /\
    natural_cells n T /\
    forall (index : list string) (key : string -> string) c df,
      length index = n ->
      In (c, df) (cluster_dist T index (group_members key index)) ->
      square (length (frame_index df)) (frame_values df) /\
      2 <= length (frame_index df) /\
      forall i j, qnonzero (qcell (frame_values df) i j) = true ->
                  (1 <= qcell (frame_values df) i j)%Q.
Proof.
  intros Hne Hn Hcols. cbv zeta.
  set (layers := dist_mat_list levenshtein dat_seq).
  assert (Hsq : Forall (square n) layers)
    by (apply (layers_all (fun n => square n)); auto using squareform_pdist_square).
  assert (Hsym : Forall (symmetric_matrix n) layers)
    by (apply (layers_all symmetric_matrix); auto using squareform_pdist_symmetric).
  assert (Hz : Forall (zero_diagonal n) layers)
    by (apply (layers_all zero_diagonal); auto using squareform_pdist_diagonal).
  assert (Hnat : Forall (natural_cells n) layers)
    by (apply (layers_all natural_cells); auto using squareform_pdist_natural).
  assert (Hl : layers <> []).
  { unfold layers, dist_mat_list. destruct dat_seq; [congruence|discriminate]. }
  repeat split; auto.
  exists (np_sum_axis0 layers). split; [reflexivity|].
  assert (HT : square n (np_sum_axis0 layers)) by (apply np_sum_axis0_square; auto).
  assert (HTn : natural_cells n (np_sum_axis0 layers))
    by (apply np_sum_axis0_natural; auto).
  split; [exact HT|]. split; [apply np_sum_axis0_symmetric; auto|].
  split; [apply np_sum_axis0_diagonal; auto|]. split; [exact HTn|].
  intros index key c df _ Hin.
  unfold cluster_dist in Hin. apply in_flat_map in Hin.
  destruct Hin as [[c' ms] [_ Hin]]. cbn [fst snd] in Hin.
  destruct (1 <? length (loc_sub (np_sum_axis0 layers) index ms)) eqn:E1;
    [|contradiction].
  destruct (1 <? length ms) eqn:E2; [|contradiction].
  destruct Hin as [E|[]]. inversion E; subst. cbn [frame_index frame_values].
  split; [apply loc_sub_square|]. split; [apply Nat.ltb_lt in E2; lia|].
  intros i j Hnz.
  destruct (loc_sub_cell (np_sum_axis0 layers) index ms i j) as [E0|(a & b & Eab)].
  - rewrite E0 in Hnz. discriminate.
  - rewrite Eab in *. apply (natural_matrix_ge_1 n _ HT HTn a b Hnz).
Qed.

End Metric.

Lemma simple_mode_distances_witness :
  let layers := dist_mat_list length_difference example_dat_seq in
  Forall (square 3) layers /\
  Forall (symmetric_matrix 3) layers /\
  Forall (zero_diagonal 3) layers /\
  Forall (natural_cells 3) layers /\
  exists T,
    total_dist "simple" None layers = Ok T /\
    square 3 T /\ symmetric_matrix 3 T /\ zero_diagonal 3 T /\
    natural_cells 3 T /\
    forall (index : list string) (key : string -> string) c df,
      length index = 3 ->
      In (c, df) (cluster_dist T index (group_members key index)) ->
      square (length (frame_index df)) (frame_values df) /\
      2 <= length (frame_index df) /\
      forall i j, qnonzero (qcell (frame_values df) i j) = true ->
                  (1 <= qcell (frame_values df) i j)%Q.
Proof.
  apply (simple_mode_distances length_difference 3 example_dat_seq None).
  - discriminate.
  - lia.
  - repeat constructor.
Defined.

(** The two layers of the example and their sum. *)
Example example_layers :
  dist_mat_list length_difference example_dat_seq
  = [ [[0; 1; 3]; [1; 0; 2]; [3; 2; 0]]; [[0; 0; 1]; [0; 0; 1]; [1; 1; 0]] ]%Q /\
  total_dist "simple" None (dist_mat_list length_difference example_dat_seq)
  = Ok [[0; 1; 4]; [1; 0; 3]; [4; 3; 0]]%Q.
Proof. vm_compute. auto. Qed.

End LayerFacts.

(** ** Given positions and the seed *)

Module LayoutEntryFacts.
Import Numeric Errors Dict Nx Layout Network LayoutEntry.

Section Generator.
Variable RandomState : Type.
Variable rand : RandomState -> nat -> nat -> farray * RandomState.
Variable seeded : Z -> RandomState.

Lemma process_params_cases center dim :
  _process_params center dim = Raise ValueError \/
  exists c, _process_params center dim = Ok c /\ length c = dim.
Proof.
  unfold _process_params.
  destruct (Nat.eqb_spec
              (length match center with
                      | Some c => c
                      | None => repeat 0%float dim
                      end) dim) as [E|E]; simpl; eauto.
Qed.

Lemma process_params_default dim :
  _process_params None dim = Ok (repeat 0%float dim).
Proof.
  unfold _process_params. rewrite repeat_length, Nat.eqb_refl. reflexivity.
Qed.

Lemma fixed_indices_cases G pos fixed :
  fixed_indices G pos fixed = Raise ValueError \/
  fixed_indices G pos fixed = Raise KeyError \/
  exists f, fixed_indices G pos fixed = Ok f /\ (f <> None -> pos <> None).
Proof.
  unfold fixed_indices. destruct fixed as [f|].
  - destruct pos as [p|]; auto.
    destruct (forallb (fun node => mem node p) f); simpl; auto.
    destruct (forallb (fun node => mem node G) f); simpl; auto.
    right. right. eexists. split; [reflexivity|]. discriminate.
  - right. right. exists None. split; [reflexivity|]. congruence.
Qed.

Lemma initial_positions_without_generator G p center dim seed :
  seed = NoSeed \/ (exists s, seed = IntSeed s) ->
  initial_positions rand G (Some p) center dim seed
  = (Raised (match py_max (concat (map snd p)) with
             | Raise e => Builtin e
             | Ok _ => AttributeError
             end), seed).
Proof.
  intros Hs. unfold initial_positions.
  destruct (py_max (concat (map snd p))); [|reflexivity].
  destruct Hs as [->|[s ->]]; reflexivity.
Qed.

Lemma py_max_raises (l : list float) e : py_max l = Raise e -> e = ValueError.
Proof. destruct l; simpl; intros H; inversion H; reflexivity. Qed.

Lemma py_max_nonempty (l : list float) : l <> [] -> exists x, py_max l = Ok x.
Proof. destruct l; [congruence|]. intros _. eexists. reflexivity. Qed.

(** X16.  [_fruchterman_reingold_layout] is not decorated with
    [random_state]: it calls [seed.rand] on the seed as passed.  With the
    seed left at [None], or an integer, a call that is given positions or
    fixed nodes therefore never gets past the first part of the function: it
    raises [ValueError], [KeyError] or [AttributeError] and leaves the seed
    as it is; when no node is fixed, the centre has [dim] coordinates and
    the positions hold a coordinate, the exception is [AttributeError].
    With none of these arguments given, the first part raises nothing,
    whatever the seed, and hands the origin as centre and no initial
    positions on. *)
Theorem given_positions_need_a_generator
    (G : Graph) (pos : option (dict (list float)))
    (fixed : option (list string)) (center : option (list float)) (dim : nat)
    (seed : seed_value RandomState) :
  seed = NoSeed \/ (exists s, seed = IntSeed s) ->
  (pos <> None \/ fixed <> None ->
   exists e,
     layout_entry rand G pos fixed center dim seed = (Raised e, seed) /\
     (e = Builtin ValueError \/ e = Builtin KeyError \/ e = AttributeError)) /\
  (forall p c,
     pos = Some p -> fixed = None -> _process_params center dim = Ok c ->
     concat (map snd p) <> [] ->
     layout_entry rand G pos fixed center dim seed = (Raised AttributeError, seed)) /\
  (forall seed',
     layout_entry rand G None None None dim seed'
     = (Returned match nodes G with
                 | [] => Done []
                 | [n] => Done [(n, repeat 0%float dim)]
                 | _ => Solve (repeat 0%float dim) None 1%float None
                 end, seed')).
Proof.
  intros Hs. split; [|split].
  - intros Hgiven. unfold layout_entry.
    destruct (process_params_cases center dim) as [->|(c & -> & _)]; [eauto|].
    destruct (fixed_indices_cases G pos fixed) as [->|[->|(f & Ef & Hf)]];
      [eauto|eauto|]. rewrite Ef.
    assert (Hp : pos <> None).
    { destruct Hgiven as [H|H]; auto. apply Hf. intros ->.
      unfold fixed_indices in Ef. destruct fixed; [|congruence].
      destruct pos as [p|]; [|discriminate].
      destruct (negb (forallb (fun node : string => mem node p) l));
        [discriminate|].
      destruct (negb (forallb (fun node : string => mem node G) l));
        discriminate. }
    destruct pos as [p|]; [|congruence]. cbv beta iota.
    rewrite (initial_positions_without_generator G p c dim seed Hs).
    eexists. split; [reflexivity|].
    destruct (py_max (concat (map snd p))) as [x|e] eqn:E; auto.
    rewrite (py_max_raises _ _ E). auto.
  - intros p c -> -> Hc Hne. unfold layout_entry. rewrite Hc.
    cbn [fixed_indices]. cbv beta iota.
    rewrite (initial_positions_without_generator G p c dim seed Hs).
    destruct (py_max_nonempty _ Hne) as [x ->]. reflexivity.
  - intros seed'. unfold layout_entry. rewrite process_params_default. simpl.
    reflexivity.
Qed.

End Generator.

Lemma given_positions_need_a_generator_witness :
  let G := full_graph ["a"; "b"; "c"]%string example_edges in
  (Some example_pos <> None \/ @None (list string) <> None ->
   exists e,
     layout_entry lcg_rand G (Some example_pos) None None 2 NoSeed
     = (Raised e, NoSeed) /\
     (e = Builtin ValueError \/ e = Builtin KeyError \/ e = AttributeError)) /\
  (forall p c,
     Some example_pos = Some p -> @None (list string) = None ->
     _process_params None 2 = Ok c ->
     concat (map snd p) <> [] ->
     layout_entry lcg_rand G (Some example_pos) None None 2 NoSeed
     = (Raised AttributeError, NoSeed)) /\
  (forall seed',
     layout_entry lcg_rand G None None None 2 seed'
     = (Returned match nodes G with
                 | [] => Done []
                 | [n] => Done [(n, repeat 0%float 2)]
                 | _ => Solve (repeat 0%float 2) None 1%float None
                 end, seed')).
Proof.
  apply (given_positions_need_a_generator Z lcg_rand
           (full_graph ["a"; "b"; "c"]%string example_edges)
           (Some example_pos) None None 2 NoSeed).
  left. reflexivity.
Defined.

(** With a generator instance as seed the same call gets through: the
    given positions overwrite the drawn ones, and the instance is left
    advanced by the draw. *)
Example given_positions_with_generator :
  layout_entry lcg_rand (full_graph ["a"; "b"]%string example_edges)
               (Some example_pos) None None 2 (StateSeed 1%Z)
  = (Returned (Solve [0; 0]%float (Some [[0; 0]; [1; 0]]%float) 1%float None),
     StateSeed (snd (lcg_rand 1%Z 2 2))).
Proof. vm_compute. reflexivity. Qed.

End LayoutEntryFacts.

(** ** From the edge list to the graph and back *)

Module RoundTrip.
Import Numeric Errors Dict Nx SpanningTree Distance Layout Network Shapes.
Import GraphNotions EdgeWeights.
Import NxFacts DictFacts GenerateLayoutFacts NetworkFacts EdgeListFacts.
Import GraphFacts LayoutReturns NetworkGraphFacts.

(** *** Membership in the edges of a graph *)

Lemma edges_from_In l : forall seen a b w,
  In (a, b, w) (edges_from seen l) <->
  exists l1 nbrs l2,
    l = l1 ++ (a, nbrs) :: l2 /\ In (b, w) nbrs /\
    existsb (String.eqb b) seen = false /\ ~ In b (keys l1).
Proof.
  induction l as [|[n nbrs] l IH]; intros seen a b w; simpl.
  - split; [tauto|]. intros (l1 & nb & l2 & E & _). destruct l1; discriminate.
  - rewrite in_app_iff, IH. split.
    + intros [H|(l1 & nb & l2 & E & Hin & Hs & Hk)].
      * apply in_map_iff in H. destruct H as [[v x] [E Hf]]. simpl in E.
        inversion E; subst. apply filter_In in Hf. destruct Hf as [Hin Hs].
        simpl in Hs. apply negb_true_iff in Hs.
        exists [], nbrs, l. simpl. auto.
      * simpl in Hs. apply orb_false_iff in Hs. destruct Hs as [Hbn Hs].
        exists ((n, nbrs) :: l1), nb, l2. subst l. simpl. repeat split; auto.
        intros [Hn|Hn]; [|contradiction]. subst n.
        rewrite String.eqb_refl in Hbn. discriminate.
    + intros (l1 & nb & l2 & E & Hin & Hs & Hk).
      destruct l1 as [|[n' nb'] l1]; simpl in E; inversion E; subst.
      * left. apply in_map_iff. exists (b, w). split; auto.
        apply filter_In. split; auto. simpl. rewrite Hs. reflexivity.
      * right. exists l1, nb, l2. repeat split; auto.
        -- simpl. apply orb_false_iff. split; auto.
           apply String.eqb_neq. intros ->. apply Hk. simpl. auto.
        -- intros Hb. apply Hk. simpl. auto.
Qed.

Lemma index_of_app_In (x : string) (l1 l2 : list string) :
  In x l1 -> index_of x (l1 ++ l2) < length l1.
Proof.
  induction l1 as [|y l1 IH]; simpl; [tauto|].
  intros H. destruct (String.eqb_spec y x); [lia|].
  destruct H as [H|H]; [contradiction|]. apply IH in H. lia.
Qed.

Lemma index_of_app_notin (x : string) (l1 l2 : list string) :
  ~ In x l1 -> index_of x (l1 ++ l2) = length l1 + index_of x l2.
Proof.
  induction l1 as [|y l1 IH]; simpl; auto.
  intros H. destruct (String.eqb_spec y x); [tauto|]. rewrite IH; tauto.
Qed.

Lemma index_of_head (x : string) l : index_of x (x :: l) = 0.
Proof. simpl. rewrite String.eqb_refl. reflexivity. Qed.

Lemma In_pair_get {V} k (v : V) (d : dict V) :
  NoDup (keys d) -> (In (k, v) d <-> get k d = Some v).
Proof.
  intros H. split; [apply In_get; exact H|apply get_Some_In].
Qed.

Lemma entry_split (G : Graph) (a : string) (nbrs : dict Q) :
  In (a, nbrs) G -> exists l1 l2, G = l1 ++ (a, nbrs) :: l2.
Proof. intros H. apply in_split. exact H. Qed.

Lemma split_entry_unique (G : Graph) l1 (nbrs : dict Q) l2 (a : string) :
  simple_keys G -> G = l1 ++ (a, nbrs) :: l2 ->
  nbrs = neighbors G a /\ ~ In a (keys l1) /\ nodes G = keys l1 ++ a :: keys l2.
Proof.
  intros Hs E. split; [|split].
  - symmetry. apply entry_neighbors; auto. rewrite E. apply in_or_app.
    simpl. auto.
  - destruct Hs as [Hnd _]. rewrite E in Hnd. unfold keys in *.
    rewrite map_app in Hnd. simpl in Hnd. apply NoDup_remove_2 in Hnd.
    intros H. apply Hnd. apply in_or_app. auto.
  - rewrite E. unfold nodes, keys. rewrite map_app. reflexivity.
Qed.

(** An edge is listed once, from its end that comes first among the
    nodes. *)
Lemma edges_In G a b w :
  simple_keys G ->
  (In (a, b, w) (Nx.edges G) <->
   In a (nodes G) /\ get b (neighbors G a) = Some w /\
   index_of a (nodes G) <= index_of b (nodes G)).
Proof.
  intros Hs. unfold Nx.edges. rewrite edges_from_In. split.
  - intros (l1 & nbrs & l2 & E & Hin & _ & Hk).
    destruct (split_entry_unique G l1 nbrs l2 a Hs E) as (En & Ha & EN).
    split; [|split].
    + rewrite EN. apply in_or_app. simpl. auto.
    + rewrite <- En. apply In_get; auto.
      destruct Hs as [_ Hf]. rewrite Forall_forall in Hf.
      apply (Hf (a, nbrs)). rewrite E. apply in_or_app. simpl. auto.
    + rewrite EN. rewrite (index_of_app_notin a) by exact Ha.
      rewrite (index_of_app_notin b) by exact Hk.
      rewrite index_of_head. lia.
  - intros (Ha & Hg & Hle).
    destruct (neighbors_entry G a) as [E0|Hent].
    { rewrite E0 in Hg. discriminate. }
    destruct (entry_split G a _ Hent) as (l1 & l2 & E).
    destruct (split_entry_unique G l1 _ l2 a Hs E) as (_ & Hna & EN).
    exists l1, (neighbors G a), l2. repeat split; auto.
    + apply get_Some_In. exact Hg.
    + intros Hb. rewrite EN in Hle.
      pose proof (index_of_app_In b (keys l1) (a :: keys l2) Hb) as H1.
      rewrite (index_of_app_notin a) in Hle by exact Hna.
      rewrite index_of_head in Hle. lia.
Qed.

Lemma edges_from_NoDup l : forall seen,
  NoDup (keys l) -> Forall (fun kv => NoDup (keys (snd kv))) l ->
  NoDup (edges_from seen l).
Proof.
  induction l as [|[n nbrs] l IH]; intros seen Hk Hf; simpl; [constructor|].
  inversion Hk as [|? ? Hn Hk']; subst. inversion Hf as [|? ? Hnb Hf']; subst.
  simpl in Hnb. apply NoDup_app.
  - apply Finite.Injective_map_NoDup.
    + intros [v1 w1] [v2 w2] E. inversion E. reflexivity.
    + apply NoDup_filter.
      assert (G : forall d : dict Q, NoDup (keys d) -> NoDup d).
      { intros d Hd. apply (NoDup_map_inv fst). exact Hd. }
      apply G. exact Hnb.
  - apply IH; auto.
  - intros [[a b] w] H1 H2. apply in_map_iff in H1.
    destruct H1 as [[v x] [E _]]. simpl in E. inversion E; subst.
    apply edges_from_In in H2. destruct H2 as (l1 & nb & l2 & El & _).
    apply Hn. rewrite El. unfold keys. rewrite map_app. apply in_or_app.
    simpl. auto.
Qed.

Lemma edges_NoDup G : simple_keys G -> NoDup (Nx.edges G).
Proof. intros [H1 H2]. apply edges_from_NoDup; auto. Qed.

(** *** The weight recorded between two nodes *)

(** The row joins [x] and [y], in either direction. *)
Lemma get_add_edges_none es : forall G x y,
  (forall r, In r es -> ~ (source r = x /\ target r = y) /\
                        ~ (source r = y /\ target r = x)) ->
  get y (neighbors (add_weighted_edges_from es G) x) = get y (neighbors G x).
Proof.
  unfold add_weighted_edges_from.
  induction es as [|[[u v] w] es IH]; intros G x y H; simpl; auto.
  rewrite IH by (intros r Hr; apply H; simpl; auto).
  rewrite get_add_edge.
  destruct (H (u, v, w)) as [H1 H2]; [simpl; auto|].
  unfold source, target in H1, H2. simpl in H1, H2.
  destruct (String.eqb_spec x u), (String.eqb_spec y v),
    (String.eqb_spec x v), (String.eqb_spec y u); simpl; try reflexivity;
    subst; tauto.
Qed.

Lemma matching_row_dec (es : list (string * string * Q)) x y :
  (exists r, In r es /\
     ((source r = x /\ target r = y) \/ (source r = y /\ target r = x))) \/
  ~ (exists r, In r es /\
       ((source r = x /\ target r = y) \/ (source r = y /\ target r = x))).
Proof.
  induction es as [|e es IH].
  - right. intros (r & [] & _).
  - destruct IH as [(r & Hr & Hm)|IH].
    + left. exists r. simpl. auto.
    + destruct (string_dec (source e) x) as [E1|E1],
               (string_dec (target e) y) as [E2|E2],
               (string_dec (source e) y) as [E3|E3],
               (string_dec (target e) x) as [E4|E4];
        try (left; exists e; simpl; tauto);
        right; intros (r & [<-|Hr] & Hm); try tauto;
        apply IH; exists r; auto.
Qed.

Lemma get_add_edges es : forall G x y w,
  (forall r r', In r es -> In r' es -> same_pair r r' -> r = r') ->
  In (x, y, w) es \/ In (y, x, w) es ->
  get y (neighbors (add_weighted_edges_from es G) x) = Some w.
Proof.
  induction es as [|e es IH]; intros G x y w Hu Hin; [simpl in Hin; tauto|].
  assert (Hu' : forall r r', In r es -> In r' es -> same_pair r r' -> r = r').
  { intros r r' Hr Hr'. apply Hu; simpl; auto. }
  assert (Hmatch : forall r, In r (e :: es) ->
            (source r = x /\ target r = y) \/ (source r = y /\ target r = x) ->
            r = (x, y, w) \/ r = (y, x, w)).
  { intros r Hr Hm. destruct Hin as [Hin|Hin].
    - left. apply (Hu r (x, y, w) Hr Hin). unfold same_pair, source, target in *.
      simpl. tauto.
    - right. apply (Hu r (y, x, w) Hr Hin). unfold same_pair, source, target in *.
      simpl. tauto. }
  change (add_weighted_edges_from (e :: es) G)
    with (add_weighted_edges_from es
            (add_edge (fst (fst e)) (snd (fst e)) (snd e) G)).
  destruct (matching_row_dec es x y) as [(r & Hr & Hm)|Hrest].
  - apply IH; auto.
    destruct (Hmatch r (or_intror Hr) Hm) as [<- | <-]; auto.
  - rewrite get_add_edges_none.
    + rewrite get_add_edge.
      assert (He : e = (x, y, w) \/ e = (y, x, w)).
      { destruct Hin as [[H|H]|[H|H]]; auto; exfalso; apply Hrest.
        - exists (x, y, w). split; [exact H|]. left. split; reflexivity.
        - exists (y, x, w). split; [exact H|]. right. split; reflexivity. }
      destruct He as [-> | ->]; simpl; rewrite !String.eqb_refl; simpl;
        rewrite ?orb_true_r; reflexivity.
    + intros r Hr. split; intros Hm; apply Hrest; exists r; auto.
Qed.

Lemma get_add_edges_row es : forall G x y w,
  (forall u v, get v (neighbors G u) = None) ->
  get y (neighbors (add_weighted_edges_from es G) x) = Some w ->
  exists r, In r es /\
    ((source r = x /\ target r = y) \/ (source r = y /\ target r = x)).
Proof.
  intros G x y w H0 Hg.
  destruct (matching_row_dec es x y) as [H|H]; auto.
  exfalso. rewrite get_add_edges_none in Hg.
  - rewrite H0 in Hg. discriminate.
  - intros r Hr. split; intros Hm; apply H; exists r; auto.
Qed.

Lemma neighbors_add_nodes_from ns : forall G x,
  neighbors (add_nodes_from ns G) x = neighbors G x.
Proof.
  unfold add_nodes_from.
  induction ns as [|n ns IH]; intros G x; simpl; auto.
  rewrite IH. apply neighbors_add_node.
Qed.

Lemma oriented_rows_unique index (R : list (string * string * Q)) :
  NoDup (map fst R) -> (forall r, In r R -> oriented index r) ->
  forall r r', In r R -> In r' R -> same_pair r r' -> r = r'.
Proof.
  intros Hnd Hor r r' Hr Hr' [[E1 E2]|[E1 E2]].
  - assert (Hf : fst r = fst r').
    { destruct r as [[a b] w], r' as [[a' b'] w']. unfold source, target in *.
      simpl in *. congruence. }
    clear E1 E2. induction R as [|x R IH]; [contradiction|].
    simpl in Hnd. inversion Hnd as [|? ? Hx Hnd']; subst.
    destruct Hr as [-> | Hr], Hr' as [-> | Hr']; auto.
    + exfalso. apply Hx. rewrite Hf. apply in_map. exact Hr'.
    + exfalso. apply Hx. rewrite <- Hf. apply in_map. exact Hr.
    + apply IH; auto. intros r0 H0. apply Hor. simpl. auto.
  - exfalso. pose proof (Hor r Hr) as H1. pose proof (Hor r' Hr') as H2.
    unfold oriented in H1, H2. rewrite E1, E2 in H1. lia.
Qed.

(** The general form: an edge table whose rows point forward in the list of
    vertices, with no (source, target) pair twice. *)
Lemma full_graph_edges vertices edges :
  NoDup vertices ->
  NoDup (map fst (rows edges)) ->
  (forall r, In r (rows edges) -> oriented vertices r) ->
  (forall r, In r (rows edges) -> In (source r) vertices /\ In (target r) vertices) ->
  Permutation (Nx.edges (full_graph vertices edges)) (rows edges).
Proof.
  intros Hnd Hk Hor Hin.
  pose proof (simple_keys_full_graph vertices edges) as Hs.
  pose proof (nodes_full_graph vertices edges Hnd Hin) as EN.
  pose proof (oriented_rows_unique vertices (rows edges) Hk Hor) as Hu.
  assert (Hget : forall a b w, In (a, b, w) (rows edges) ->
            get b (neighbors (full_graph vertices edges) a) = Some w).
  { intros a b w H. unfold full_graph. apply get_add_edges; auto. }
  apply NoDup_Permutation.
  - apply edges_NoDup. exact Hs.
  - apply (NoDup_map_inv fst). exact Hk.
  - intros [[a b] w]. rewrite (edges_In _ a b w Hs), EN. split.
    + intros (Ha & Hg & Hle).
      destruct (get_add_edges_row (rows edges)
                  (add_nodes_from vertices empty_graph) a b w) as (r & Hr & Hm).
      * intros u v. rewrite neighbors_add_nodes_from. reflexivity.
      * exact Hg.
      * destruct r as [[s t] w']. unfold source, target in Hm. simpl in Hm.
        destruct Hm as [[-> ->]|[-> ->]].
        -- pose proof (Hget _ _ _ Hr) as Hg'. rewrite Hg in Hg'.
           inversion Hg'; subst. exact Hr.
        -- pose proof (Hor _ Hr) as Ho. unfold oriented, source, target in Ho.
           simpl in Ho. lia.
    + intros H. split; [|split].
      * apply (Hin _ H).
      * apply Hget. exact H.
      * pose proof (Hor _ H) as Ho. unfold oriented, source, target in Ho.
        simpl in Ho. lia.
Qed.

Lemma network_edges_round_trip total index cluster_key clone_key :
  NoDup index ->
  Permutation
    (Nx.edges (full_graph index (network_edges total index cluster_key clone_key)))
    (rows (network_edges total index cluster_key clone_key)).
Proof.
  intros Hnd.
  destruct (network_edges_rows total index cluster_key clone_key Hnd)
    as (Hk & Hor & _).
  apply full_graph_edges; auto.
  intros r Hr.
  destruct (network_edges_rows_within total index cluster_key clone_key r Hnd Hr)
    as (H1 & H2 & _). auto.
Qed.

(** X17.  Building the graph from the merged edge list loses and adds
    nothing: when the index names each entity once, the weighted edges of
    the graph that [generate_layout] builds from the index and the merged
    edge list are the rows of that list, each once, up to their order.  So
    [extract_edge_weights] on the full graph returns the weight column of
    the edge list up to order, and raises [ValueError] exactly when the
    list has no row. *)
Theorem edge_list_graph_round_trip
    (total : matrix Q) (index : list string) (cluster_key clone_key : string -> string)
    (trimmed : Graph) :
  NoDup index ->
  let E := network_edges total index cluster_key clone_key in
  Permutation (Nx.edges (full_graph index E)) (rows E) /\
  (rows E <> [] ->
   exists ws, extract_edge_weights (Some (full_graph index E, trimmed)) true = Ok ws /\
              Permutation ws (map weight (rows E))) /\
  (rows E = [] ->
   extract_edge_weights (Some (full_graph index E, trimmed)) true = Raise ValueError).
Proof.
  intros Hnd E.
  pose proof (network_edges_round_trip total index cluster_key clone_key Hnd) as HP.
  fold E in HP. split; [exact HP|]. split.
  - intros Hne. unfold extract_edge_weights, get_edge_attributes. simpl fst.
    cbv iota. destruct (Nx.edges (full_graph index E)) as [|e es] eqn:Ee.
    + apply Permutation_nil in HP. congruence.
    + simpl. eexists. split; [reflexivity|].
      change (snd e :: map snd es) with (map weight (e :: es)).
      apply Permutation_map. exact HP.
  - intros Hnil. rewrite Hnil in HP. apply Permutation_sym, Permutation_nil in HP.
    unfold extract_edge_weights, get_edge_attributes. simpl fst. cbv iota.
    rewrite HP. reflexivity.
Qed.

Lemma edge_list_graph_round_trip_witness :
  NoDup example_index /\
  let E := network_edges example_total example_index example_clone example_clone in
  Permutation (Nx.edges (full_graph example_index E)) (rows E) /\
  (rows E <> [] ->
   exists ws, extract_edge_weights (Some (full_graph example_index E, empty_graph)) true
              = Ok ws /\
              Permutation ws (map weight (rows E))) /\
  (rows E = [] ->
   extract_edge_weights (Some (full_graph example_index E, empty_graph)) true
   = Raise ValueError).
Proof.
  assert (H : NoDup example_index).
  { repeat constructor; simpl; intuition discriminate. }
  split; [exact H|].
  apply (edge_list_graph_round_trip example_total example_index example_clone
           example_clone empty_graph H).
Defined.

End RoundTrip.
